(** * The legacy-project consolidation migrator of the Teams Toolkit core

    A shallow embedding of [fx-core]'s project-consolidation middleware
    (the file that defines [ProjectConsolidateMW], [upgrade],
    [needConsolidateLocalRemote], [consolidateLocalRemote], [checkMethod],
    [replaceSPFxComponentId], [compareLocalAndRemoteManifest] and [diff]),
    followed by the properties established about it.

    Conventions of the embedding:
    - a JavaScript string is a [string]; [undefined] is [None];
    - a [Promise] that is awaited is sequenced in program order; a function
      called without [await] runs up to its first [await] before its caller
      goes on, and the calls it makes from there on are kept in a log of
      their own; a file operation takes effect when it is called, and the
      state of a run is the one reached when what it started has settled;
    - an exception is the left injection of a result; the state reached
      when it was raised is kept, as mutations survive a [throw];
    - the file system, the user, the telemetry and log collaborators are
      explicit components of the state. *)

From Stdlib Require Import String Ascii List Bool Arith Lia Permutation.
From Stdlib Require Import DecimalString DecimalNat Decimal.
From Stdlib Require Import Floats.PrimFloat.
From stdpp Require Import base tactics option strings.
Import ListNotations.
Open Scope string_scope.
Open Scope list_scope.
Set Warnings "-register-all".

(** ** Module-level constants *)

Definition upgradeButton : string := "Upgrade".
Definition LearnMore : string := "Learn More".
Definition LearnMoreLink : string := "https://aka.ms/teamsfx-unify-config-guide".
Definition backupFolder : string := ".backup".
Definition methods : list string := ["getProjectConfig"; "checkPermission"].
Definition upgradeReportName : string := "unify-config-change-logs.md".
Definition ignoreKeys : list string :=
  ["name"; "contentUrl"; "configurationUrl"; "manifestVersion"; "$schema";
   "description"].

(** [Set.prototype.has] on a set of strings. *)
Definition has (s : list string) (x : string) : bool :=
  existsb (String.eqb x) s.

(** ** JSON trees, as produced by [JSON.parse] *)

Inductive json : Type :=
| JNull
| JBool (b : bool)
| JNum (x : float)
| JStr (s : string)
| JArr (elems : list json)
| JObj (fields : list (string * json)).

(** [isObject(o)]: [typeof o === "object" && !!o]. The argument is a value
    that may be [undefined]. *)
Definition isObject (o : option json) : bool :=
  match o with
  | Some (JArr _) | Some (JObj _) => true
  | _ => false
  end.

(** [x === y] on values read from two separately parsed trees. Two objects
    are never the same reference there. *)
Definition strict_eq (x y : option json) : bool :=
  match x, y with
  | None, None => true
  | Some JNull, Some JNull => true
  | Some (JBool a), Some (JBool b) => Bool.eqb a b
  | Some (JNum a), Some (JNum b) => PrimFloat.eqb a b
  | Some (JStr a), Some (JStr b) => String.eqb a b
  | _, _ => false
  end.

(** The canonical decimal name of an array index. *)
Definition index_key (i : nat) : string :=
  NilEmpty.string_of_uint (Nat.to_uint i).

(** The index named by a property key, when the key is a canonical index. *)
Definition key_index (k : string) : option nat :=
  match NilEmpty.uint_of_string k with
  | Some d =>
      let n := Nat.of_uint d in
      if String.eqb (index_key n) k then Some n else None
  | None => None
  end.

Definition float_of_nat (n : nat) : float :=
  Nat.iter n (fun x => PrimFloat.add x 1%float) 0%float.

Fixpoint chars (s : string) : list json :=
  match s with
  | EmptyString => []
  | String c s' => JStr (String c EmptyString) :: chars s'
  end.

Fixpoint indexed {A : Type} (i : nat) (l : list A) : list (string * A) :=
  match l with
  | [] => []
  | x :: l' => (index_key i, x) :: indexed (S i) l'
  end.

(** [Object.entries(o)]: the own enumerable properties. [None] stands for
    the [TypeError] raised on [null]. *)
Definition entries (o : json) : option (list (string * json)) :=
  match o with
  | JNull => None
  | JBool _ | JNum _ => Some []
  | JStr s => Some (indexed 0 (chars s))
  | JArr l => Some (indexed 0 l)
  | JObj fs => Some fs
  end.

(** [Object.keys(o)]. *)
Definition keys (o : json) : option (list string) :=
  option_map (map fst) (entries o).

Fixpoint assoc (k : string) (fs : list (string * json)) : option json :=
  match fs with
  | [] => None
  | (k', v) :: fs' => if String.eqb k' k then Some v else assoc k fs'
  end.

(** The property read [o[k]] on a non-null value. Members inherited from
    the prototype are functions, which are neither objects for [isObject]
    nor strictly equal to a parsed value, so they read as [undefined] here;
    the prototype link itself is an object without enumerable keys. *)
Definition get (o : json) (k : string) : option json :=
  let inherited := if String.eqb k "__proto__" then Some (JObj []) else None in
  let sequence (l : list json) :=
    match key_index k with
    | Some i =>
        match nth_error l i with
        | Some v => Some v
        | None => inherited
        end
    | None =>
        if String.eqb k "length" then Some (JNum (float_of_nat (length l)))
        else inherited
    end in
  match o with
  | JNull => None
  | JBool _ | JNum _ => inherited
  | JStr s => sequence (chars s)
  | JArr l => sequence l
  | JObj fs =>
      match assoc k fs with
      | Some v => Some v
      | None => inherited
      end
  end.

(** ** The structural diff *)

(** One iteration of the [for (key of keys)] loop of [diff]: [recur] is the
    recursive call on [aValue], [continue] the rest of the loop. *)
Definition visit (b : json) (key : string) (aValue : json)
    (recur : json -> option bool) (continue : option bool) : option bool :=
  if has ignoreKeys key then continue
  else
    let bValue := get b key in
    if isObject (Some aValue) && isObject bValue then
      match bValue with
      | Some bv =>
          match recur bv with
          | Some true => continue
          | r => r
          end
      | None => continue
      end
    else if negb (strict_eq (Some aValue) bValue) then Some false
    else continue.

(** [diff(a, b)]. [None] is the [TypeError] of [Object.keys(null)]. *)
Fixpoint diff (a b : json) {struct a} : option bool :=
  match keys b with
  | None => None
  | Some bKeys =>
      match a with
      | JNull => None
      | JBool _ | JNum _ =>
          if negb (Nat.eqb 0 (length bKeys)) then Some false else Some true
      | JStr s =>
          if negb (Nat.eqb (length (chars s)) (length bKeys)) then Some false
          else
            (fix loop (i : nat) (l : list json) : option bool :=
               match l with
               | [] => Some true
               | aValue :: l' =>
                   visit b (index_key i) aValue (fun _ => None) (loop (S i) l')
               end) 0 (chars s)
      | JArr elems =>
          if negb (Nat.eqb (length elems) (length bKeys)) then Some false
          else
            (fix loop (i : nat) (l : list json) : option bool :=
               match l with
               | [] => Some true
               | aValue :: l' =>
                   visit b (index_key i) aValue (diff aValue) (loop (S i) l')
               end) 0 elems
      | JObj fields =>
          if negb (Nat.eqb (length fields) (length bKeys)) then Some false
          else
            (fix loop (l : list (string * json)) : option bool :=
               match l with
               | [] => Some true
               | (key, aValue) :: l' =>
                   visit b key aValue (diff aValue) (loop l')
               end) fields
      end
  end.

(** ** Prefixes of strings *)

(** What is left of [s] after the prefix [pre], if [pre] is a prefix. *)
Fixpoint strip_prefix (pre s : string) : option string :=
  match pre, s with
  | EmptyString, _ => Some s
  | String a pre', String b s' =>
      if Ascii.eqb a b then strip_prefix pre' s' else None
  | String _ _, EmptyString => None
  end.

(** [s.startsWith(pre)]. *)
Definition starts_with (pre s : string) : bool :=
  match strip_prefix pre s with
  | Some _ => true
  | None => false
  end.

(** ** [util.format] and the component-identifier pattern *)

(** [util.format(template, ...args)] on string arguments, for templates
    whose directives are [%s] and [%%]: each [%s] takes the next argument,
    a [%s] without argument stays, and the arguments left over are appended,
    each after a space. *)
Fixpoint util_format (template : string) (args : list string) : string :=
  match template with
  | EmptyString => String.concat "" (map (fun a => " " +:+ a) args)
  | String "%" (String "s" rest) =>
      match args with
      | a :: args' => a +:+ util_format rest args'
      | [] => "%s" +:+ util_format rest []
      end
  | String "%" (String "%" rest) => "%" +:+ util_format rest args
  | String c rest => String c (util_format rest args)
  end.

(** How a [string | undefined] is rendered by [%s] and by [RegExp.exec]. *)
Definition render (v : option string) : string :=
  match v with
  | Some s => s
  | None => "undefined"
  end.

(** The character class [[a-z0-9-]]. *)
Definition is_id_char (c : ascii) : bool :=
  let n := nat_of_ascii c in
  (Nat.leb 97 n && Nat.leb n 122) || (Nat.leb 48 n && Nat.leb n 57)
  || Nat.eqb n 45.

(** The longest run of class characters at the head of [s], and what
    follows it. *)
Fixpoint span_id (s : string) : string * string :=
  match s with
  | EmptyString => (EmptyString, EmptyString)
  | String c s' =>
      if is_id_char c then
        let (run, rest) := span_id s' in (String c run, rest)
      else (EmptyString, s)
  end.

Fixpoint string_drop (n : nat) (s : string) : string :=
  match n, s with
  | O, _ => s
  | S n', String _ s' => string_drop n' s'
  | S _, EmptyString => EmptyString
  end.

(** [componentIdRegex] (lookbehind [componentId=], a greedy run of class
    characters, lookahead [%26]) tried right after one occurrence of
    [componentId=]: the greedy run must be followed by [%26]; a shorter run
    is followed by a class character, so backtracking never succeeds. *)
Definition match_after_label (s : string) : option string :=
  let (run, rest) := span_id s in
  if starts_with "%26" rest then Some run else None.

(** [componentIdRegex.exec(content)], reduced to [match[0]]: the leftmost
    position that is preceded by [componentId=] and where the pattern
    matches. *)
Fixpoint componentIdRegex_exec (content : string) : option string :=
  match content with
  | EmptyString => None
  | String _ content' =>
      if starts_with "componentId=" content then
        match match_after_label (string_drop 12 content) with
        | Some m => Some m
        | None => componentIdRegex_exec content'
        end
      else componentIdRegex_exec content'
  end.

Definition replaceSPFxComponentId (content : string) : string :=
  match componentIdRegex_exec content with
  | Some m => m
  | None => ""
  end.

(** ** The manifest at its declared type *)

(** The members of [IStaticTab], [IConfigurableTab] and [TeamsAppManifest]
    that the migrator reads or writes; the others are carried along. *)
Record StaticTab : Type := mkStaticTab {
  entityId : option string;
  contentUrl : option string;
  staticTabRest : list (string * json)
}.

Record ConfigurableTab : Type := mkConfigurableTab {
  configurationUrl : option string;
  configurableTabRest : list (string * json)
}.

Record TeamsAppManifest : Type := mkManifest {
  staticTabs : option (list StaticTab);
  configurableTabs : option (list ConfigurableTab);
  manifestRest : list (string * json)
}.

(** JavaScript truthiness of a [string | undefined]. *)
Definition truthy (v : option string) : bool :=
  match v with
  | Some s => negb (String.eqb s "")
  | None => false
  end.

Definition is_undefined (v : option string) : bool :=
  match v with
  | Some _ => false
  | None => true
  end.

Definition is_empty_string (v : option string) : bool :=
  match v with
  | Some s => String.eqb s ""
  | None => false
  end.

(** [v === s] for a [string | undefined] and a string. *)
Definition is_some_string (s : string) (v : option string) : bool :=
  match v with
  | Some s' => String.eqb s' s
  | None => false
  end.

(** The body of [manifest.staticTabs.forEach]: the new value of the captured
    variable [componentId], and the tab as it is left. *)
Definition rewriteStaticTab (REMOTE_CONTENT_URL : string)
    (item : StaticTab) : option string * StaticTab :=
  let componentId := entityId item in
  let componentId :=
    if (truthy (contentUrl item) && is_undefined componentId)
       || is_empty_string componentId
    then Some (replaceSPFxComponentId (render (contentUrl item)))
    else componentId in
  let contentUrl' :=
    util_format REMOTE_CONTENT_URL [render componentId; render componentId] in
  (componentId,
   mkStaticTab (entityId item) (Some contentUrl') (staticTabRest item)).

(** The body of [manifest.configurableTabs.forEach]. *)
Definition rewriteConfigurableTab (REMOTE_CONFIGURATION_URL : string)
    (componentId : option string) (item : ConfigurableTab)
    : option string * ConfigurableTab :=
  let componentId :=
    if (truthy (configurationUrl item) && is_undefined componentId)
       || is_empty_string componentId
    then Some (replaceSPFxComponentId (render (configurationUrl item)))
    else componentId in
  let configurationUrl' :=
    util_format REMOTE_CONFIGURATION_URL
      [render componentId; render componentId] in
  (componentId,
   mkConfigurableTab (Some configurationUrl') (configurableTabRest item)).

(** [forEach] with a captured mutable variable. *)
Fixpoint forEach {A S : Type} (body : S -> A -> S * A) (s : S) (l : list A)
    : S * list A :=
  match l with
  | [] => (s, [])
  | x :: l' =>
      let (s1, x') := body s x in
      let (s2, l'') := forEach body s1 l' in
      (s2, x' :: l'')
  end.

(** The in-memory rewriting of the remote manifest of an SPFx project, from
    [let componentId = ""] to the argument of [JSON.stringify]. *)
Definition rewriteSPFxManifest (REMOTE_CONTENT_URL REMOTE_CONFIGURATION_URL : string)
    (manifest : TeamsAppManifest) : TeamsAppManifest :=
  let componentId := Some "" in
  let (componentId, staticTabs') :=
    match staticTabs manifest with
    | Some ((_ :: _) as tabs) =>
        let (c, tabs') :=
          forEach (fun _ item => rewriteStaticTab REMOTE_CONTENT_URL item)
            componentId tabs in
        (c, Some tabs')
    | other => (componentId, other)
    end in
  let configurableTabs' :=
    match configurableTabs manifest with
    | Some ((_ :: _) as tabs) =>
        Some (snd (forEach (rewriteConfigurableTab REMOTE_CONFIGURATION_URL)
                     componentId tabs))
    | other => other
    end in
  mkManifest staticTabs' configurableTabs' (manifestRest manifest).

(** ** Paths and the file system *)

Definition nonempty (s : string) : bool := negb (String.eqb s "").

(** [path.join(...segments)] on segments that are already normalised:
    empty segments are dropped and the others joined by the separator. *)
Definition path_join (segments : list string) : string :=
  match List.filter nonempty segments with
  | [] => "."
  | kept => String.concat "/" kept
  end.

(** [q] is [dir] or lies beneath it. *)
Definition under (dir q : string) : bool :=
  String.eqb q dir
  || match strip_prefix (dir +:+ "/") q with Some _ => true | None => false end.

Inductive node : Type :=
| File (content : string)
| Dir.

(** The file system: what is found at each path. *)
Definition FS : Type := string -> option node.

Definition pathExists (fs : FS) (p : string) : bool :=
  match fs p with
  | Some _ => true
  | None => false
  end.

Definition fs_set (p : string) (n : node) (fs : FS) : FS :=
  fun q => if String.eqb q p then Some n else fs q.

(** The effect of [fs.remove(p)]: [p] and all beneath it are gone. *)
Definition fs_remove (p : string) (fs : FS) : FS :=
  fun q => if under p q then None else fs q.

(** The path beneath [src] that [q], beneath [dest], is the copy of. *)
Definition relocate (dest src q : string) : option string :=
  if String.eqb q dest then Some src
  else
    match strip_prefix (dest +:+ "/") q with
    | Some rest => Some (src +:+ "/" +:+ rest)
    | None => None
    end.

(** The effect of [fs.copy(src, dest)] of fs-extra when it succeeds: what is
    at [src] and beneath it is reproduced at [dest], over what was there,
    and the missing directories above [dest] are made. *)
Definition fs_copy (src dest : string) (fs : FS) : FS :=
  fun q =>
    match relocate dest src q with
    | Some q0 =>
        match fs q0 with
        | Some n => Some n
        | None => fs q
        end
    | None =>
        match strip_prefix (q +:+ "/") dest, fs q with
        | Some _, None => Some Dir
        | _, found => found
        end
    end.

(** ** Collaborators, errors and the state of a run *)

Inductive Platform : Type := VSCode | CLI | VS | CLI_HELP.

Record Inputs : Type := mkInputs {
  projectPath : option string;
  platform : option Platform
}.

(** An element of [ctx.arguments]. Reading a member of [Inputs] from another
    object gives [undefined]. *)
Inductive Arg : Type :=
| ArgCtx
| ArgInputs (inputs : Inputs)
| ArgOther.

Record CoreHookContext : Type := mkCtx {
  method : option string;
  arguments : list Arg
}.

Record ProjectSettings : Type := mkSettings {
  appName : string;
  isSPFxProject : bool
}.

Inductive FxError : Type :=
| ConsolidateCanceledError
| WriteFileError
| SettingsError (name : string).

Inductive legacy_file : Type := LocalSettings | LocalManifest | RemoteManifest.

(** The places where a file operation is awaited. *)
Inductive io_site : Type :=
| AtWriteEnvConfig
| AtReadRemoteManifest
| AtWriteManifest
| AtCopyManifest
| AtBackupCopy (f : legacy_file)
| AtBackupRemove (f : legacy_file)
| AtCompareRead (f : legacy_file)
| AtRestore (backup : string)
| AtRollbackRemove (path : string)
| AtRollbackRemoveBackup
| AtAddPathToGitignore (path : string)
| AtReport.

(** What a [throw] carries. *)
Inductive exn : Type :=
| IOFailure (site : io_site)
| ThrownErr (e : FxError)
| SyntaxError
| TypeError.

Inductive TelemetryEvent : Type :=
| ProjectConsolidateNotificationStart
| ProjectConsolidateNotification
| ProjectConsolidateError
| ProjectConsolidateUpgradeStart
| ProjectConsolidateAddLocalEnvStart
| ProjectConsolidateAddLocalEnv
| ProjectConsolidateAddSPFXManifestStart
| ProjectConsolidateAddSPFXManifest
| ProjectConsolidateCopyAzureManifestStart
| ProjectConsolidateCopyAzureManifest
| ProjectConsolidateBackupConfigStart
| ProjectConsolidateBackupConfig
| ProjectConsolidateUpgrade
| ProjectConsolidateGuideStart
| ProjectConsolidateCheckManifestError.

Inductive ProjectMigratorStatus : Type := OK | Cancel.

(** The calls received by the collaborators, in the order they are made. *)
Inductive event : Type :=
| SendTelemetryEvent (name : TelemetryEvent) (status : option ProjectMigratorStatus)
| SendTelemetryErrorEvent (name : TelemetryEvent) (error : exn)
| ShowMessage (level messageKey : string) (modal : bool) (items : list string)
| OpenUrl (url : string)
| LogWarning (message : string)
| LogInfo (messageKey : string)
| AddPathToGitignore (projectPath path : string)
| Next.

(** The runtime and the parts of the repository that the migrator calls. *)
Record Env : Type := mkEnv {
  (** [isConfigUnifyEnabled()], the feature flag *)
  isConfigUnifyEnabled : bool;
  (** which awaited file operations are rejected *)
  faults : io_site -> bool;
  (** [loadProjectSettings(inputs, true)] *)
  loadProjectSettings : FS -> Inputs -> FxError + ProjectSettings;
  (** [loadProjectSettings(undefined, true)]: what the loader answers when
      [ctx.arguments] holds no inputs *)
  loadProjectSettingsUndefined : FS -> FxError + ProjectSettings;
  (** [getLocalAppName] *)
  getLocalAppName : string -> string;
  (** [environmentManager.newEnvConfigData], serialised *)
  newEnvConfigData : string -> string;
  (** [JSON.parse] at the type [TeamsAppManifest]; [None] is a [SyntaxError] *)
  JSON_parse_manifest : string -> option TeamsAppManifest;
  (** [JSON.stringify(manifest, null, 4)] *)
  JSON_stringify : TeamsAppManifest -> string;
  (** [JSON.parse] at the type [any] *)
  JSON_parse : string -> option json;
  (** [s.replace(manifestRegex, "")] *)
  replace_manifestRegex : string -> string;
  (** [ManifestTemplate.REMOTE_CONTENT_URL] *)
  REMOTE_CONTENT_URL : string;
  (** [ManifestTemplate.REMOTE_CONFIGURATION_URL] *)
  REMOTE_CONFIGURATION_URL : string;
  (** [ConfigFolderName], [InputConfigsFolderName] and [StatesFolderName] *)
  ConfigFolderName : string;
  InputConfigsFolderName : string;
  StatesFolderName : string;
  (** [getResourceFolder()] *)
  getResourceFolder : string;
  (** [next()]: the error with which the promise of the call of that rank
      is rejected, counting from 0; [None] when it is fulfilled *)
  nextRejects : nat -> option exn
}.

(** The world and the variables a run of the migrator mutates:
    [userCancelFlag] is the module-level latch, [result] is [ctx.result]
    ([Some e] for [err(e)]), [fileList], [removeMap] and [moveFiles] are the
    locals of [consolidateLocalRemote]. A [Map] keeps its keys in insertion
    order.

    [events] holds, in order, the calls made by the function that runs and
    by the functions it awaits, together with the calls that a function
    called without [await] makes up to its first [await]: those are made
    before the caller goes on. What such a function calls from its first
    [await] on is kept in a log of its own in [background], in the order of
    these calls: they come after the calls the function made before, and
    where they fall among the later calls of [events] depends on when the
    awaited operations complete. *)
Record State : Type := mkState {
  fs : FS;
  events : list event;
  background : list (list event);
  userCancelFlag : bool;
  result : option FxError;
  fileList : list string;
  removeMap : list (string * string);
  moveFiles : string
}.

Definition set_fs (f : FS) (st : State) : State :=
  mkState f (events st) (background st) (userCancelFlag st) (result st)
    (fileList st) (removeMap st) (moveFiles st).

Definition add_event (e : event) (st : State) : State :=
  mkState (fs st) (events st ++ [e]) (background st) (userCancelFlag st)
    (result st) (fileList st) (removeMap st) (moveFiles st).

Definition set_userCancelFlag (b : bool) (st : State) : State :=
  mkState (fs st) (events st) (background st) b (result st) (fileList st)
    (removeMap st) (moveFiles st).

Definition set_result (r : option FxError) (st : State) : State :=
  mkState (fs st) (events st) (background st) (userCancelFlag st) r
    (fileList st) (removeMap st) (moveFiles st).

Definition set_fileList (l : list string) (st : State) : State :=
  mkState (fs st) (events st) (background st) (userCancelFlag st) (result st)
    l (removeMap st) (moveFiles st).

Definition set_removeMap (m : list (string * string)) (st : State) : State :=
  mkState (fs st) (events st) (background st) (userCancelFlag st) (result st)
    (fileList st) m (moveFiles st).

Definition set_moveFiles (s : string) (st : State) : State :=
  mkState (fs st) (events st) (background st) (userCancelFlag st) (result st)
    (fileList st) (removeMap st) s.

(** The calls in [l] as a log of [background]; no log for no call. *)
Definition log_of (l : list event) : list (list event) :=
  match l with
  | [] => []
  | _ => [l]
  end.

(** [st'], reached from [st] by a function that nobody awaits, with the
    calls made since [st] moved from [events] to a log of their own. *)
Definition defer (st st' : State) : State :=
  mkState (fs st') (events st)
    (background st' ++ log_of (skipn (length (events st)) (events st')))
    (userCancelFlag st') (result st') (fileList st') (removeMap st')
    (moveFiles st').

(** [Map.prototype.set]. *)
Fixpoint map_set (k v : string) (m : list (string * string))
    : list (string * string) :=
  match m with
  | [] => [(k, v)]
  | (k', v') :: m' =>
      if String.eqb k' k then (k, v) :: m' else (k', v') :: map_set k v m'
  end.

(** *** Computations that mutate the state and may throw *)

Definition M (A : Type) : Type := State -> State * (exn + A).

Definition ret {A : Type} (x : A) : M A := fun st => (st, inr x).

Definition bind {A B : Type} (c : M A) (k : A -> M B) : M B :=
  fun st =>
    match c st with
    | (st', inr x) => k x st'
    | (st', inl e) => (st', inl e)
    end.

Definition raise {A : Type} (e : exn) : M A := fun st => (st, inl e).

(** [try { body } catch (e) { handler(e) }]. *)
Definition tryCatch {A : Type} (body : M A) (handler : exn -> M A) : M A :=
  fun st =>
    match body st with
    | (st', inr x) => (st', inr x)
    | (st', inl e) => handler e st'
    end.

Definition modify (f : State -> State) : M unit := fun st => (f st, inr tt).

Definition read {A : Type} (f : State -> A) : M A := fun st => (st, inr (f st)).

Declare Scope run_scope.
Delimit Scope run_scope with run.
Notation "x <- c ;; k" := (bind c (fun x => k))
  (at level 100, c at next level, right associativity) : run_scope.
Notation "c ;; k" := (bind c (fun _ => k))
  (at level 100, right associativity) : run_scope.
Open Scope run_scope.

Definition when (b : bool) (c : M unit) : M unit := if b then c else ret tt.

Fixpoint forM {A : Type} (l : list A) (body : A -> M unit) : M unit :=
  match l with
  | [] => ret tt
  | x :: l' => body x ;; forM l' body
  end.

Definition sendTelemetryEvent (name : TelemetryEvent)
    (status : option ProjectMigratorStatus) : M unit :=
  modify (add_event (SendTelemetryEvent name status)).

Definition sendTelemetryErrorEvent (name : TelemetryEvent) (e : exn) : M unit :=
  modify (add_event (SendTelemetryErrorEvent name e)).

(** An awaited file operation: rejected when the environment says so or
    when the operation cannot be done on the file system as it is. *)
Definition fs_op (env : Env) (site : io_site) (effect : FS -> option FS)
    : M unit :=
  fun st =>
    if faults env site then (st, inl (IOFailure site))
    else
      match effect (fs st) with
      | Some fs' => (set_fs fs' st, inr tt)
      | None => (st, inl (IOFailure site))
      end.

(** [fs.copy(src, dest)]: the source must exist. *)
Definition copy (env : Env) (site : io_site) (src dest : string) : M unit :=
  fs_op env site
    (fun f => if pathExists f src then Some (fs_copy src dest f) else None).

(** [fs.remove(p)]: nothing to remove is no error. *)
Definition remove (env : Env) (site : io_site) (p : string) : M unit :=
  fs_op env site (fun f => Some (fs_remove p f)).

(** [fs.copyFile(src, dest)]: the source must be a file. *)
Definition copyFile (env : Env) (site : io_site) (src dest : string) : M unit :=
  fs_op env site
    (fun f =>
       match f src with
       | Some (File c) => Some (fs_set dest (File c) f)
       | _ => None
       end).

(** [fs.writeFile(p, content)]. *)
Definition writeFile (env : Env) (site : io_site) (p content : string) : M unit :=
  fs_op env site (fun f => Some (fs_set p (File content) f)).

(** [(await fs.readFile(p)).toString()]. *)
Definition readFile (env : Env) (site : io_site) (p : string) : M string :=
  fun st =>
    if faults env site then (st, inl (IOFailure site))
    else
      match fs st p with
      | Some (File c) => (st, inr c)
      | _ => (st, inl (IOFailure site))
      end.

(** The calls of a sequence made one after the other, with their
    results. *)
Fixpoint mapM {A B : Type} (f : A -> M B) (l : list A) : M (list B) :=
  match l with
  | [] => ret []
  | x :: l' => y <- f x ;; ys <- mapM f l' ;; ret (y :: ys)
  end.

(** ** The migrator *)

(** [checkMethod(ctx)]. *)
Definition method_listed (m : option string) : bool :=
  match m with
  | Some s => has methods s
  | None => false
  end.

Definition checkMethod (ctx : CoreHookContext) : M bool :=
  fun st =>
    if truthy (method ctx) && method_listed (method ctx) && userCancelFlag st
    then (st, inr false)
    else (set_userCancelFlag (method_listed (method ctx)) st, inr true).

(** [ctx.arguments[ctx.arguments.length - k]]. *)
Definition arg_from_end (ctx : CoreHookContext) (k : nat) : option Arg :=
  let n := length (arguments ctx) in
  if Nat.ltb n k then None else nth_error (arguments ctx) (n - k).

(** [lastArg === ctx ? ctx.arguments[ctx.arguments.length - 2] : lastArg];
    [None] is [undefined]. *)
Definition lookupInputs (ctx : CoreHookContext) : option Arg :=
  match arg_from_end ctx 1 with
  | Some ArgCtx => arg_from_end ctx 2
  | lastArg => lastArg
  end.

(** An argument seen as [Inputs]: another object has none of its members. *)
Definition asInputs (a : Arg) : Inputs :=
  match a with
  | ArgInputs i => i
  | _ => mkInputs None None
  end.

(** Reading a member of [inputs]: a [TypeError] on [undefined]. *)
Definition member {A : Type} (inputs : option Arg) (f : Inputs -> A) : M A :=
  match inputs with
  | None => raise TypeError
  | Some a => ret (f (asInputs a))
  end.

(** [needConsolidateLocalRemote(ctx)]. *)
Definition needConsolidateLocalRemote (env : Env) (ctx : CoreHookContext)
    : M bool :=
  if negb (isConfigUnifyEnabled env) then ret false
  else
    let inputs := lookupInputs ctx in
    path <- member inputs projectPath ;;
    if negb (truthy path) then ret false
    else
      fxExist <- read (fun st => pathExists (fs st) (path_join [render path; ".fx"])) ;;
      if negb fxExist then ret false
      else
        consolidateManifestExist <-
          read (fun st =>
                  pathExists (fs st)
                    (path_join [render path; "templates"; "appPackage";
                                "manifest.template.json"])) ;;
        if negb consolidateManifestExist then ret true else ret false.

Definition warning (message : string) : M unit :=
  modify (add_event (LogWarning message)).

Definition platform_is (p : Platform) (v : option Platform) : bool :=
  match v, p with
  | Some VSCode, VSCode | Some CLI, CLI | Some VS, VS
  | Some CLI_HELP, CLI_HELP => true
  | _, _ => false
  end.

Definition cancelledMessage : string := "[core] Upgrade cancelled.".

Definition noticeVSCode : string :=
  "[core] Notice upgrade to new configuration files is a must-have to continue to use current version Teams Toolkit. If you are not ready to upgrade and want to continue to use the old version Teams Toolkit, please find Teams Toolkit in Extension and install the version <= 3.7.0".

Definition noticeCLI : string :=
  "[core] Notice upgrade to new configuration files is a must-have to continue to use current version Teams Toolkit CLI. If you want to upgrade, please trigger this command again.".

Definition noticeCLIOldVersion : string :=
  "[core] If you are not ready to upgrade and want to continue to use the old version Teams Toolkit CLI, please install the version <= 3.7.0".

(** [outputCancelMessage(ctx)]. *)
Definition outputCancelMessage (ctx : CoreHookContext) : M unit :=
  warning cancelledMessage ;;
  let inputs := lookupInputs ctx in
  pf <- member inputs platform ;;
  if platform_is VSCode pf then warning noticeVSCode
  else (warning noticeCLI ;; warning noticeCLIOldVersion).

(** *** Functions called without [await]

    An [async] function that is called without [await] somewhere is given
    by two computations: what it does up to its first [await], and what it
    does from there on. A file operation takes effect when it is called. *)

(** The call of such a function without [await]: it runs up to its first
    [await] and the caller goes on; what is left of it is done without
    anybody waiting, its calls are kept in a log of their own, and what it
    throws reaches no handler of the caller. *)
Definition detached (c : M unit * M unit) : M unit :=
  fun st =>
    match fst c st with
    | (st1, inl _) => (st1, inr tt)
    | (st1, inr _) => (defer st1 (fst (snd c st1)), inr tt)
    end.

Definition addPathToGitignore (env : Env) (projectPath path : string) : M unit :=
  fun st =>
    if faults env (AtAddPathToGitignore path)
    then (st, inl (IOFailure (AtAddPathToGitignore path)))
    else (add_event (AddPathToGitignore projectPath path) st, inr tt).

(** [updateGitIgnore(projectPath, log, backupFolder)]: its first [await] is
    that of the first entry. *)
Definition updateGitIgnore (env : Env) (projectPath : string)
    (backupFolder : option string) : M unit * M unit :=
  (addPathToGitignore env projectPath
     (projectPath +:+ "/." +:+ ConfigFolderName env +:+ "/"
        +:+ InputConfigsFolderName env +:+ "/config.local.json"),
   addPathToGitignore env projectPath
     (projectPath +:+ "/." +:+ ConfigFolderName env +:+ "/"
        +:+ StatesFolderName env +:+ "/state.local.json") ;;
   when (truthy backupFolder)
     (addPathToGitignore env projectPath
        (projectPath +:+ "/" +:+ render backupFolder))).

(** [moveFiles.substring(0, moveFiles.length - 1)]. *)
Definition drop_last_char (s : string) : string :=
  substring 0 (String.length s - 1) s.

(** [postConsolidate(projectPath, ctx, inputs, backupFolder, moveFiles)]:
    its first [await] is that of [updateGitIgnore], which runs up to its
    own. *)
Definition postConsolidate (env : Env) (projectPath : string) (inputs : Inputs)
    (backupFolder : option string) (moveFiles : string) : M unit * M unit :=
  let update := updateGitIgnore env projectPath backupFolder in
  (sendTelemetryEvent ProjectConsolidateGuideStart None ;;
   fst update,
   snd update ;;
   when (Nat.ltb 0 (String.length moveFiles))
     (warning ("[core] Upgrade success! Old " +:+ drop_last_char moveFiles
               +:+ " have been backed up to the .backup folder and you can delete it.")) ;;
   when (negb (platform_is VSCode (platform inputs)))
     (modify (add_event (LogInfo "core.consolidateLocalRemote.SuccessMessage")))).

(** [generateUpgradeReport(backupFolder)]: its only [await], that of the
    copy, is its last statement. *)
Definition generateUpgradeReport (env : Env) (backupFolder : string) : M unit :=
  tryCatch
    (let target := path_join [backupFolder; upgradeReportName] in
     let source := path_join [getResourceFolder env; upgradeReportName] in
     copyFile env AtReport source target)
    (fun _ => ret tt).

(** The call [showMessage("warn", message, false, "OK")] made when the two
    manifests differ. *)
Definition differentManifestWarning : event :=
  ShowMessage "warn" "core.consolidateLocalRemote.DifferentManifest" false
    ["OK"].

(** [compareLocalAndRemoteManifest(localManifestFile, remoteManifestFile)]. *)
Definition compareLocalAndRemoteManifest (env : Env)
    (localManifestFile remoteManifestFile : string) : M unit :=
  tryCatch
    (localManifestString <-
       readFile env (AtCompareRead LocalManifest) localManifestFile ;;
     let localManifestString := replace_manifestRegex env localManifestString in
     remoteManifestString <-
       readFile env (AtCompareRead RemoteManifest) remoteManifestFile ;;
     let remoteManifestString := replace_manifestRegex env remoteManifestString in
     localManifestJson <-
       match JSON_parse env localManifestString with
       | Some j => ret j
       | None => raise SyntaxError
       end ;;
     remoteManifestJson <-
       match JSON_parse env remoteManifestString with
       | Some j => ret j
       | None => raise SyntaxError
       end ;;
     same <-
       match diff localManifestJson remoteManifestJson with
       | Some r => ret r
       | None => raise TypeError
       end ;;
     when (negb same) (modify (add_event differentManifestWarning)))
    (fun error =>
       sendTelemetryErrorEvent ProjectConsolidateCheckManifestError error).

(** Modelled from the spec: [environmentManager.writeEnvConfig] and
    [getLocalEnvName] are not among the sources. The configuration record is
    persisted as the new environment config file of the local environment,
    the local-only config file [config.local.json] of the configs folder
    that [updateGitIgnore] names; the result is the path written, or the
    error. *)
Definition writeEnvConfig (env : Env) (projectPath envConfig : string)
    : M (FxError + string) :=
  fun st =>
    let target := path_join [projectPath; ".fx"; "configs"; "config.local.json"] in
    if faults env AtWriteEnvConfig then (st, inr (inl WriteFileError))
    else (set_fs (fs_set target (File envConfig) (fs st)) st, inr (inr target)).

(** Modelled from the spec: [getManifestTemplatePath] is not among the
    sources. With unified configuration it is the path of the unified
    manifest template, the one [needConsolidateLocalRemote] looks for. *)
Definition getManifestTemplatePath (projectPath : string) : string :=
  path_join [projectPath; "templates"; "appPackage"; "manifest.template.json"].

Definition push (item : string) : M unit :=
  modify (fun st => set_fileList (fileList st ++ [item]) st).

(** The body of each [if (await fs.pathExists(file))] of the backup part:
    copy to the backup folder, remove, extend [moveFiles], record. *)
Definition moveToBackup (env : Env) (which : legacy_file)
    (file backup name : string) : M unit :=
  copy env (AtBackupCopy which) file backup ;;
  remove env (AtBackupRemove which) file ;;
  modify (fun st => set_moveFiles (moveFiles st +:+ name +:+ ",") st) ;;
  modify (fun st => set_removeMap (map_set backup file (removeMap st)) st).

(** The statements of the [try] block of [consolidateLocalRemote]. *)
Definition addLocalEnvironment (env : Env) (projectPath : string)
    (projectSettings : ProjectSettings) : M unit :=
  let appName := getLocalAppName env (appName projectSettings) in
  sendTelemetryEvent ProjectConsolidateAddLocalEnvStart None ;;
  let newEnvConfig := newEnvConfigData env appName in
  writeEnvResult <- writeEnvConfig env projectPath newEnvConfig ;;
  match writeEnvResult with
  | inl error => raise (ThrownErr error)
  | inr _ =>
      push (path_join [projectPath; ".fx"; "configs"; "env.local.json"]) ;;
      sendTelemetryEvent ProjectConsolidateAddLocalEnv None
  end.

Definition remoteManifestFile (projectPath : string) : string :=
  path_join [projectPath; "templates"; "appPackage";
             "manifest.remote.template.json"].

Definition localManifestFile (projectPath : string) : string :=
  path_join [projectPath; "templates"; "appPackage";
             "manifest.local.template.json"].

Definition localSettingsFile (projectPath : string) : string :=
  path_join [projectPath; ".fx"; "configs"; "localSettings.json"].

Definition addConsolidateManifest (env : Env) (projectPath : string)
    (projectSettings : ProjectSettings) : M unit :=
  remoteManifestExist <-
    read (fun st => pathExists (fs st) (remoteManifestFile projectPath)) ;;
  when remoteManifestExist
    (if isSPFxProject projectSettings then
       sendTelemetryEvent ProjectConsolidateAddSPFXManifestStart None ;;
       let manifestTemplatePath := getManifestTemplatePath projectPath in
       manifestString <-
         readFile env AtReadRemoteManifest (remoteManifestFile projectPath) ;;
       manifest <-
         match JSON_parse_manifest env manifestString with
         | Some m => ret m
         | None => raise SyntaxError
         end ;;
       let manifest :=
         rewriteSPFxManifest (REMOTE_CONTENT_URL env)
           (REMOTE_CONFIGURATION_URL env) manifest in
       writeFile env AtWriteManifest manifestTemplatePath
         (JSON_stringify env manifest) ;;
       sendTelemetryEvent ProjectConsolidateAddSPFXManifest None
     else
       sendTelemetryEvent ProjectConsolidateCopyAzureManifestStart None ;;
       let manifestTemplatePath := getManifestTemplatePath projectPath in
       copyFile env AtCopyManifest (remoteManifestFile projectPath)
         manifestTemplatePath ;;
       sendTelemetryEvent ProjectConsolidateCopyAzureManifest None) ;;
  push (path_join [projectPath; "templates"; "appPackage";
                   "template.manifest.json"]).

Definition backupLocalSettings (env : Env) (projectPath : string) : M unit :=
  let backupPath := path_join [projectPath; backupFolder] in
  sendTelemetryEvent ProjectConsolidateBackupConfigStart None ;;
  modify (set_moveFiles "") ;;
  found <- read (fun st => pathExists (fs st) (localSettingsFile projectPath)) ;;
  when found
    (moveToBackup env LocalSettings (localSettingsFile projectPath)
       (path_join [backupPath; ".fx"; "configs"; "localSettings.json"])
       "localSettings.json").

Definition compareManifests (env : Env) (projectPath : string) : M unit :=
  bothExist <-
    read (fun st =>
            pathExists (fs st) (localManifestFile projectPath)
            && pathExists (fs st) (remoteManifestFile projectPath)) ;;
  when bothExist
    (compareLocalAndRemoteManifest env (localManifestFile projectPath)
       (remoteManifestFile projectPath)).

Definition backupLocalManifest (env : Env) (projectPath : string) : M unit :=
  let backupPath := path_join [projectPath; backupFolder] in
  found <- read (fun st => pathExists (fs st) (localManifestFile projectPath)) ;;
  when found
    (moveToBackup env LocalManifest (localManifestFile projectPath)
       (path_join [backupPath; "templates"; "appPackage";
                   "manifest.local.template.json"])
       "manifest.local.template.json").

Definition backupRemoteManifest (env : Env) (projectPath : string) : M unit :=
  let backupPath := path_join [projectPath; backupFolder] in
  found <- read (fun st => pathExists (fs st) (remoteManifestFile projectPath)) ;;
  when found
    (moveToBackup env RemoteManifest (remoteManifestFile projectPath)
       (path_join [backupPath; "templates"; "appPackage";
                   "manifest.remote.template.json"])
       "manifest.remote.template.json").

Definition transform (env : Env) (projectPath : string) (inputs : Inputs)
    (projectSettings : ProjectSettings) : M unit :=
  addLocalEnvironment env projectPath projectSettings ;;
  addConsolidateManifest env projectPath projectSettings ;;
  backupLocalSettings env projectPath ;;
  compareManifests env projectPath ;;
  backupLocalManifest env projectPath ;;
  backupRemoteManifest env projectPath ;;
  sendTelemetryEvent ProjectConsolidateBackupConfig None ;;
  sendTelemetryEvent ProjectConsolidateUpgrade None ;;
  moved <- read moveFiles ;;
  detached (postConsolidate env projectPath inputs (Some backupFolder) moved).

(** The [catch (e)] block of [consolidateLocalRemote]. *)
Definition rollback (env : Env) (projectPath : string) (e : exn) : M unit :=
  restores <- read removeMap ;;
  forM restores
    (fun item => copy env (AtRestore (fst item)) (fst item) (snd item)) ;;
  created <- read fileList ;;
  forM created (fun item => remove env (AtRollbackRemove item) item) ;;
  remove env AtRollbackRemoveBackup (path_join [projectPath; backupFolder]) ;;
  raise e.

(** [consolidateLocalRemote(ctx)]. The loader is given what is found in
    [ctx.arguments], inputs or [undefined]. With settings loaded and no
    inputs, or inputs without a project path, the first statement of the
    [try] block that needs the project path throws a [TypeError], and so
    does the [path.join] of the [catch] block. *)
Definition consolidateLocalRemote (env : Env) (ctx : CoreHookContext) : M bool :=
  sendTelemetryEvent ProjectConsolidateUpgradeStart None ;;
  let inputs := lookupInputs ctx in
  modify (set_fileList []) ;;
  modify (set_removeMap []) ;;
  files <- read fs ;;
  let loadRes :=
    match inputs with
    | Some a => loadProjectSettings env files (asInputs a)
    | None => loadProjectSettingsUndefined env files
    end in
  match loadRes with
  | inl error => modify (set_result (Some error)) ;; ret false
  | inr projectSettings =>
      match inputs with
      | Some a =>
          let inputs := asInputs a in
          match projectPath inputs with
          | None =>
              sendTelemetryEvent ProjectConsolidateAddLocalEnvStart None ;;
              raise TypeError
          | Some path =>
              tryCatch (transform env path inputs projectSettings)
                (rollback env path) ;;
              detached
                (generateUpgradeReport env (path_join [path; backupFolder]),
                 ret tt) ;;
              ret true
          end
      | None =>
          sendTelemetryEvent ProjectConsolidateAddLocalEnvStart None ;;
          raise TypeError
      end
  end.

(** The number of calls of [next] among the calls received. *)
Definition next_calls (l : list event) : nat :=
  length (List.filter (fun e => match e with Next => true | _ => false end) l).

(** [next()]: the call is made, and the promise it returns is fulfilled or
    rejected as the environment says for the call of that rank. *)
Definition next (env : Env) : M unit :=
  fun st =>
    (add_event Next st,
     match nextRejects env (next_calls (events st)) with
     | Some e => inl e
     | None => inr tt
     end).

(** The call [showMessage("warn", message, showModal, upgradeButton,
    LearnMore)] of the consent prompt. *)
Definition consentPrompt (showModal : bool) : event :=
  ShowMessage "warn" "core.consolidateLocalRemote.Message" showModal
    [upgradeButton; LearnMore].

(** The user's answers to the consent prompt, in order: the value of
    [res?.isOk() ? res.value : undefined] at each presentation. The loop of
    [upgrade] consumes them; [None] as a result means that the prompt is
    still waiting for an answer. *)
Fixpoint consent (showModal : bool) (answers : list (option string))
    (st : State) : option (State * option string) :=
  match answers with
  | [] => None
  | answer :: answers' =>
      let st1 := add_event (consentPrompt showModal) st in
      if is_some_string LearnMore answer
      then consent showModal answers' (add_event (OpenUrl LearnMoreLink) st1)
      else Some (st1, answer)
  end.

(** [upgrade(ctx, next, showModal)]. *)
Definition upgrade (env : Env) (ctx : CoreHookContext) (showModal : bool)
    (answers : list (option string)) (st : State)
    : option (State * (exn + unit)) :=
  match consent showModal answers st with
  | None => None
  | Some (st1, answer) =>
      Some
        ((if negb (truthy answer) || negb (is_some_string upgradeButton answer)
          then
            sendTelemetryEvent ProjectConsolidateNotification (Some Cancel) ;;
            modify (set_result (Some ConsolidateCanceledError)) ;;
            outputCancelMessage ctx
          else
            sendTelemetryEvent ProjectConsolidateNotification (Some OK) ;;
            tryCatch
              (consolidateLocalRemote env ctx ;;
               next env)
              (fun error =>
                 sendTelemetryErrorEvent ProjectConsolidateError error ;;
                 raise error)) st1)
  end.

(** What is left of [upgrade(ctx, next, showModal)] once its first call of
    [showMessage] is made: the function from its first [await] on, with the
    answers to that call and to the later ones. *)
Definition upgradeResumed (env : Env) (ctx : CoreHookContext)
    (showModal : bool) (answers : list (option string)) (st : State)
    : option (State * (exn + unit)) :=
  match answers with
  | [] => None
  | answer :: answers' =>
      if is_some_string LearnMore answer
      then upgrade env ctx showModal answers' (add_event (OpenUrl LearnMoreLink) st)
      else
        Some
          ((if negb (truthy answer) || negb (is_some_string upgradeButton answer)
            then
              sendTelemetryEvent ProjectConsolidateNotification (Some Cancel) ;;
              modify (set_result (Some ConsolidateCanceledError)) ;;
              outputCancelMessage ctx
            else
              sendTelemetryEvent ProjectConsolidateNotification (Some OK) ;;
              tryCatch
                (consolidateLocalRemote env ctx ;;
                 next env)
                (fun error =>
                   sendTelemetryErrorEvent ProjectConsolidateError error ;;
                   raise error)) st)
  end.

(** [ProjectConsolidateMW(ctx, next)]. [needMigrateToArmAndMultiEnv] is
    what the function of that name answers for [ctx]. In the first branch
    [next] is called without [await]: what its promise is rejected with
    reaches no handler. Where [upgrade] is called without [await], it runs
    up to its first [await], [next] is called and awaited, and what is left
    of [upgrade] follows when the user answers: nobody waits for it, its
    calls are kept in a log of their own and what it throws reaches no
    handler. [None] means that the middleware is still waiting for an
    answer to the prompt, which it does only where it awaits [upgrade];
    where it does not, answers that end before the prompt is settled leave
    the state as it is when [next] has been called. *)
Definition ProjectConsolidateMW (env : Env) (needMigrateToArmAndMultiEnv : bool)
    (ctx : CoreHookContext) (answers : list (option string)) (st : State)
    : option (State * (exn + unit)) :=
  if needMigrateToArmAndMultiEnv then Some (fst (next env st), inr tt)
  else
    match needConsolidateLocalRemote env ctx st with
    | (st1, inl e) => Some (st1, inl e)
    | (st1, inr false) => Some (next env st1)
    | (st1, inr true) =>
        match checkMethod ctx st1 with
        | (st2, inl e) => Some (st2, inl e)
        | (st2, inr false) => Some (next env st2)
        | (st2, inr true) =>
            let st3 :=
              add_event
                (SendTelemetryEvent ProjectConsolidateNotificationStart None)
                st2 in
            let showModal :=
              negb (truthy (method ctx) && method_listed (method ctx)) in
            if showModal then upgrade env ctx true answers st3
            else
              let st4 := add_event (consentPrompt false) st3 in
              let (st5, outcome) := next env st4 in
              match upgradeResumed env ctx false answers st5 with
              | Some (st6, _) => Some (defer st5 st6, outcome)
              | None => Some (st5, outcome)
              end
        end
    end.

(** ** Paths relative to the project *)

(** The path [rel] beneath the project folder [p]: what [path.join] gives
    for [p] followed by the segments of [rel]. *)
Definition nf (p rel : string) : string :=
  match p with
  | EmptyString => rel
  | _ => p +:+ "/" +:+ rel
  end.

(** Where each legacy file is, and where its backup goes, relative to the
    project folder. *)
Definition original_rel (f : legacy_file) : string :=
  match f with
  | LocalSettings => ".fx/configs/localSettings.json"
  | LocalManifest => "templates/appPackage/manifest.local.template.json"
  | RemoteManifest => "templates/appPackage/manifest.remote.template.json"
  end.

Definition backup_rel (f : legacy_file) : string :=
  match f with
  | LocalSettings => ".backup/.fx/configs/localSettings.json"
  | LocalManifest => ".backup/templates/appPackage/manifest.local.template.json"
  | RemoteManifest => ".backup/templates/appPackage/manifest.remote.template.json"
  end.

(** ** Assertions about a computation *)

(** From a state that satisfies [P], the computation [c] ends in a state
    that satisfies [Q] of its value when it returns, and [E] when it
    throws. *)
Definition hoare {A : Type} (P : State -> Prop) (c : M A)
    (Q : A -> State -> Prop) (E : State -> Prop) : Prop :=
  forall st, P st ->
    match c st with
    | (st', inr x) => Q x st'
    | (st', inl _) => E st'
    end.

(** [I] holds wherever [c] stops. *)
Definition preserves {A : Type} (I : State -> Prop) (c : M A) : Prop :=
  hoare I c (fun _ => I) I.

(** An assertion that only looks at the file system and at the two records
    of the run. *)
Definition stable (I : State -> Prop) : Prop :=
  forall st st',
    fs st' = fs st -> removeMap st' = removeMap st ->
    fileList st' = fileList st -> I st -> I st'.

(** The number of calls of [openUrl] among the calls received. *)
Definition openUrl_calls (l : list event) : nat :=
  length (List.filter (fun e => match e with OpenUrl _ => true | _ => false end) l).

Arguments openUrl_calls : simpl never.

(** [st'] is [st] after the collaborators received the calls [calls]:
    nothing else has changed. *)
Definition only_calls (st st' : State) (calls : list event) : Prop :=
  fs st' = fs st
  /\ events st' = events st ++ calls
  /\ background st' = background st
  /\ userCancelFlag st' = userCancelFlag st
  /\ result st' = result st
  /\ fileList st' = fileList st
  /\ removeMap st' = removeMap st
  /\ moveFiles st' = moveFiles st.

(** One round of the consent loop answered by "Learn More". *)
Definition learnMoreRound (showModal : bool) (st : State) : State :=
  add_event (OpenUrl LearnMoreLink) (add_event (consentPrompt showModal) st).

(** From a state that satisfies [P], what the computation [c] throws, when
    it throws, satisfies [X] together with the state it is thrown in. *)
Definition throws {A : Type} (P : State -> Prop) (c : M A)
    (X : exn -> State -> Prop) : Prop :=
  forall st, P st ->
    match c st with
    | (st', inl e) => X e st'
    | (_, inr _) => True
    end.

(** A computation that adds no log to [background]. *)
Definition quiet {A : Type} (c : M A) : Prop :=
  forall st, background (fst (c st)) = background st.


(** ** Equivalence of two trees *)

(** The loop of [diff] over the entries of [a], with [recur] for the
    recursive call. *)
Fixpoint loop_entries (b : json) (recur : json -> json -> option bool)
    (l : list (string * json)) : option bool :=
  match l with
  | [] => Some true
  | (key, aValue) :: l' =>
      visit b key aValue (recur aValue) (loop_entries b recur l')
  end.

(** The equivalence as the specification words it: the same key set at
    every level and, for every key outside the ignored set, two nested
    objects that are equivalent or two scalars that are strictly equal. *)
Inductive SpecEquivalent : json -> json -> Prop :=
| SpecEquivalent_intro (a b : json) (ea eb : list (string * json)) :
    entries a = Some ea ->
    entries b = Some eb ->
    (forall key, In key (map fst ea) <-> In key (map fst eb)) ->
    (forall key aValue bValue,
       has ignoreKeys key = false ->
       In (key, aValue) ea -> In (key, bValue) eb ->
       (isObject (Some aValue) = true /\ isObject (Some bValue) = true
        /\ SpecEquivalent aValue bValue)
       \/ (isObject (Some aValue) = false /\ isObject (Some bValue) = false
           /\ strict_eq (Some aValue) (Some bValue) = true)) ->
    SpecEquivalent a b.

(** The equivalence that [diff] decides: as many keys in [b] as in [a] and,
    for every entry of [a] whose key is outside the ignored set, what [b]
    has under that key is, with the value of [a], two objects that are
    equivalent in turn, or not two objects and strictly equal. *)
Inductive Equivalent : json -> json -> Prop :=
| Equivalent_intro (a b : json) (ea : list (string * json))
    (bKeys : list string) :
    entries a = Some ea ->
    keys b = Some bKeys ->
    length ea = length bKeys ->
    (forall key aValue,
       In (key, aValue) ea ->
       has ignoreKeys key = false ->
       (isObject (Some aValue) = true
        /\ exists bValue,
             get b key = Some bValue /\ isObject (Some bValue) = true
             /\ Equivalent aValue bValue)
       \/ (isObject (Some aValue) && isObject (get b key) = false
           /\ strict_eq (Some aValue) (get b key) = true)) ->
    Equivalent a b.

(** No two elements of the list are strictly equal. *)
Fixpoint strictly_distinct (l : list json) : Prop :=
  match l with
  | [] => True
  | x :: l' =>
      (forall y, In y l' -> strict_eq (Some x) (Some y) = false)
      /\ strictly_distinct l'
  end.

(** ** Content URLs that embed a component identifier *)


(** A string of class characters. *)
Fixpoint id_string (s : string) : bool :=
  match s with
  | EmptyString => true
  | String c s' => is_id_char c && id_string s'
  end.

(** A place of [content] where the pattern matches: after [pre], the label
    [componentId=], the class characters [id] and [%26]. *)
Definition occurs_at (content pre id post : string) : Prop :=
  id_string id = true
  /\ content = pre +:+ "componentId=" +:+ id +:+ "%26" +:+ post.

(** ** Trees that [JSON.parse] returns *)

(** No two names of the list are the same. *)
Fixpoint distinct (l : list string) : bool :=
  match l with
  | [] => true
  | k :: l' => negb (has l' k) && distinct l'
  end.

(** A tree as [JSON.parse] builds it: no number is [NaN], and no object has
    two properties of the same name. *)
Fixpoint well_formed (j : json) : bool :=
  match j with
  | JNull | JBool _ | JStr _ => true
  | JNum x => PrimFloat.eqb x x
  | JArr elems => forallb well_formed elems
  | JObj fields =>
      distinct (map fst fields)
      && forallb (fun kv : string * json => let (_, v) := kv in well_formed v)
           fields
  end.

(** ** What a run keeps and what it leaves behind *)

(** The entries of [removeMap] can restore what they stand for: each is
    the backup path and the original path of one legacy file, the backup
    holds what the original held in [files0], the file system at the start
    of the run; and no legacy file has been altered: it is as in [files0],
    or removed and recorded. *)
Definition restorable (p : string) (files0 : FS) (st : State) : Prop :=
  (forall backup original,
     In (backup, original) (removeMap st) ->
     exists f,
       backup = nf p (backup_rel f) /\ original = nf p (original_rel f)
       /\ fs st backup = files0 original /\ files0 original <> None)
  /\ (forall f,
        fs st (nf p (original_rel f)) = files0 (nf p (original_rel f))
        \/ (fs st (nf p (original_rel f)) = None
            /\ In (nf p (backup_rel f), nf p (original_rel f))
                 (removeMap st))).

(** The environment config file written by the run is on disk with the
    content [content], and the two records of the run hold nothing but the
    paths that [consolidateLocalRemote] puts there. *)
Definition env_config_kept (p content : string) (st : State) : Prop :=
  fs st (nf p ".fx/configs/config.local.json") = Some (File content)
  /\ (forall item,
        In item (fileList st) ->
        item = nf p ".fx/configs/env.local.json"
        \/ item = nf p "templates/appPackage/template.manifest.json")
  /\ (forall backup original,
        In (backup, original) (removeMap st) ->
        exists f,
          backup = nf p (backup_rel f) /\ original = nf p (original_rel f)).

(** The three legacy files hold what they held in [files0]. *)
Definition legacy_files_restored (p : string) (files0 : FS) (st : State)
    : Prop :=
  forall f,
    fs st (nf p (original_rel f)) = files0 (nf p (original_rel f)).

(** The originals of the entries [l] hold what they held in [files0]. *)
Definition restored_of (files0 : FS) (l : list (string * string))
    (st : State) : Prop :=
  forall backup original,
    In (backup, original) l -> fs st original = files0 original.

(** What each legacy file held in [files0] is still on disk: at its
    original path, or at its path in the backup folder. *)
Definition legacy_content_kept (p : string) (files0 : FS) (st : State)
    : Prop :=
  forall f,
    fs st (nf p (original_rel f)) = files0 (nf p (original_rel f))
    \/ fs st (nf p (backup_rel f)) = files0 (nf p (original_rel f)).

(** The legacy file [f] is no longer at its original path. *)
Definition moved_away (p : string) (f : legacy_file) (st : State) : Prop :=
  fs st (nf p (original_rel f)) = None.

(** The file operations of the [catch] block of [consolidateLocalRemote]. *)
Definition rollback_site (site : io_site) : bool :=
  match site with
  | AtRestore _ | AtRollbackRemove _ | AtRollbackRemoveBackup => true
  | _ => false
  end.

(** Nothing is left of the backup folder of the project [p]. *)
Definition backup_folder_gone (p : string) (st : State) : Prop :=
  forall q, under (path_join [p; backupFolder]) q = true -> fs st q = None.

(** What is found at the path [rel] beneath the project folder satisfies
    [P]. *)
Definition at_path (p rel : string) (P : option node -> Prop) (st : State)
    : Prop :=
  P (fs st (nf p rel)).

(** The file operations of the [try] block of [consolidateLocalRemote]
    whose rejection is not caught before the [catch] block. *)
Definition try_site (site : io_site) : bool :=
  match site with
  | AtWriteEnvConfig | AtReadRemoteManifest | AtWriteManifest | AtCopyManifest
  | AtBackupCopy _ | AtBackupRemove _ => true
  | _ => false
  end.

(** What is found at the path of the remote manifest can be made into the
    unified manifest: nothing, or a file, which parses when the project is
    an SPFx project. *)
Definition remote_manifest_usable (env : Env) (settings : ProjectSettings)
    (found : option node) : Prop :=
  match found with
  | None => True
  | Some (File text) =>
      isSPFxProject settings = true -> JSON_parse_manifest env text <> None
  | Some Dir => False
  end.

(** What the unified manifest is once [consolidateLocalRemote] has added
    it, given what was found at the path of the remote manifest and at its
    own path before: the remote manifest copied as it is, or parsed,
    rewritten and serialised for an SPFx project; what was there before
    when there is no remote manifest. A folder in place of the remote
    manifest cannot be read. *)
Definition unified_manifest (env : Env) (settings : ProjectSettings)
    (remote before found : option node) : Prop :=
  match remote with
  | Some (File text) =>
      if isSPFxProject settings then
        exists manifest,
          JSON_parse_manifest env text = Some manifest
          /\ found
             = Some (File (JSON_stringify env
                             (rewriteSPFxManifest (REMOTE_CONTENT_URL env)
                                (REMOTE_CONFIGURATION_URL env) manifest)))
      else found = Some (File text)
  | Some Dir => False
  | None => found = before
  end.

(** The name under which each legacy file is listed in [moveFiles]. *)
Definition legacy_name (f : legacy_file) : string :=
  match f with
  | LocalSettings => "localSettings.json"
  | LocalManifest => "manifest.local.template.json"
  | RemoteManifest => "manifest.remote.template.json"
  end.

(** The legacy files found in [files] beneath the project folder, in the
    order in which the run moves them. *)
Definition legacy_found (p : string) (files : FS) : list legacy_file :=
  List.filter (fun f => pathExists files (nf p (original_rel f)))
    [LocalSettings; LocalManifest; RemoteManifest].

(** The calls that [postConsolidate] makes up to its first [await], when
    the ignore file takes its first entry. *)
Definition first_closing_calls (env : Env) (p : string) : list event :=
  [SendTelemetryEvent ProjectConsolidateGuideStart None;
   AddPathToGitignore p
     (p +:+ "/." +:+ ConfigFolderName env +:+ "/"
        +:+ InputConfigsFolderName env +:+ "/config.local.json")].

(** The calls that [postConsolidate] makes from there on, when the ignore
    file takes its two other entries, for the legacy files [moved]. *)
Definition later_closing_calls (env : Env) (p : string) (inputs : Inputs)
    (moved : list legacy_file) : list event :=
  [AddPathToGitignore p
     (p +:+ "/." +:+ ConfigFolderName env +:+ "/"
        +:+ StatesFolderName env +:+ "/state.local.json");
   AddPathToGitignore p (p +:+ "/" +:+ backupFolder)]
  ++ match moved with
     | [] => []
     | _ =>
         [LogWarning
            ("[core] Upgrade success! Old "
               +:+ String.concat "," (map legacy_name moved)
               +:+ " have been backed up to the .backup folder and you can delete it.")]
     end
  ++ (if platform_is VSCode (platform inputs) then []
      else [LogInfo "core.consolidateLocalRemote.SuccessMessage"]).

(** ** Sample data *)

(** A file system given by its entries. *)
Fixpoint fs_of (entries : list (string * node)) : FS :=
  fun q =>
    match entries with
    | [] => None
    | (p, n) :: entries' => if String.eqb q p then Some n else fs_of entries' q
    end.

Definition initial_state (files : FS) : State :=
  mkState files [] [] false None [] [] "".

(** A project in the legacy layout, with its three legacy files, and the
    resource folder of the toolkit. *)
Definition sample_project : FS :=
  fs_of
    [("/proj", Dir);
     ("/proj/.fx", Dir);
     ("/proj/.fx/configs", Dir);
     ("/proj/.fx/configs/localSettings.json", File "local settings");
     ("/proj/templates", Dir);
     ("/proj/templates/appPackage", Dir);
     ("/proj/templates/appPackage/manifest.local.template.json",
      File "local manifest");
     ("/proj/templates/appPackage/manifest.remote.template.json",
      File "remote manifest");
     ("/res/unify-config-change-logs.md", File "change logs")].

Definition sample_inputs : Inputs := mkInputs (Some "/proj") (Some CLI).

Definition sample_ctx : CoreHookContext :=
  mkCtx (Some "provisionResources") [ArgInputs sample_inputs; ArgCtx].

(** An environment: which file operations are rejected, whether the project
    is an SPFx project, and what the remote manifest parses to. *)
Definition sample_env (rejected : io_site -> bool) (spfx : bool)
    (parsed : option TeamsAppManifest) : Env :=
  mkEnv true rejected
    (fun _ _ => inr (mkSettings "myapp" spfx))
    (fun _ => inl (SettingsError "NoProjectOpened"))
    (fun name => name +:+ "-local-debug")
    (fun name => "env config of " +:+ name)
    (fun _ => parsed)
    (fun _ => "unified manifest")
    (fun _ => None)
    (fun text => text)
    "https://{teamSiteDomain}/_layouts/15/teamshostedapp.aspx%3Fteams%26personal%26componentId=%s%26forceLocale={locale}&id=%s"
    "https://{teamSiteDomain}{teamSitePath}/_layouts/15/teamshostedapp.aspx%3FopenPropertyPane=true%26teams%26componentId=%s%26forceLocale={locale}&id=%s"
    "fx" "configs" "states" "/res"
    (fun _ => None).

(** The environment [env] with the calls of [next] rejected as [rejects]
    says. *)
Definition with_next (rejects : nat -> option exn) (env : Env) : Env :=
  mkEnv (isConfigUnifyEnabled env) (faults env) (loadProjectSettings env)
    (loadProjectSettingsUndefined env) (getLocalAppName env)
    (newEnvConfigData env) (JSON_parse_manifest env) (JSON_stringify env)
    (JSON_parse env) (replace_manifestRegex env) (REMOTE_CONTENT_URL env)
    (REMOTE_CONFIGURATION_URL env) (ConfigFolderName env)
    (InputConfigsFolderName env) (StatesFolderName env)
    (getResourceFolder env) rejects.

Definition no_fault : io_site -> bool := fun _ => false.

(** The copy of the local manifest into the backup folder is rejected. *)
Definition local_manifest_copy_rejected : io_site -> bool :=
  fun site =>
    match site with
    | AtBackupCopy LocalManifest => true
    | _ => false
    end.

(** Two trees with different key sets, and an array of two objects
    together with its reordering. *)
Definition tree_with_name : json :=
  JObj [("name", JStr "app"); ("id", JStr "1")].

Definition tree_with_version : json :=
  JObj [("id", JStr "1"); ("version", JStr "2")].

Definition two_tabs : json :=
  JArr [JObj [("name", JStr "first")]; JObj [("name", JStr "second")]].

Definition two_tabs_reordered : json :=
  JArr [JObj [("name", JStr "second")]; JObj [("name", JStr "first")]].



(** * Properties *)

(** ** The latch of [checkMethod] *)

Lemma method_listed_In (m : string) : In m methods -> has methods m = true.
Proof.
  unfold methods; simpl.
  intros [<- | [<- | []]]; reflexivity.
Qed.

(** C8. For two consecutive calls of [checkMethod] whose methods are in the
    allow-list, the second call returns [false], whatever the latch was
    before the first; after the first call the latch is set. *)
Theorem checkMethod_second_call_refused :
  forall (m1 m2 : string) (args1 args2 : list Arg) (st : State),
    In m1 methods -> In m2 methods ->
    let st1 := fst (checkMethod (mkCtx (Some m1) args1) st) in
    userCancelFlag st1 = true
    /\ checkMethod (mkCtx (Some m2) args2) st1 = (st1, inr false).
Proof.
  intros m1 m2 args1 args2 st H1 H2.
  assert (T1 : truthy (Some m1) = true)
    by (destruct H1 as [<- | [<- | []]]; reflexivity).
  assert (T2 : truthy (Some m2) = true)
    by (destruct H2 as [<- | [<- | []]]; reflexivity).
  apply method_listed_In in H1, H2.
  unfold checkMethod; cbn [method method_listed fst].
  rewrite T1, T2, H1, H2; cbn [andb].
  destruct (userCancelFlag st) eqn:E; cbn [fst userCancelFlag set_userCancelFlag];
    rewrite ?E; auto.
Qed.

Lemma checkMethod_second_call_refused_witness :
  (In "getProjectConfig" methods /\ In "checkPermission" methods)
  /\ let st1 :=
       fst (checkMethod (mkCtx (Some "getProjectConfig") [])
              (initial_state (fun _ => None))) in
     userCancelFlag st1 = true
     /\ checkMethod (mkCtx (Some "checkPermission") []) st1 = (st1, inr false).
Proof.
  assert (H1 : In "getProjectConfig" methods) by (simpl; auto).
  assert (H2 : In "checkPermission" methods) by (simpl; auto).
  split; [split; assumption |].
  exact (checkMethod_second_call_refused "getProjectConfig" "checkPermission"
           [] [] (initial_state (fun _ => None)) H1 H2).
Defined.

(** ** The detector *)

Lemma truthy_Some (v : option string) :
  truthy v = true <-> exists p, v = Some p /\ p <> "".
Proof.
  destruct v as [p |]; simpl.
  - destruct (String.eqb_spec p ""); simpl; split.
    + discriminate.
    + intros (q & [= <-] & Hq); contradiction.
    + intros _; exists p; auto.
    + reflexivity.
  - split; [discriminate | intros (p & [=] & _)].
Qed.

(** What [needConsolidateLocalRemote] computes once [inputs] is there. *)
Lemma needConsolidateLocalRemote_eval (env : Env) (ctx : CoreHookContext)
    (st : State) (a : Arg) :
  lookupInputs ctx = Some a ->
  needConsolidateLocalRemote env ctx st =
    (st, inr (isConfigUnifyEnabled env
              && truthy (projectPath (asInputs a))
              && pathExists (fs st)
                   (path_join [render (projectPath (asInputs a)); ".fx"])
              && negb (pathExists (fs st)
                         (path_join [render (projectPath (asInputs a));
                                     "templates"; "appPackage";
                                     "manifest.template.json"])))).
Proof.
  intros Ha. unfold needConsolidateLocalRemote.
  destruct (isConfigUnifyEnabled env); [| reflexivity].
  rewrite Ha. unfold member, bind, ret, read. cbn [negb andb].
  destruct (truthy (projectPath (asInputs a))); [| reflexivity].
  cbn [negb andb].
  destruct (pathExists (fs st) (path_join [render _; ".fx"])); [| reflexivity].
  cbn [negb andb].
  destruct (pathExists (fs st) (path_join [render _; "templates"; _; _]));
    reflexivity.
Qed.

(** C2. [needConsolidateLocalRemote] changes nothing and returns [true]
    exactly when the unified-config flag is enabled, the inputs carry a
    project path, the folder [.fx] exists beneath it and
    [templates/appPackage/manifest.template.json] does not; so a project
    without [.fx] gives [false], and so does a project whose unified
    manifest template is there. *)
Theorem needConsolidateLocalRemote_spec :
  forall (env : Env) (ctx : CoreHookContext) (st : State),
    let r := needConsolidateLocalRemote env ctx st in
    fst r = st
    /\ (snd r = inr true <->
        isConfigUnifyEnabled env = true
        /\ exists inputs p,
             lookupInputs ctx = Some (ArgInputs inputs)
             /\ projectPath inputs = Some p /\ p <> ""
             /\ pathExists (fs st) (path_join [p; ".fx"]) = true
             /\ pathExists (fs st)
                  (path_join [p; "templates"; "appPackage";
                              "manifest.template.json"]) = false)
    /\ (forall inputs p,
          lookupInputs ctx = Some (ArgInputs inputs) ->
          projectPath inputs = Some p ->
          pathExists (fs st) (path_join [p; ".fx"]) = false ->
          snd r = inr false)
    /\ (forall inputs p,
          lookupInputs ctx = Some (ArgInputs inputs) ->
          projectPath inputs = Some p ->
          pathExists (fs st)
            (path_join [p; "templates"; "appPackage";
                        "manifest.template.json"]) = true ->
          snd r = inr false).
Proof.
  intros env ctx st r. subst r.
  destruct (lookupInputs ctx) as [a |] eqn:Ha.
  - rewrite (needConsolidateLocalRemote_eval env ctx st a Ha).
    cbn [fst snd]. split; [reflexivity |]. split; [| split].
    + split.
      * intros [= H].
        apply andb_prop in H as [H Hm]. apply andb_prop in H as [H Hfx].
        apply andb_prop in H as [Hflag Hp].
        apply truthy_Some in Hp as (p & Hp & Hne).
        split; [assumption |].
        destruct a as [| inputs |]; try discriminate.
        exists inputs, p. cbn [asInputs] in *. rewrite Hp in *. cbn [render] in *.
        apply negb_true_iff in Hm. auto.
      * intros (Hflag & inputs & p & [= ->] & Hp & Hne & Hfx & Hm).
        cbn [asInputs]. rewrite Hp. cbn [render]. rewrite Hflag, Hfx, Hm.
        assert (T : truthy (Some p) = true)
          by (apply truthy_Some; exists p; auto).
        rewrite T. reflexivity.
    + intros inputs p [= ->] Hp Hfx. cbn [asInputs]. rewrite Hp.
      cbn [render]. rewrite Hfx.
      rewrite andb_false_r. reflexivity.
    + intros inputs p [= ->] Hp Hm. cbn [asInputs]. rewrite Hp.
      cbn [render]. rewrite Hm. cbn [negb]. rewrite andb_false_r. reflexivity.
  - unfold needConsolidateLocalRemote. rewrite Ha.
    destruct (isConfigUnifyEnabled env); cbn.
    + split; [reflexivity |]. split; [| split]; try discriminate.
      split; [discriminate |].
      intros (_ & inputs & p & [=] & _).
    + split; [reflexivity |]. split; [| split]; try discriminate.
      split; [discriminate | intros [[=] _]].
Qed.

(** ** Failure to load the project settings *)

(** C10. When loading the project settings fails, [consolidateLocalRemote]
    records the error in [ctx.result] and returns [false]; the file system
    is as before, [fileList] and [removeMap] are empty, and the only call
    made is the telemetry event that opens the upgrade. *)
Theorem consolidateLocalRemote_load_failure :
  forall (env : Env) (ctx : CoreHookContext) (st : State) (a : Arg)
         (error : FxError),
    lookupInputs ctx = Some a ->
    loadProjectSettings env (fs st) (asInputs a) = inl error ->
    let r := consolidateLocalRemote env ctx st in
    snd r = inr false
    /\ result (fst r) = Some error
    /\ fs (fst r) = fs st
    /\ fileList (fst r) = []
    /\ removeMap (fst r) = []
    /\ events (fst r) =
       events st ++ [SendTelemetryEvent ProjectConsolidateUpgradeStart None].
Proof.
  intros env ctx st a error Ha Hload r. subst r.
  unfold consolidateLocalRemote. rewrite Ha.
  unfold bind, sendTelemetryEvent, modify, member, ret, read.
  cbn [fs set_removeMap set_fileList add_event].
  rewrite Hload. cbn. auto 10.
Qed.

(** ** The consent prompt *)

Lemma consent_learn_more (showModal : bool) (n : nat) :
  forall (answer : option string) (rest : list (option string)) (st : State),
    is_some_string LearnMore answer = false ->
    consent showModal (repeat (Some LearnMore) n ++ answer :: rest) st =
      Some (add_event (consentPrompt showModal)
              (Nat.iter n (learnMoreRound showModal) st), answer).
Proof.
  induction n as [| n IH]; intros answer rest st Hans.
  - cbn [repeat app consent Nat.iter]. rewrite Hans. reflexivity.
  - cbn [repeat app consent]. cbn [is_some_string].
    replace (String.eqb LearnMore LearnMore) with true by reflexivity.
    rewrite IH by assumption.
    rewrite Nat.iter_succ_r. reflexivity.
Qed.

Lemma learnMoreRounds_calls (showModal : bool) (n : nat) (st : State) :
  only_calls st (Nat.iter n (learnMoreRound showModal) st)
    (concat (repeat [consentPrompt showModal; OpenUrl LearnMoreLink] n)).
Proof.
  induction n as [| n IH].
  - cbn. unfold only_calls. rewrite app_nil_r. auto 10.
  - rewrite Nat.iter_succ.
    set (st1 := Nat.iter n (learnMoreRound showModal) st) in *.
    destruct IH as (Hfs & Hev & Hbg & Hflag & Hres & Hfl & Hrm & Hmv).
    unfold only_calls, learnMoreRound, add_event.
    cbn [fs events background userCancelFlag result fileList removeMap
         moveFiles].
    rewrite Hev. repeat split; try assumption.
    replace (S n) with (n + 1) by lia.
    rewrite repeat_app, concat_app. cbn [repeat concat].
    rewrite app_nil_r, <- !app_assoc. reflexivity.
Qed.

Lemma openUrl_calls_app (l1 l2 : list event) :
  openUrl_calls (l1 ++ l2) = openUrl_calls l1 + openUrl_calls l2.
Proof.
  unfold openUrl_calls. rewrite List.filter_app, List.length_app. reflexivity.
Qed.

Lemma openUrl_calls_rounds (showModal : bool) (n : nat) :
  openUrl_calls
    (concat (repeat [consentPrompt showModal; OpenUrl LearnMoreLink] n)) = n.
Proof.
  induction n as [| n IH]; [reflexivity |].
  cbn [repeat concat]. rewrite openUrl_calls_app, IH. reflexivity.
Qed.

(** C5. In the prompt loop of [upgrade], [n] answers "Learn More" open the
    documentation link [n] times and present the prompt again; the next
    answer, if it is neither "Learn More" nor "Upgrade", ends the loop:
    [ctx.result] becomes the cancellation error, the guidance of the
    platform is printed, the file system is untouched and [upgrade]
    returns. *)
Theorem upgrade_cancelled :
  forall (env : Env) (ctx : CoreHookContext) (showModal : bool) (n : nat)
         (answer : option string) (rest : list (option string)) (st : State)
         (a : Arg),
    lookupInputs ctx = Some a ->
    answer <> Some LearnMore ->
    answer <> Some upgradeButton ->
    exists st',
      upgrade env ctx showModal (repeat (Some LearnMore) n ++ answer :: rest) st
        = Some (st', inr tt)
      /\ fs st' = fs st
      /\ fileList st' = fileList st
      /\ removeMap st' = removeMap st
      /\ result st' = Some ConsolidateCanceledError
      /\ events st' =
         events st
         ++ concat (repeat [consentPrompt showModal; OpenUrl LearnMoreLink] n)
         ++ [consentPrompt showModal;
             SendTelemetryEvent ProjectConsolidateNotification (Some Cancel)]
         ++ map LogWarning
              (cancelledMessage
               :: (if platform_is VSCode (platform (asInputs a))
                   then [noticeVSCode]
                   else [noticeCLI; noticeCLIOldVersion]))
      /\ openUrl_calls (events st') = openUrl_calls (events st) + n.
Proof.
  intros env ctx showModal n answer rest st a Ha Hlm Hup.
  assert (Elm : is_some_string LearnMore answer = false).
  { destruct answer as [s |]; [| reflexivity]. cbn.
    destruct (String.eqb_spec s LearnMore); congruence. }
  assert (Eup : is_some_string upgradeButton answer = false).
  { destruct answer as [s |]; [| reflexivity]. cbn.
    destruct (String.eqb_spec s upgradeButton); congruence. }
  unfold upgrade. rewrite consent_learn_more by assumption.
  rewrite Eup. cbn [negb]. rewrite orb_true_r.
  destruct (learnMoreRounds_calls showModal n st)
    as (Hfs & Hev & Hbg & Hflag & Hres & Hfl & Hrm & Hmv).
  set (st1 := Nat.iter n (learnMoreRound showModal) st) in *.
  unfold outputCancelMessage, bind, sendTelemetryEvent, modify, warning,
    member, ret.
  rewrite Ha. cbn [fst snd].
  destruct (platform_is VSCode (platform (asInputs a))); cbn.
  - eexists; split; [reflexivity |].
    cbn. rewrite Hev.
    repeat split; try assumption.
    + rewrite <- !app_assoc. reflexivity.
    + rewrite !openUrl_calls_app, openUrl_calls_rounds.
      unfold openUrl_calls. cbn. lia.
  - eexists; split; [reflexivity |].
    cbn. rewrite Hev.
    repeat split; try assumption.
    + rewrite <- !app_assoc. reflexivity.
    + rewrite !openUrl_calls_app, openUrl_calls_rounds.
      unfold openUrl_calls. cbn. lia.
Qed.

(** ** The comparison of the two manifests *)

Lemma only_calls_refl (st : State) : only_calls st st [].
Proof. unfold only_calls. rewrite app_nil_r. auto 10. Qed.

Lemma only_calls_add_event (st : State) (e : event) :
  only_calls st (add_event e st) [e].
Proof. unfold only_calls, add_event. cbn. auto 10. Qed.

(** The outcome of [compareLocalAndRemoteManifest], by cases on what goes
    wrong inside its [try] block. *)
Lemma compare_cases (env : Env) (localFile remoteFile : string) (st : State) :
  let r := compareLocalAndRemoteManifest env localFile remoteFile st in
  snd r = inr tt
  /\ ((fst r = st)
      \/ (fst r = add_event differentManifestWarning st)
      \/ (exists e,
            fst r =
            add_event
              (SendTelemetryErrorEvent ProjectConsolidateCheckManifestError e)
              st)).
Proof.
  unfold compareLocalAndRemoteManifest, when, tryCatch, bind, readFile, raise,
    ret, modify, sendTelemetryErrorEvent.
  cbn zeta.
  repeat (case_match; simplify_eq; cbn [fst snd negb] in *);
    split; try reflexivity; eauto.
Qed.

(** C9. [compareLocalAndRemoteManifest] never throws: the file system and
    the bookkeeping of the run are as before, and the collaborators receive
    nothing, or the non-modal warning, or one telemetry error event. A
    manifest that does not parse, and a failure inside [diff], end in the
    telemetry error event; so the step of the migration that compares the
    manifests completes whatever happens in it. *)
Theorem compare_failures_swallowed :
  forall (env : Env) (localFile remoteFile : string) (st : State),
    let r := compareLocalAndRemoteManifest env localFile remoteFile st in
    snd r = inr tt
    /\ (exists calls,
          only_calls st (fst r) calls
          /\ (calls = [] \/ calls = [differentManifestWarning]
              \/ exists e,
                   calls =
                   [SendTelemetryErrorEvent
                      ProjectConsolidateCheckManifestError e]))
    /\ (forall ls rs,
          faults env (AtCompareRead LocalManifest) = false ->
          faults env (AtCompareRead RemoteManifest) = false ->
          fs st localFile = Some (File ls) ->
          fs st remoteFile = Some (File rs) ->
          (JSON_parse env (replace_manifestRegex env ls) = None
           \/ JSON_parse env (replace_manifestRegex env rs) = None) ->
          fst r =
          add_event
            (SendTelemetryErrorEvent ProjectConsolidateCheckManifestError
               SyntaxError) st)
    /\ (forall ls rs jl jr,
          faults env (AtCompareRead LocalManifest) = false ->
          faults env (AtCompareRead RemoteManifest) = false ->
          fs st localFile = Some (File ls) ->
          fs st remoteFile = Some (File rs) ->
          JSON_parse env (replace_manifestRegex env ls) = Some jl ->
          JSON_parse env (replace_manifestRegex env rs) = Some jr ->
          diff jl jr = None ->
          fst r =
          add_event
            (SendTelemetryErrorEvent ProjectConsolidateCheckManifestError
               TypeError) st)
    /\ (forall projectPath,
          snd (compareManifests env projectPath st) = inr tt
          /\ fs (fst (compareManifests env projectPath st)) = fs st
          /\ fileList (fst (compareManifests env projectPath st)) = fileList st
          /\ removeMap (fst (compareManifests env projectPath st))
             = removeMap st).
Proof.
  intros env localFile remoteFile st r. subst r.
  split; [apply compare_cases |]. split; [| split; [| split]].
  - destruct (compare_cases env localFile remoteFile st)
      as (_ & [-> | [-> | (e & ->)]]).
    + exists []. split; [apply only_calls_refl | auto].
    + exists [differentManifestWarning].
      split; [apply only_calls_add_event | auto].
    + eexists. split; [apply only_calls_add_event | eauto].
  - intros ls rs Fl Fr Hl Hr Hparse.
    unfold compareLocalAndRemoteManifest, tryCatch, bind, readFile, raise,
      ret, sendTelemetryErrorEvent, modify.
    rewrite Fl, Fr, Hl, Hr. cbn zeta.
    destruct Hparse as [-> | Hp].
    + reflexivity.
    + rewrite Hp. destruct (JSON_parse env (replace_manifestRegex env ls));
        reflexivity.
  - intros ls rs jl jr Fl Fr Hl Hr Pl Pr Hd.
    unfold compareLocalAndRemoteManifest, tryCatch, bind, readFile, raise,
      ret, sendTelemetryErrorEvent, modify.
    rewrite Fl, Fr, Hl, Hr. cbn zeta. rewrite Pl, Pr, Hd. reflexivity.
  - intros projectPath. unfold compareManifests, bind, read, when.
    destruct (pathExists (fs st) (localManifestFile projectPath)
              && pathExists (fs st) (remoteManifestFile projectPath)).
    + destruct (compare_cases env (localManifestFile projectPath)
                  (remoteManifestFile projectPath) st)
        as (Hr & [-> | [-> | (e & ->)]]); auto.
    + cbn. auto.
Qed.

(** ** Paths beneath the project folder *)

Lemma append_assoc (a b c : string) : (a +:+ b) +:+ c = a +:+ b +:+ c.
Proof.
  induction a as [| x a IH]; [reflexivity |].
  change (String x ((a +:+ b) +:+ c) = String x (a +:+ b +:+ c)).
  now rewrite IH.
Qed.

Lemma nf_append (p a b : string) : nf p a +:+ b = nf p (a +:+ b).
Proof.
  destruct p as [| x p]; cbn; [reflexivity |].
  now rewrite append_assoc.
Qed.

Lemma eqb_append_l (p a b : string) :
  String.eqb (p +:+ a) (p +:+ b) = String.eqb a b.
Proof.
  induction p as [| x p IH]; [reflexivity |].
  simpl. now rewrite Ascii.eqb_refl.
Qed.

Lemma strip_prefix_append_l (p a b : string) :
  strip_prefix (p +:+ a) (p +:+ b) = strip_prefix a b.
Proof.
  induction p as [| x p IH]; [reflexivity |].
  simpl. now rewrite Ascii.eqb_refl.
Qed.

Lemma eqb_nf (p a b : string) : String.eqb (nf p a) (nf p b) = String.eqb a b.
Proof.
  destruct p as [| x p]; [reflexivity |].
  unfold nf. rewrite eqb_append_l. reflexivity.
Qed.

Lemma nf_inj (p a b : string) : nf p a = nf p b -> a = b.
Proof.
  intros H. apply String.eqb_eq. rewrite <- (eqb_nf p).
  now apply String.eqb_eq.
Qed.

Lemma strip_prefix_nf (p a b : string) :
  strip_prefix (nf p a +:+ "/") (nf p b) = strip_prefix (a +:+ "/") b.
Proof.
  destruct p as [| x p]; [reflexivity |].
  unfold nf. rewrite append_assoc, strip_prefix_append_l. reflexivity.
Qed.

Lemma under_nf (p a b : string) : under (nf p a) (nf p b) = under a b.
Proof. unfold under. now rewrite eqb_nf, strip_prefix_nf. Qed.

Lemma localSettingsFile_nf (p : string) :
  localSettingsFile p = nf p (original_rel LocalSettings).
Proof. destruct p; reflexivity. Qed.

Lemma localManifestFile_nf (p : string) :
  localManifestFile p = nf p (original_rel LocalManifest).
Proof. destruct p; reflexivity. Qed.

Lemma remoteManifestFile_nf (p : string) :
  remoteManifestFile p = nf p (original_rel RemoteManifest).
Proof. destruct p; reflexivity. Qed.

Lemma getManifestTemplatePath_nf (p : string) :
  getManifestTemplatePath p = nf p "templates/appPackage/manifest.template.json".
Proof. destruct p; reflexivity. Qed.

Lemma envConfig_nf (p : string) :
  path_join [p; ".fx"; "configs"; "config.local.json"]
  = nf p ".fx/configs/config.local.json".
Proof. destruct p; reflexivity. Qed.

Lemma recorded_envConfig_nf (p : string) :
  path_join [p; ".fx"; "configs"; "env.local.json"]
  = nf p ".fx/configs/env.local.json".
Proof. destruct p; reflexivity. Qed.

Lemma recorded_manifest_nf (p : string) :
  path_join [p; "templates"; "appPackage"; "template.manifest.json"]
  = nf p "templates/appPackage/template.manifest.json".
Proof. destruct p; reflexivity. Qed.

Lemma backupPath_nf (p : string) :
  path_join [p; backupFolder] = nf p ".backup".
Proof. destruct p; reflexivity. Qed.

Lemma backup_nf (p : string) (f : legacy_file) :
  match f with
  | LocalSettings =>
      path_join [path_join [p; backupFolder]; ".fx"; "configs";
                 "localSettings.json"]
  | LocalManifest =>
      path_join [path_join [p; backupFolder]; "templates"; "appPackage";
                 "manifest.local.template.json"]
  | RemoteManifest =>
      path_join [path_join [p; backupFolder]; "templates"; "appPackage";
                 "manifest.remote.template.json"]
  end = nf p (backup_rel f).
Proof.
  rewrite !backupPath_nf.
  assert (N : nonempty (nf p ".backup") = true) by (destruct p; reflexivity).
  destruct f.
  - transitivity (nf p ".backup" +:+ "/.fx/configs/localSettings.json").
    + destruct (nf p ".backup"); [discriminate | reflexivity].
    + now rewrite nf_append.
  - transitivity
      (nf p ".backup" +:+ "/templates/appPackage/manifest.local.template.json").
    + destruct (nf p ".backup"); [discriminate | reflexivity].
    + now rewrite nf_append.
  - transitivity
      (nf p ".backup" +:+ "/templates/appPackage/manifest.remote.template.json").
    + destruct (nf p ".backup"); [discriminate | reflexivity].
    + now rewrite nf_append.
Qed.

(** The file system seen from the project folder. *)
Lemma fs_set_nf (p a q : string) (n : node) (f : FS) :
  fs_set (nf p a) n f (nf p q) = fs_set a n (fun r => f (nf p r)) q.
Proof. unfold fs_set. now rewrite eqb_nf. Qed.

Lemma fs_remove_nf (p a q : string) (f : FS) :
  fs_remove (nf p a) f (nf p q) = fs_remove a (fun r => f (nf p r)) q.
Proof. unfold fs_remove. now rewrite under_nf. Qed.

Lemma fs_copy_nf (p src dest q : string) (f : FS) :
  fs_copy (nf p src) (nf p dest) f (nf p q)
  = fs_copy src dest (fun r => f (nf p r)) q.
Proof.
  unfold fs_copy, relocate.
  rewrite eqb_nf, !strip_prefix_nf.
  destruct (String.eqb q dest); [reflexivity |].
  destruct (strip_prefix (dest +:+ "/") q) as [rest |]; [| reflexivity].
  now rewrite nf_append.
Qed.

(** ** Rules for assertions *)

Lemma hoare_ret {A : Type} (P : State -> Prop) (x : A)
    (Q : A -> State -> Prop) (E : State -> Prop) :
  (forall st, P st -> Q x st) -> hoare P (ret x) Q E.
Proof. intros H st HP. now apply H. Qed.

Lemma hoare_raise {A : Type} (P : State -> Prop) (e : exn)
    (Q : A -> State -> Prop) (E : State -> Prop) :
  (forall st, P st -> E st) -> hoare P (raise e) Q E.
Proof. intros H st HP. now apply H. Qed.

Lemma hoare_bind {A B : Type} (P : State -> Prop) (c : M A) (k : A -> M B)
    (Q : A -> State -> Prop) (R : B -> State -> Prop) (E : State -> Prop) :
  hoare P c Q E -> (forall x, hoare (Q x) (k x) R E) ->
  hoare P (bind c k) R E.
Proof.
  intros Hc Hk st HP. unfold bind. specialize (Hc st HP).
  destruct (c st) as [st' [e | x]]; [assumption |].
  now apply Hk.
Qed.

Lemma hoare_tryCatch {A : Type} (P : State -> Prop) (body : M A)
    (handler : exn -> M A) (Q : A -> State -> Prop) (E' E : State -> Prop) :
  hoare P body Q E' -> (forall e, hoare E' (handler e) Q E) ->
  hoare P (tryCatch body handler) Q E.
Proof.
  intros Hb Hh st HP. unfold tryCatch. specialize (Hb st HP).
  destruct (body st) as [st' [e | x]]; [| assumption].
  now apply Hh.
Qed.

Lemma hoare_weaken {A : Type} (P P' : State -> Prop) (c : M A)
    (Q Q' : A -> State -> Prop) (E E' : State -> Prop) :
  hoare P' c Q' E' ->
  (forall st, P st -> P' st) ->
  (forall x st, Q' x st -> Q x st) ->
  (forall st, E' st -> E st) ->
  hoare P c Q E.
Proof.
  intros Hc HP HQ HE st Hst. specialize (Hc st (HP st Hst)).
  destruct (c st) as [st' [e | x]]; auto.
Qed.

Lemma hoare_assume {A : Type} (fact : Prop) (P : State -> Prop) (c : M A)
    (Q : A -> State -> Prop) (E : State -> Prop) :
  (fact -> hoare P c Q E) -> hoare (fun s => fact /\ P s) c Q E.
Proof. intros H s [Hfact HP]. now apply H. Qed.

Lemma hoare_read {A : Type} (P : State -> Prop) (f : State -> A)
    (E : State -> Prop) :
  hoare P (read f) (fun x st => P st /\ x = f st) E.
Proof. intros st HP. cbn. auto. Qed.

Lemma hoare_modify (P : State -> Prop) (f : State -> State)
    (Q : unit -> State -> Prop) (E : State -> Prop) :
  (forall st, P st -> Q tt (f st)) -> hoare P (modify f) Q E.
Proof. intros H st HP. now apply H. Qed.

Lemma hoare_when (P : State -> Prop) (b : bool) (c : M unit)
    (Q : unit -> State -> Prop) (E : State -> Prop) :
  (b = true -> hoare P c Q E) ->
  (b = false -> forall st, P st -> Q tt st) ->
  hoare P (when b c) Q E.
Proof.
  intros Ht Hf. destruct b; cbn.
  - now apply Ht.
  - intros st HP. now apply Hf.
Qed.

(** Nothing to move: the state is as it is. *)
Lemma defer_same (st : State) : defer st st = st.
Proof.
  unfold defer. rewrite skipn_all, app_nil_r. now destruct st.
Qed.

(** A function whose first [await] is its last statement does the same
    whether it is awaited or not, but for what it throws. *)
Lemma detached_last_await (c : M unit) (st : State) :
  detached (c, ret tt) st = (fst (c st), inr tt).
Proof.
  unfold detached. cbn [fst snd].
  destruct (c st) as [st1 [e | x]]; [reflexivity |].
  unfold ret. cbn [fst]. now rewrite defer_same.
Qed.

(** The caller of a function that it does not await sees none of what the
    function throws. *)
Lemma detached_returns (c : M unit * M unit) (st : State) :
  snd (detached c st) = inr tt.
Proof.
  unfold detached. destruct (fst c st) as [st1 [e | x]]; reflexivity.
Qed.

Lemma hoare_detached (P : State -> Prop) (c : M unit) (I E : State -> Prop) :
  hoare P c (fun _ => I) I -> hoare P (detached (c, ret tt)) (fun _ => I) E.
Proof.
  intros Hc st HP. rewrite detached_last_await. specialize (Hc st HP).
  destruct (c st) as [st' [e | x]]; assumption.
Qed.

Lemma hoare_fs_op (env : Env) (site : io_site) (effect : FS -> option FS)
    (P : State -> Prop) (Q : unit -> State -> Prop) (E : State -> Prop) :
  (forall st files, P st -> effect (fs st) = Some files ->
                    Q tt (set_fs files st)) ->
  (forall st, P st -> E st) ->
  hoare P (fs_op env site effect) Q E.
Proof.
  intros HQ HE st HP. unfold fs_op.
  destruct (faults env site); [now apply HE |].
  destruct (effect (fs st)) eqn:Heff; [now apply HQ | now apply HE].
Qed.

Lemma preserves_bind {A B : Type} (I : State -> Prop) (c : M A)
    (k : A -> M B) :
  preserves I c -> (forall x, preserves I (k x)) -> preserves I (bind c k).
Proof. intros Hc Hk. eapply hoare_bind; [exact Hc | exact Hk]. Qed.

Lemma preserves_ret {A : Type} (I : State -> Prop) (x : A) :
  preserves I (ret x).
Proof. now apply hoare_ret. Qed.

Lemma preserves_raise {A : Type} (I : State -> Prop) (e : exn) :
  preserves I (@raise A e).
Proof. now apply hoare_raise. Qed.

Lemma preserves_read {A : Type} (I : State -> Prop) (f : State -> A) :
  preserves I (read f).
Proof. intros st HI. exact HI. Qed.

Lemma preserves_modify (I : State -> Prop) (f : State -> State) :
  (forall st, I st -> I (f st)) -> preserves I (modify f).
Proof. intros H. now apply hoare_modify. Qed.

Lemma preserves_when (I : State -> Prop) (b : bool) (c : M unit) :
  preserves I c -> preserves I (when b c).
Proof. intros H. apply hoare_when; auto. Qed.

Lemma preserves_tryCatch {A : Type} (I : State -> Prop) (body : M A)
    (handler : exn -> M A) :
  preserves I body -> (forall e, preserves I (handler e)) ->
  preserves I (tryCatch body handler).
Proof. intros Hb Hh. eapply hoare_tryCatch; [exact Hb | exact Hh]. Qed.

Lemma preserves_detached (I : State -> Prop) (c : M unit) :
  preserves I c -> preserves I (detached (c, ret tt)).
Proof. intros H. now apply hoare_detached. Qed.

Lemma preserves_forM {A : Type} (I : State -> Prop) (l : list A)
    (body : A -> M unit) :
  (forall x, In x l -> preserves I (body x)) -> preserves I (forM l body).
Proof.
  induction l as [| x l IH]; intros H; cbn [forM].
  - apply preserves_ret.
  - apply preserves_bind.
    + apply H. now left.
    + intros _. apply IH. intros y Hy. apply H. now right.
Qed.

Lemma preserves_fs_op (I : State -> Prop) (env : Env) (site : io_site)
    (effect : FS -> option FS) :
  (forall st files, I st -> effect (fs st) = Some files ->
                    I (set_fs files st)) ->
  preserves I (fs_op env site effect).
Proof. intros H. apply hoare_fs_op; auto. Qed.

Lemma preserves_bind_read {A B : Type} (I : State -> Prop)
    (f : State -> A) (k : A -> M B) :
  (forall x, (exists st, I st /\ x = f st) -> preserves I (k x)) ->
  preserves I (bind (read f) k).
Proof.
  intros H st HI. unfold bind, read. apply (H (f st)); eauto.
Qed.

(** The value of a computation that holds in any case. *)
Lemma preserves_fst {A : Type} (I : State -> Prop) (c : M A) (st : State) :
  preserves I c -> I st -> I (fst (c st)).
Proof.
  intros H HI. specialize (H st HI).
  destruct (c st) as [st' [e | x]]; assumption.
Qed.

(** ** What the calls to the collaborators leave alone *)

Section Stable.

Variable I : State -> Prop.
Hypothesis I_stable : stable I.

Lemma stable_add_event (e : event) : preserves I (modify (add_event e)).
Proof. apply preserves_modify. intros st. now apply I_stable. Qed.

Lemma stable_sendTelemetryEvent (name : TelemetryEvent)
    (status : option ProjectMigratorStatus) :
  preserves I (sendTelemetryEvent name status).
Proof. apply stable_add_event. Qed.

Lemma stable_warning (message : string) : preserves I (warning message).
Proof. apply stable_add_event. Qed.

Lemma stable_set_moveFiles (f : State -> string) :
  preserves I (modify (fun st => set_moveFiles (f st) st)).
Proof. apply preserves_modify. intros st. now apply I_stable. Qed.

Lemma stable_addPathToGitignore (env : Env) (projectPath path : string) :
  preserves I (addPathToGitignore env projectPath path).
Proof.
  intros st HI. unfold addPathToGitignore.
  destruct (faults env (AtAddPathToGitignore path)); [assumption |].
  revert HI. now apply I_stable.
Qed.

(** A function called without [await] that touches nothing of what [I]
    looks at. *)
Lemma stable_detached (c : M unit * M unit) :
  preserves I (fst c) -> preserves I (snd c) -> preserves I (detached c).
Proof.
  intros H1 H2 st HI. unfold detached. specialize (H1 st HI).
  destruct (fst c st) as [st1 [e | x]]; [assumption |].
  specialize (H2 st1 H1).
  assert (H : I (fst (snd c st1)))
    by (destruct (snd c st1) as [st2 [e | y]]; assumption).
  revert H. now apply I_stable.
Qed.

Lemma stable_postConsolidate (env : Env) (projectPath : string)
    (inputs : Inputs) (folder : option string) (moved : string) :
  preserves I (detached (postConsolidate env projectPath inputs folder moved)).
Proof.
  apply stable_detached; unfold postConsolidate, updateGitIgnore;
    cbn [fst snd];
    repeat (first [ apply preserves_bind; [| intros ? ]
                  | apply preserves_when
                  | apply stable_sendTelemetryEvent
                  | apply stable_addPathToGitignore
                  | apply stable_warning
                  | apply stable_add_event ]).
Qed.

Lemma stable_compare (env : Env) (localFile remoteFile : string) :
  preserves I (compareLocalAndRemoteManifest env localFile remoteFile).
Proof.
  intros st HI.
  destruct (compare_cases env localFile remoteFile st)
    as (Hr & Hst).
  destruct (compareLocalAndRemoteManifest env localFile remoteFile st)
    as [st' [e | []]]; cbn [fst snd] in *; [discriminate |].
  destruct Hst as [-> | [-> | (e & ->)]];
    [assumption | |]; revert HI; now apply I_stable.
Qed.

Lemma stable_compareManifests (env : Env) (projectPath : string) :
  preserves I (compareManifests env projectPath).
Proof.
  unfold compareManifests.
  apply preserves_bind; [apply preserves_read | intros b].
  apply preserves_when, stable_compare.
Qed.

End Stable.

(** ** The backups recorded in [removeMap] *)

Lemma backupLocalSettings_nf (p : string) :
  path_join [path_join [p; backupFolder]; ".fx"; "configs"; "localSettings.json"]
  = nf p (backup_rel LocalSettings).
Proof. exact (backup_nf p LocalSettings). Qed.

Lemma backupLocalManifest_nf (p : string) :
  path_join [path_join [p; backupFolder]; "templates"; "appPackage";
             "manifest.local.template.json"]
  = nf p (backup_rel LocalManifest).
Proof. exact (backup_nf p LocalManifest). Qed.

Lemma backupRemoteManifest_nf (p : string) :
  path_join [path_join [p; backupFolder]; "templates"; "appPackage";
             "manifest.remote.template.json"]
  = nf p (backup_rel RemoteManifest).
Proof. exact (backup_nf p RemoteManifest). Qed.

Lemma map_set_In (k v : string) (m : list (string * string))
    (x : string * string) :
  In x (map_set k v m) -> x = (k, v) \/ In x m.
Proof.
  induction m as [| [k' v'] m IH]; cbn [map_set].
  - intros [<- | []]. now left.
  - destruct (String.eqb k' k).
    + intros [<- | H]; [now left | right; now right].
    + intros [<- | H]; [right; now left |].
      destruct (IH H); [now left | right; now right].
Qed.

Lemma map_set_In_same (k v : string) (m : list (string * string)) :
  In (k, v) (map_set k v m).
Proof.
  induction m as [| [k' v'] m IH]; cbn [map_set]; [now left |].
  destruct (String.eqb k' k); [now left | now right].
Qed.

Lemma map_set_In_other (k v k' v' : string) (m : list (string * string)) :
  k' <> k -> In (k', v') m -> In (k', v') (map_set k v m).
Proof.
  intros Hne. induction m as [| [k0 v0] m IH]; cbn [map_set]; [intros [] |].
  destruct (String.eqb_spec k0 k) as [-> | _].
  - intros [[= <- <-] | H]; [congruence | now right].
  - intros [H | H]; [now left | right; now apply IH].
Qed.

Section LegacyFiles.

Variable p : string.

Lemma copy_own_backup (f : legacy_file) (F : FS) :
  F (nf p (original_rel f)) <> None ->
  fs_copy (nf p (original_rel f)) (nf p (backup_rel f)) F
    (nf p (backup_rel f)) = F (nf p (original_rel f)).
Proof.
  intros H. unfold fs_copy, relocate. rewrite String.eqb_refl.
  destruct (F (nf p (original_rel f))); congruence.
Qed.

Lemma copy_other_backup (f f' : legacy_file) (F : FS) :
  f <> f' ->
  fs_copy (nf p (original_rel f)) (nf p (backup_rel f)) F
    (nf p (backup_rel f')) = F (nf p (backup_rel f')).
Proof.
  intros H. rewrite fs_copy_nf.
  destruct f, f'; try congruence; reflexivity.
Qed.

Lemma copy_original (f f' : legacy_file) (F : FS) :
  fs_copy (nf p (original_rel f)) (nf p (backup_rel f)) F
    (nf p (original_rel f')) = F (nf p (original_rel f')).
Proof. rewrite fs_copy_nf. destruct f, f'; reflexivity. Qed.

Lemma remove_backup (f f' : legacy_file) (F : FS) :
  fs_remove (nf p (original_rel f)) F (nf p (backup_rel f'))
  = F (nf p (backup_rel f')).
Proof. rewrite fs_remove_nf. destruct f, f'; reflexivity. Qed.

Lemma remove_own (f : legacy_file) (F : FS) :
  fs_remove (nf p (original_rel f)) F (nf p (original_rel f)) = None.
Proof. unfold fs_remove, under. now rewrite String.eqb_refl. Qed.

Lemma remove_other (f f' : legacy_file) (F : FS) :
  f <> f' ->
  fs_remove (nf p (original_rel f)) F (nf p (original_rel f'))
  = F (nf p (original_rel f')).
Proof.
  intros H. rewrite fs_remove_nf.
  destruct f, f'; try congruence; reflexivity.
Qed.

Lemma legacy_file_eq_dec (f f' : legacy_file) : f = f' \/ f <> f'.
Proof. destruct f, f'; auto; right; discriminate. Qed.

Variable files0 : FS.

Lemma restorable_stable : stable (restorable p files0).
Proof.
  intros st st' Hfs Hrm _ [H1 H2]. unfold restorable.
  rewrite Hfs, Hrm. now split.
Qed.

Lemma restorable_start (st : State) :
  removeMap st = [] -> fs st = files0 -> restorable p files0 st.
Proof.
  intros Hrm Hfs. split.
  - rewrite Hrm. intros ? ? [].
  - intros f. left. now rewrite Hfs.
Qed.

Lemma restorable_fs_set (rel : string) (n : node) (st : State) :
  (forall f, rel <> backup_rel f) -> (forall f, rel <> original_rel f) ->
  restorable p files0 st ->
  restorable p files0 (set_fs (fs_set (nf p rel) n (fs st)) st).
Proof.
  intros Hb Ho [H1 H2]. split.
  - intros b o Hin. destruct (H1 b o Hin) as (f & -> & -> & Hc & Hn).
    exists f. repeat split; auto.
    cbn [fs set_fs]. unfold fs_set. rewrite eqb_nf.
    destruct (String.eqb_spec (backup_rel f) rel) as [E | _];
      [symmetry in E; now apply Hb in E | assumption].
  - intros f. cbn [fs removeMap set_fs]. unfold fs_set. rewrite eqb_nf.
    destruct (String.eqb_spec (original_rel f) rel) as [E | _];
      [symmetry in E; now apply Ho in E | apply H2].
Qed.

Lemma restorable_copied (f : legacy_file) (st : State) :
  restorable p files0 st ->
  pathExists (fs st) (nf p (original_rel f)) = true ->
  restorable p files0
    (set_fs (fs_copy (nf p (original_rel f)) (nf p (backup_rel f)) (fs st))
       st)
  /\ fs st (nf p (original_rel f)) = files0 (nf p (original_rel f))
  /\ files0 (nf p (original_rel f)) <> None.
Proof.
  intros [H1 H2] Hex.
  assert (Hsome : fs st (nf p (original_rel f)) <> None).
  { unfold pathExists in Hex.
    destruct (fs st (nf p (original_rel f))); congruence. }
  assert (Hsame : fs st (nf p (original_rel f))
                  = files0 (nf p (original_rel f))).
  { destruct (H2 f) as [H | [H _]]; congruence. }
  split; [| split; congruence].
  split.
  - intros b o Hin. destruct (H1 b o Hin) as (f' & -> & -> & Hc & Hn).
    exists f'. repeat split; auto. cbn [fs set_fs].
    destruct (legacy_file_eq_dec f f') as [<- | Hne].
    + rewrite copy_own_backup by assumption. exact Hsame.
    + rewrite copy_other_backup by assumption. exact Hc.
  - intros f'. cbn [fs removeMap set_fs]. rewrite copy_original. apply H2.
Qed.

Lemma moveToBackup_restorable (env : Env) (f : legacy_file) (name : string) :
  hoare
    (fun st => restorable p files0 st
               /\ pathExists (fs st) (nf p (original_rel f)) = true)
    (moveToBackup env f (nf p (original_rel f)) (nf p (backup_rel f)) name)
    (fun _ => restorable p files0) (restorable p files0).
Proof.
  intros st [HI Hex].
  destruct (restorable_copied f st HI Hex) as (Hcopied & Hsame & Hsome).
  unfold moveToBackup, copy, remove, fs_op, bind, modify.
  destruct (faults env (AtBackupCopy f)); [exact HI |].
  rewrite Hex.
  destruct (faults env (AtBackupRemove f)); [exact Hcopied |].
  cbn [fs set_fs set_moveFiles set_removeMap removeMap moveFiles events
       userCancelFlag result fileList].
  destruct Hcopied as [H1 H2]. cbn [fs set_fs removeMap] in H1, H2.
  split.
  - intros b o Hin.
    cbn [removeMap fs set_fs set_moveFiles set_removeMap] in Hin |- *.
    apply map_set_In in Hin as [[= -> ->] | Hin].
    + exists f. repeat split; auto.
      rewrite remove_backup, copy_own_backup; [exact Hsame |].
      congruence.
    + destruct (H1 b o Hin) as (f' & -> & -> & Hc & Hn).
      exists f'. repeat split; auto.
      rewrite remove_backup. exact Hc.
  - intros f'. cbn [fs removeMap set_fs set_moveFiles set_removeMap].
    destruct (legacy_file_eq_dec f f') as [<- | Hne].
    + right. split; [apply remove_own | apply map_set_In_same].
    + rewrite remove_other by assumption.
      destruct (H2 f') as [H | [H Hin]]; [now left | right].
      split; [exact H |]. apply map_set_In_other; [| exact Hin].
      intros E. apply nf_inj in E.
      destruct f, f'; try discriminate E; congruence.
Qed.

Lemma guarded_move_restorable (env : Env) (f : legacy_file)
    (name : string) :
  preserves (restorable p files0)
    (bind (read (fun st => pathExists (fs st) (nf p (original_rel f))))
       (fun found =>
          when found
            (moveToBackup env f (nf p (original_rel f))
               (nf p (backup_rel f)) name))).
Proof.
  eapply hoare_bind; [apply hoare_read |].
  intros found. apply hoare_when.
  - intros ->. eapply hoare_weaken; [apply moveToBackup_restorable | | |];
      cbn; intuition.
  - intros _ st [HI _]. exact HI.
Qed.

Lemma writeEnvConfig_restorable (env : Env) (content : string) :
  preserves (restorable p files0) (writeEnvConfig env p content).
Proof.
  intros st HI. unfold writeEnvConfig.
  destruct (faults env AtWriteEnvConfig); [exact HI |].
  rewrite envConfig_nf. apply restorable_fs_set; [| | exact HI];
    intros []; discriminate.
Qed.

Lemma push_restorable (item : string) :
  preserves (restorable p files0) (push item).
Proof.
  apply preserves_modify. intros st [H1 H2]. split; assumption.
Qed.

Lemma readFile_preserves (I : State -> Prop) (env : Env) (site : io_site)
    (file : string) :
  preserves I (readFile env site file).
Proof.
  intros st HI. unfold readFile.
  destruct (faults env site); [exact HI |].
  destruct (fs st file) as [[c |] |]; exact HI.
Qed.

Lemma addLocalEnvironment_restorable (env : Env)
    (settings : ProjectSettings) :
  preserves (restorable p files0) (addLocalEnvironment env p settings).
Proof.
  unfold addLocalEnvironment.
  apply preserves_bind;
    [apply stable_sendTelemetryEvent, restorable_stable | intros _].
  apply preserves_bind; [apply writeEnvConfig_restorable | intros [e | w]].
  - apply preserves_raise.
  - apply preserves_bind; [apply push_restorable | intros _].
    apply stable_sendTelemetryEvent, restorable_stable.
Qed.

Lemma addConsolidateManifest_restorable (env : Env)
    (settings : ProjectSettings) :
  preserves (restorable p files0) (addConsolidateManifest env p settings).
Proof.
  unfold addConsolidateManifest.
  apply preserves_bind; [apply preserves_read | intros found].
  apply preserves_bind; [| intros _; apply push_restorable].
  apply preserves_when.
  destruct (isSPFxProject settings).
  - apply preserves_bind;
      [apply stable_sendTelemetryEvent, restorable_stable | intros _].
    apply preserves_bind; [apply readFile_preserves | intros text].
    apply preserves_bind.
    { destruct (JSON_parse_manifest env text);
        [apply preserves_ret | apply preserves_raise]. }
    intros manifest.
    apply preserves_bind;
      [| intros _; apply stable_sendTelemetryEvent, restorable_stable].
    apply preserves_fs_op. intros st files HI [= <-].
    rewrite getManifestTemplatePath_nf.
    apply restorable_fs_set; [| | exact HI]; intros []; discriminate.
  - apply preserves_bind;
      [apply stable_sendTelemetryEvent, restorable_stable | intros _].
    apply preserves_bind;
      [| intros _; apply stable_sendTelemetryEvent, restorable_stable].
    apply preserves_fs_op. intros st files HI Heff.
    destruct (fs st (remoteManifestFile p)) as [[c |] |]; try discriminate.
    injection Heff as <-.
    rewrite getManifestTemplatePath_nf.
    apply restorable_fs_set; [| | exact HI]; intros []; discriminate.
Qed.

Lemma transform_restorable (env : Env) (inputs : Inputs)
    (settings : ProjectSettings) :
  preserves (restorable p files0) (transform env p inputs settings).
Proof.
  unfold transform.
  apply preserves_bind; [apply addLocalEnvironment_restorable | intros _].
  apply preserves_bind; [apply addConsolidateManifest_restorable | intros _].
  apply preserves_bind.
  { unfold backupLocalSettings.
    apply preserves_bind;
      [apply stable_sendTelemetryEvent, restorable_stable | intros _].
    apply preserves_bind.
    { apply preserves_modify. intros st [H1 H2]. split; assumption. }
    intros _. rewrite localSettingsFile_nf, backupLocalSettings_nf.
    apply guarded_move_restorable. }
  intros _.
  apply preserves_bind;
    [apply stable_compareManifests, restorable_stable | intros _].
  apply preserves_bind.
  { unfold backupLocalManifest.
    rewrite localManifestFile_nf, backupLocalManifest_nf.
    apply guarded_move_restorable. }
  intros _.
  apply preserves_bind.
  { unfold backupRemoteManifest.
    rewrite remoteManifestFile_nf, backupRemoteManifest_nf.
    apply guarded_move_restorable. }
  intros _.
  apply preserves_bind;
    [apply stable_sendTelemetryEvent, restorable_stable | intros _].
  apply preserves_bind;
    [apply stable_sendTelemetryEvent, restorable_stable | intros _].
  apply preserves_bind; [apply preserves_read | intros moved].
  apply stable_postConsolidate, restorable_stable.
Qed.

End LegacyFiles.

Lemma needConsolidateLocalRemote_spec_witness :
  let env := sample_env no_fault false None in
  let st := initial_state sample_project in
  needConsolidateLocalRemote env sample_ctx st = (st, inr true)
  /\ (let started := set_fs (fs_set "/proj/templates/appPackage/manifest.template.json"
                               (File "unified manifest") sample_project) st in
      snd (needConsolidateLocalRemote env sample_ctx started) = inr false)
  /\ snd (needConsolidateLocalRemote env sample_ctx
            (initial_state (fun _ => None))) = inr false.
Proof.
  cbv zeta.
  pose proof (needConsolidateLocalRemote_spec (sample_env no_fault false None)
                sample_ctx (initial_state sample_project)) as H1.
  pose proof (needConsolidateLocalRemote_spec (sample_env no_fault false None)
                sample_ctx
                (set_fs (fs_set "/proj/templates/appPackage/manifest.template.json"
                           (File "unified manifest") sample_project)
                   (initial_state sample_project))) as H2.
  pose proof (needConsolidateLocalRemote_spec (sample_env no_fault false None)
                sample_ctx (initial_state (fun _ => None))) as H3.
  cbv zeta in H1, H2, H3.
  destruct H1 as (Hst & Hiff & _).
  destruct H2 as (_ & _ & _ & Hpresent).
  destruct H3 as (_ & _ & Habsent & _).
  split; [| split].
  - assert (Htrue : snd (needConsolidateLocalRemote
                           (sample_env no_fault false None) sample_ctx
                           (initial_state sample_project)) = inr true).
    { apply Hiff. split; [reflexivity |].
      exists sample_inputs, "/proj".
      repeat split; try reflexivity; discriminate. }
    rewrite (surjective_pairing (needConsolidateLocalRemote _ _ _)).
    now rewrite Hst, Htrue.
  - apply (Hpresent sample_inputs "/proj"); reflexivity.
  - apply (Habsent sample_inputs "/proj"); reflexivity.
Defined.

Lemma consolidateLocalRemote_load_failure_witness :
  let env :=
    mkEnv true no_fault (fun _ _ => inl (SettingsError "InvalidProject"))
      (fun _ => inl (SettingsError "InvalidProject"))
      (fun s => s) (fun s => s) (fun _ => None) (fun _ => "")
      (fun _ => None) (fun s => s) "" "" "fx" "configs" "states" "/res"
      (fun _ => None) in
  let st := initial_state sample_project in
  let r := consolidateLocalRemote env sample_ctx st in
  (lookupInputs sample_ctx = Some (ArgInputs sample_inputs)
   /\ loadProjectSettings env (fs st) sample_inputs
      = inl (SettingsError "InvalidProject"))
  /\ snd r = inr false
  /\ result (fst r) = Some (SettingsError "InvalidProject")
  /\ fs (fst r) = fs st
  /\ fileList (fst r) = []
  /\ removeMap (fst r) = []
  /\ events (fst r) =
     events st ++ [SendTelemetryEvent ProjectConsolidateUpgradeStart None].
Proof.
  cbv zeta. split; [split; reflexivity |].
  exact (consolidateLocalRemote_load_failure
           (mkEnv true no_fault (fun _ _ => inl (SettingsError "InvalidProject"))
              (fun _ => inl (SettingsError "InvalidProject"))
              (fun s => s) (fun s => s) (fun _ => None) (fun _ => "")
              (fun _ => None) (fun s => s) "" "" "fx" "configs" "states" "/res"
              (fun _ => None))
           sample_ctx (initial_state sample_project) (ArgInputs sample_inputs)
           (SettingsError "InvalidProject") eq_refl eq_refl).
Defined.

(** The scenario of C5: "Learn More" twice, then the prompt is dismissed. *)
Lemma upgrade_cancelled_witness :
  let env := sample_env no_fault false None in
  let st := initial_state sample_project in
  (lookupInputs sample_ctx = Some (ArgInputs sample_inputs)
   /\ None <> Some LearnMore /\ None <> Some upgradeButton)
  /\ exists st',
       upgrade env sample_ctx true [Some LearnMore; Some LearnMore; None] st
       = Some (st', inr tt)
       /\ fs st' = fs st
       /\ fileList st' = fileList st
       /\ removeMap st' = removeMap st
       /\ result st' = Some ConsolidateCanceledError
       /\ events st' =
          events st
          ++ concat (repeat [consentPrompt true; OpenUrl LearnMoreLink] 2)
          ++ [consentPrompt true;
              SendTelemetryEvent ProjectConsolidateNotification (Some Cancel)]
          ++ map LogWarning
               (cancelledMessage
                :: (if platform_is VSCode (platform (asInputs (ArgInputs sample_inputs)))
                    then [noticeVSCode]
                    else [noticeCLI; noticeCLIOldVersion]))
       /\ openUrl_calls (events st') = openUrl_calls (events st) + 2.
Proof.
  cbv zeta.
  assert (H1 : @None string <> Some LearnMore) by discriminate.
  assert (H2 : @None string <> Some upgradeButton) by discriminate.
  split; [split; [reflexivity | split; assumption] |].
  exact (upgrade_cancelled (sample_env no_fault false None) sample_ctx true 2
           None [] (initial_state sample_project) (ArgInputs sample_inputs)
           eq_refl H1 H2).
Defined.

(** A run whose manifests do not parse: the comparison reports it and the
    run goes on. *)
Lemma compare_failures_swallowed_witness :
  let env := sample_env no_fault false None in
  let st := initial_state sample_project in
  let localFile := localManifestFile "/proj" in
  let remoteFile := remoteManifestFile "/proj" in
  compareLocalAndRemoteManifest env localFile remoteFile st
  = (add_event
       (SendTelemetryErrorEvent ProjectConsolidateCheckManifestError
          SyntaxError) st, inr tt).
Proof.
  cbv zeta.
  pose proof (compare_failures_swallowed (sample_env no_fault false None)
                (localManifestFile "/proj") (remoteManifestFile "/proj")
                (initial_state sample_project)) as H.
  cbv zeta in H. destruct H as (Hr & _ & Hparse & _).
  assert (Hfst : fst (compareLocalAndRemoteManifest
                        (sample_env no_fault false None)
                        (localManifestFile "/proj") (remoteManifestFile "/proj")
                        (initial_state sample_project))
                 = add_event
                     (SendTelemetryErrorEvent
                        ProjectConsolidateCheckManifestError SyntaxError)
                     (initial_state sample_project)).
  { apply (Hparse "local manifest" "remote manifest");
      try reflexivity. left. reflexivity. }
  rewrite (surjective_pairing (compareLocalAndRemoteManifest _ _ _ _)).
  now rewrite Hr, Hfst.
Defined.

(** ** The path recorded for the unified manifest *)

(** C6. When the step that adds the unified manifest completes, the path
    appended to [fileList] is [templates/appPackage/template.manifest.json]
    beneath the project, in either branch and also when there is no remote
    manifest. It is not the path of the unified manifest template, where the
    step wrote the manifest when the remote manifest was there: the path
    that was written is in [fileList] only if it was there before. *)
Theorem recorded_manifest_path :
  forall (env : Env) (p : string) (settings : ProjectSettings)
         (st st' : State),
    addConsolidateManifest env p settings st = (st', inr tt) ->
    fileList st' =
      fileList st
      ++ [path_join [p; "templates"; "appPackage"; "template.manifest.json"]]
    /\ path_join [p; "templates"; "appPackage"; "template.manifest.json"]
       <> getManifestTemplatePath p
    /\ (In (getManifestTemplatePath p) (fileList st') ->
        In (getManifestTemplatePath p) (fileList st))
    /\ (pathExists (fs st) (remoteManifestFile p) = true ->
        exists content,
          fs st' (getManifestTemplatePath p) = Some (File content)).
Proof.
  intros env p settings st st' Hrun.
  assert (Hne : path_join [p; "templates"; "appPackage"; "template.manifest.json"]
                <> getManifestTemplatePath p).
  { rewrite recorded_manifest_nf, getManifestTemplatePath_nf.
    intros H. apply nf_inj in H. discriminate. }
  assert (Hlist : fileList st' =
                  fileList st
                  ++ [path_join [p; "templates"; "appPackage";
                                 "template.manifest.json"]]
                  /\ (pathExists (fs st) (remoteManifestFile p) = true ->
                      exists content,
                        fs st' (getManifestTemplatePath p)
                        = Some (File content))).
  { revert Hrun.
    unfold addConsolidateManifest, sendTelemetryEvent, when, push, writeFile,
      copyFile, fs_op, readFile, bind, read, modify, ret, raise.
    cbn zeta.
    repeat (case_match; simplify_eq; cbn [fst snd] in * );
      intros; simplify_eq;
      cbn [fileList fs set_fs set_fileList add_event] in *;
      (split; [reflexivity |]); intros; try congruence;
      unfold fs_set; rewrite String.eqb_refl; eauto. }
  destruct Hlist as (Hlist & Hwritten).
  split; [exact Hlist |]. split; [exact Hne |]. split; [| exact Hwritten].
  rewrite Hlist. intros Hin. apply in_app_or in Hin as [Hin | [Heq | []]].
  - exact Hin.
  - now apply Hne in Heq.
Qed.

Lemma recorded_manifest_path_witness :
  let env := sample_env no_fault false None in
  let st := initial_state sample_project in
  let st' := fst (addConsolidateManifest env "/proj"
                    (mkSettings "myapp" false) st) in
  addConsolidateManifest env "/proj" (mkSettings "myapp" false) st
  = (st', inr tt)
  /\ fileList st' = ["/proj/templates/appPackage/template.manifest.json"]
  /\ fs st' "/proj/templates/appPackage/manifest.template.json"
     = Some (File "remote manifest")
  /\ fs st' "/proj/templates/appPackage/template.manifest.json" = None
  /\ (In (getManifestTemplatePath "/proj") (fileList st') ->
      In (getManifestTemplatePath "/proj") (fileList st)).
Proof.
  cbv zeta.
  assert (Hrun : addConsolidateManifest (sample_env no_fault false None)
                   "/proj" (mkSettings "myapp" false)
                   (initial_state sample_project)
                 = (fst (addConsolidateManifest (sample_env no_fault false None)
                           "/proj" (mkSettings "myapp" false)
                           (initial_state sample_project)), inr tt))
    by reflexivity.
  split; [exact Hrun |].
  split; [reflexivity |]. split; [reflexivity |]. split; [reflexivity |].
  exact (proj1 (proj2 (proj2
           (recorded_manifest_path (sample_env no_fault false None) "/proj"
              (mkSettings "myapp" false) (initial_state sample_project) _
              Hrun)))).
Defined.

(** ** The structural diff *)

Lemma json_nested_ind (P : json -> Prop) :
  P JNull ->
  (forall b, P (JBool b)) ->
  (forall x, P (JNum x)) ->
  (forall s, P (JStr s)) ->
  (forall elems, Forall P elems -> P (JArr elems)) ->
  (forall fields, Forall (fun kv => P (snd kv)) fields -> P (JObj fields)) ->
  forall j, P j.
Proof.
  intros HNull HBool HNum HStr HArr HObj.
  fix IH 1. intros [| b | x | s | elems | fields].
  - exact HNull.
  - apply HBool.
  - apply HNum.
  - apply HStr.
  - apply HArr.
    induction elems as [| e elems IHelems]; constructor; [apply IH | exact IHelems].
  - apply HObj.
    induction fields as [| [k v] fields IHfields]; constructor;
      [apply IH | exact IHfields].
Qed.

Lemma key_index_index_key (i : nat) : key_index (index_key i) = Some i.
Proof.
  unfold key_index, index_key. rewrite NilEmpty.usu. cbn zeta.
  rewrite Unsigned.of_to, String.eqb_refl. reflexivity.
Qed.

Lemma index_key_inj (i j : nat) : index_key i = index_key j -> i = j.
Proof.
  intros H. pose proof (key_index_index_key i) as Hi.
  rewrite H, key_index_index_key in Hi. congruence.
Qed.

Lemma index_key_not_ignored (i : nat) : has ignoreKeys (index_key i) = false.
Proof.
  assert (H : forall s, NilEmpty.uint_of_string s = None ->
                        String.eqb (index_key i) s = false).
  { intros s Hs. destruct (String.eqb_spec (index_key i) s) as [E |];
      [| reflexivity].
    unfold index_key in E. rewrite <- E, NilEmpty.usu in Hs. discriminate. }
  unfold has, ignoreKeys. cbn [existsb].
  rewrite !H by reflexivity. reflexivity.
Qed.

Lemma length_indexed {A : Type} (n : nat) (l : list A) :
  length (indexed n l) = length l.
Proof.
  revert n. induction l as [| x l IH]; intros n; cbn; [reflexivity |].
  now rewrite IH.
Qed.

Lemma In_indexed {A : Type} (k : string) (x : A) (n : nat) (l : list A) :
  In (k, x) (indexed n l) <->
  exists i, k = index_key (n + i) /\ nth_error l i = Some x.
Proof.
  revert n. induction l as [| y l IH]; intros n; cbn [indexed In].
  - split; [intros [] | intros ([| i] & _ & H); discriminate].
  - rewrite IH. split.
    + intros [[= <- <-] | (i & -> & Hi)].
      * exists 0. rewrite Nat.add_0_r. auto.
      * exists (S i). rewrite Nat.add_succ_r. auto.
    + intros ([| i] & -> & Hi).
      * left. rewrite Nat.add_0_r. cbn in Hi. congruence.
      * right. exists i. rewrite Nat.add_succ_r. auto.
Qed.

Lemma visit_scalar (b : json) (key : string) (aValue : json)
    (r1 r2 : json -> option bool) (continue : option bool) :
  isObject (Some aValue) = false ->
  visit b key aValue r1 continue = visit b key aValue r2 continue.
Proof. intros H. unfold visit. now rewrite H. Qed.

Lemma chars_scalar (s : string) (x : json) :
  In x (chars s) -> isObject (Some x) = false.
Proof.
  induction s as [| c s IH]; cbn [chars In]; [intros [] |].
  intros [<- | H]; [reflexivity | now apply IH].
Qed.

(** [diff] as one loop over the entries of [a]. *)
Lemma diff_unfold (a b : json) :
  diff a b =
    match keys b, entries a with
    | Some bKeys, Some ea =>
        if negb (Nat.eqb (length ea) (length bKeys)) then Some false
        else loop_entries b diff ea
    | _, _ => None
    end.
Proof.
  destruct a as [| x | x | s | elems | fields]; cbn [diff entries];
    destruct (keys b) as [bKeys |]; try reflexivity.
  - rewrite length_indexed.
    destruct (negb (Nat.eqb (length (chars s)) (length bKeys)));
      [reflexivity |].
    assert (Hs : forall x, In x (chars s) -> isObject (Some x) = false)
      by apply chars_scalar.
    revert Hs. generalize (chars s) as l. generalize 0 as i.
    intros i l. revert i.
    induction l as [| x l IH]; intros i Hs; [reflexivity |].
    cbn [loop_entries indexed]. rewrite <- IH by (intros; apply Hs; now right).
    apply visit_scalar, Hs. now left.
  - rewrite length_indexed.
    destruct (negb (Nat.eqb (length elems) (length bKeys))); [reflexivity |].
    generalize 0 as i. induction elems as [| x l IH]; intros i;
      [reflexivity |].
    cbn [loop_entries indexed]. now rewrite <- IH.
  - destruct (negb (Nat.eqb (length fields) (length bKeys))); [reflexivity |].
    induction fields as [| [k v] l IH]; [reflexivity |].
    cbn [loop_entries]. now rewrite <- IH.
Qed.

Lemma visit_true (b : json) (key : string) (aValue : json)
    (recur : json -> option bool) (continue : option bool) :
  visit b key aValue recur continue = Some true <->
  visit b key aValue recur (Some true) = Some true /\ continue = Some true.
Proof.
  unfold visit.
  destruct (has ignoreKeys key); [intuition congruence |].
  destruct (isObject (Some aValue) && isObject (get b key)).
  - destruct (get b key) as [bv |]; [| intuition congruence].
    destruct (recur bv) as [[|] |]; intuition congruence.
  - destruct (negb (strict_eq (Some aValue) (get b key)));
      intuition congruence.
Qed.

Lemma visit_entry (b : json) (key : string) (aValue : json)
    (recur : json -> option bool) :
  visit b key aValue recur (Some true) = Some true <->
  has ignoreKeys key = true
  \/ (isObject (Some aValue) = true
      /\ exists bValue,
           get b key = Some bValue /\ isObject (Some bValue) = true
           /\ recur bValue = Some true)
  \/ (isObject (Some aValue) && isObject (get b key) = false
      /\ strict_eq (Some aValue) (get b key) = true).
Proof.
  unfold visit.
  destruct (has ignoreKeys key); [split; auto |].
  destruct (isObject (Some aValue) && isObject (get b key)) eqn:Hboth.
  - apply andb_prop in Hboth as [Ha Hb].
    destruct (get b key) as [bv |] eqn:Hget; [| discriminate].
    split.
    + intros H. right. left. split; [exact Ha |]. exists bv.
      destruct (recur bv) as [[|] |]; try discriminate. auto.
    + intros [H | [(_ & bv' & [= <-] & _ & ->) | [H _]]];
        [discriminate | reflexivity | discriminate].
  - split.
    + intros H. right. right. split; [reflexivity |].
      destruct (strict_eq (Some aValue) (get b key)); [reflexivity |].
      discriminate.
    + intros [H | [(Ha & bv & Hget & Hb & _) | [_ ->]]];
        [discriminate | | reflexivity].
      rewrite Hget, Ha, Hb in Hboth. discriminate.
Qed.

Lemma loop_entries_true (b : json) (recur : json -> json -> option bool)
    (l : list (string * json)) :
  loop_entries b recur l = Some true <->
  forall key aValue,
    In (key, aValue) l ->
    visit b key aValue (recur aValue) (Some true) = Some true.
Proof.
  induction l as [| [k v] l IH]; cbn [loop_entries In].
  - split; [intros _ ? ? [] | reflexivity].
  - rewrite visit_true, IH. split.
    + intros [Hv Hl] key aValue [[= <- <-] | Hin]; [exact Hv | now apply Hl].
    + intros H. split; [apply H; now left |].
      intros key aValue Hin. apply H. now right.
Qed.

(** The recursive calls of [diff] are made on values of the entries. *)
Lemma entries_values (P : json -> Prop) (a : json)
    (ea : list (string * json)) :
  match a with
  | JArr elems => Forall P elems
  | JObj fields => Forall (fun kv => P (snd kv)) fields
  | _ => True
  end ->
  entries a = Some ea ->
  forall key aValue,
    In (key, aValue) ea -> isObject (Some aValue) = true -> P aValue.
Proof.
  intros HP Hea key aValue Hin Hobj.
  destruct a as [| x | x | s | elems | fields]; cbn [entries] in Hea;
    simplify_eq.
  - destruct Hin.
  - destruct Hin.
  - apply In_indexed in Hin as (i & _ & Hi). apply nth_error_In in Hi.
    apply chars_scalar in Hi. congruence.
  - apply In_indexed in Hin as (i & _ & Hi). apply nth_error_In in Hi.
    rewrite List.Forall_forall in HP. now apply HP.
  - rewrite List.Forall_forall in HP. now apply (HP (key, aValue)).
Qed.

Lemma diff_true_iff_step (a : json) :
  (forall ea key aValue,
     entries a = Some ea -> In (key, aValue) ea ->
     isObject (Some aValue) = true ->
     forall b, diff aValue b = Some true <-> Equivalent aValue b) ->
  forall b, diff a b = Some true <-> Equivalent a b.
Proof.
  intros Hrec b. rewrite diff_unfold. split.
  - destruct (keys b) as [bKeys |] eqn:Hkb; [| discriminate].
    destruct (entries a) as [ea |] eqn:Hea; [| discriminate].
    destruct (Nat.eqb_spec (length ea) (length bKeys)) as [Hlen |];
      cbn [negb]; [| discriminate].
    rewrite loop_entries_true. intros Hloop.
    apply (Equivalent_intro a b ea bKeys Hea Hkb Hlen).
    intros key aValue Hin Hign. specialize (Hloop key aValue Hin).
    apply visit_entry in Hloop as [H | [(Ha & bv & Hg & Hb & Hd) | H]];
      [congruence | left | right; exact H].
    split; [exact Ha |]. exists bv. repeat split; auto.
    now apply (Hrec ea key aValue).
  - intros HE. inversion HE as [a' b' ea bKeys Hea Hkb Hlen Hall]; subst.
    rewrite Hkb, Hea, Hlen, Nat.eqb_refl. cbn [negb].
    apply loop_entries_true. intros key aValue Hin. apply visit_entry.
    destruct (has ignoreKeys key) eqn:Hign; [now left | right].
    destruct (Hall key aValue Hin Hign) as [(Ha & bv & Hg & Hb & HEq) | H];
      [left | right; exact H].
    split; [exact Ha |]. exists bv. repeat split; auto.
    now apply (Hrec ea key aValue).
Qed.

Lemma diff_true_iff (a : json) :
  forall b, diff a b = Some true <-> Equivalent a b.
Proof.
  induction a as [| x | x | s | elems IH | fields IH] using json_nested_ind;
    apply diff_true_iff_step; intros ea key aValue Hea Hin Hobj.
  - discriminate.
  - exact (entries_values
             (fun v => forall b, diff v b = Some true <-> Equivalent v b)
             (JBool x) ea I Hea key aValue Hin Hobj).
  - exact (entries_values
             (fun v => forall b, diff v b = Some true <-> Equivalent v b)
             (JNum x) ea I Hea key aValue Hin Hobj).
  - exact (entries_values
             (fun v => forall b, diff v b = Some true <-> Equivalent v b)
             (JStr s) ea I Hea key aValue Hin Hobj).
  - exact (entries_values
             (fun v => forall b, diff v b = Some true <-> Equivalent v b)
             (JArr elems) ea IH Hea key aValue Hin Hobj).
  - exact (entries_values
             (fun v => forall b, diff v b = Some true <-> Equivalent v b)
             (JObj fields) ea IH Hea key aValue Hin Hobj).
Qed.

(** [diff] returns on two values that are not [null]. *)
Lemma loop_entries_returns (b : json) (recur : json -> json -> option bool)
    (l : list (string * json)) :
  (forall key aValue bValue,
     In (key, aValue) l -> isObject (Some aValue) = true ->
     isObject (Some bValue) = true -> recur aValue bValue <> None) ->
  loop_entries b recur l <> None.
Proof.
  induction l as [| [k v] l IH]; intros H; cbn [loop_entries];
    [discriminate |].
  assert (Hl : loop_entries b recur l <> None)
    by (apply IH; intros key aValue bValue Hin;
        apply (H key aValue bValue); now right).
  unfold visit.
  destruct (has ignoreKeys k); [exact Hl |].
  destruct (isObject (Some v) && isObject (get b k)) eqn:Hboth.
  - apply andb_prop in Hboth as [Ha Hb].
    destruct (get b k) as [bv |]; [| exact Hl].
    specialize (H k v bv (or_introl eq_refl) Ha Hb).
    destruct (recur v bv) as [[|] |]; congruence.
  - destruct (negb (strict_eq (Some v) (get b k))); [discriminate | exact Hl].
Qed.

Lemma isObject_keys (v : json) : isObject (Some v) = true -> keys v <> None.
Proof. destruct v; cbn; congruence. Qed.

Lemma diff_returns (a : json) :
  forall b, keys a <> None -> keys b <> None -> diff a b <> None.
Proof.
  assert (Hstep : forall a,
             (forall ea key aValue,
                entries a = Some ea -> In (key, aValue) ea ->
                isObject (Some aValue) = true ->
                forall b, keys b <> None -> diff aValue b <> None) ->
             forall b, keys a <> None -> keys b <> None -> diff a b <> None).
  { intros a0 Hrec b Ha Hb. rewrite diff_unfold.
    destruct (keys b) as [bKeys |]; [| congruence].
    unfold keys in Ha. destruct (entries a0) as [ea |] eqn:Hea;
      [| now cbn in Ha].
    destruct (negb (Nat.eqb (length ea) (length bKeys))); [discriminate |].
    apply loop_entries_returns. intros key aValue bValue Hin Hoa Hob.
    apply (Hrec ea key aValue eq_refl Hin Hoa). now apply isObject_keys. }
  induction a as [| x | x | s | elems IH | fields IH] using json_nested_ind;
    apply Hstep; intros ea key aValue Hea Hin Hobj.
  all: intros b Hb.
  all: refine (entries_values
                 (fun v => forall b, keys v <> None -> keys b <> None ->
                                     diff v b <> None)
                 _ ea _ Hea key aValue Hin Hobj b _ Hb);
    [first [exact I | exact IH] | now apply isObject_keys].
Qed.

(** Arrays are read by index. *)
Lemma get_array_index (l : list json) (i : nat) :
  get (JArr l) (index_key i) = nth_error l i.
Proof.
  unfold get. rewrite key_index_index_key.
  destruct (nth_error l i); [reflexivity |].
  destruct (String.eqb_spec (index_key i) "__proto__") as [E |];
    [| reflexivity].
  unfold index_key in E.
  assert (H : NilEmpty.uint_of_string "__proto__" = None) by reflexivity.
  rewrite <- E, NilEmpty.usu in H. discriminate.
Qed.

Lemma strict_eq_undefined (x : json) : strict_eq (Some x) None = false.
Proof. destruct x; reflexivity. Qed.

Lemma Forall2_nth_error {A : Type} (R : A -> A -> Prop) (l l' : list A) :
  length l = length l' ->
  (forall i x, nth_error l i = Some x ->
               exists y, nth_error l' i = Some y /\ R x y) ->
  Forall2 R l l'.
Proof.
  revert l'. induction l as [| x l IH]; intros [| y l'] Hlen H;
    try discriminate; constructor.
  - destruct (H 0 x eq_refl) as (y' & [= <-] & HR). exact HR.
  - apply IH; [cbn in Hlen; lia |].
    intros i z Hi. exact (H (S i) z Hi).
Qed.

Lemma diff_scalar_arrays (l l' : list json) :
  (forall x, In x l -> isObject (Some x) = false) ->
  diff (JArr l) (JArr l') = Some true ->
  Forall2 (fun x y => strict_eq (Some x) (Some y) = true) l l'.
Proof.
  intros Hscalar Hd. apply diff_true_iff in Hd.
  inversion Hd as [a b ea bKeys Hea Hkb Hlen Hall]; subst.
  cbn in Hea, Hkb. simplify_eq.
  rewrite length_map, !length_indexed in Hlen.
  apply Forall2_nth_error; [exact Hlen |].
  intros i x Hi.
  assert (Hin : In (index_key i, x) (indexed 0 l))
    by (apply In_indexed; exists i; auto).
  destruct (Hall _ _ Hin (index_key_not_ignored i))
    as [(Hobj & _) | (_ & Heq)].
  - rewrite Hscalar in Hobj by (eapply nth_error_In; eauto). discriminate.
  - rewrite get_array_index in Heq.
    destruct (nth_error l' i) as [y |]; [eauto |].
    rewrite strict_eq_undefined in Heq. discriminate.
Qed.

Lemma strictly_equal_permutation (l l' : list json) :
  Forall2 (fun x y => strict_eq (Some x) (Some y) = true) l l' ->
  Permutation l l' -> strictly_distinct l -> l = l'.
Proof.
  induction 1 as [| x y l l' Hxy HF IH]; intros Hperm Hdist; [reflexivity |].
  destruct Hdist as [Hx Hdist].
  assert (Hy : In y (x :: l))
    by (eapply Permutation_in; [symmetry; exact Hperm | now left]).
  destruct Hy as [<- | Hy].
  - f_equal. apply IH; [| exact Hdist].
    now apply Permutation_cons_inv in Hperm.
  - rewrite (Hx y Hy) in Hxy. discriminate.
Qed.

(** C3, as the code has it. [diff] returns [true] exactly on the trees
    that are [Equivalent]: as many keys at every level and, for every key
    of the first tree outside the ignored set, under that key two objects
    that are equivalent in turn or two values, not both objects, that are
    strictly equal; it returns on all trees but [null]; and arrays are
    compared index by index, so that two arrays of scalars, no two of them
    strictly equal, that are reorderings of each other and not the same
    are told apart. *)
Theorem diff_decides_equivalence :
  (forall a b, diff a b = Some true <-> Equivalent a b)
  /\ (forall a b, a <> JNull -> b <> JNull -> exists r, diff a b = Some r)
  /\ (forall l l',
        (forall x, In x l -> isObject (Some x) = false) ->
        Permutation l l' -> strictly_distinct l -> l <> l' ->
        diff (JArr l) (JArr l') = Some false).
Proof.
  split; [intros a b; apply diff_true_iff |].
  assert (Hret : forall a b, a <> JNull -> b <> JNull ->
                             exists r, diff a b = Some r).
  { intros a b Ha Hb.
    assert (Hk : forall v, v <> JNull -> keys v <> None)
      by (intros []; cbn; congruence).
    pose proof (diff_returns a b (Hk a Ha) (Hk b Hb)) as H.
    destruct (diff a b) as [r |]; [eauto | congruence]. }
  split; [exact Hret |].
  intros l l' Hscalar Hperm Hdist Hne.
  destruct (Hret (JArr l) (JArr l')) as ([|] & Hr); try discriminate;
    [| exact Hr].
  exfalso. apply Hne.
  apply strictly_equal_permutation; auto.
  now apply diff_scalar_arrays.
Qed.

Lemma diff_decides_equivalence_witness :
  diff (JArr [JStr "bot"; JStr "tab"]) (JArr [JStr "tab"; JStr "bot"])
  = Some false.
Proof.
  apply (proj2 (proj2 diff_decides_equivalence)).
  - intros x [<- | [<- | []]]; reflexivity.
  - apply perm_swap.
  - cbn. repeat split; try tauto. intros y [<- | []]. reflexivity.
  - discriminate.
Defined.

(** The claim of C3 fails on the code: [diff] returns [true] on two trees
    whose key sets differ, which the equivalence of the specification
    excludes, and on an array of two distinct objects and its reordering. *)
Lemma diff_key_sets_counterexample :
  (diff tree_with_name tree_with_version = Some true
   /\ ~ SpecEquivalent tree_with_name tree_with_version)
  /\ (diff two_tabs two_tabs_reordered = Some true
      /\ two_tabs <> two_tabs_reordered).
Proof.
  split; split.
  - reflexivity.
  - intros H. inversion H as [a b ea eb Hea Heb Hkeys _]; subst.
    cbn in Hea, Heb. simplify_eq.
    destruct (proj1 (Hkeys "name")) as [E | [E | []]];
      [cbn; auto | discriminate | discriminate].
  - reflexivity.
  - discriminate.
Qed.

(** ** The component identifier of an SPFx manifest *)

Lemma starts_with_append (l x : string) : starts_with l (l +:+ x) = true.
Proof.
  unfold starts_with.
  induction l as [| c l IH]; simpl; [reflexivity |].
  now rewrite Ascii.eqb_refl.
Qed.




Lemma span_id_run (id rest : string) :
  id_string id = true ->
  span_id (id +:+ "%26" +:+ rest) = (id, "%26" +:+ rest).
Proof.
  induction id as [| c id IH]; intros Hid; [reflexivity |].
  cbn [id_string] in Hid. apply andb_prop in Hid as [Hc Hid].
  simpl. rewrite Hc, IH by assumption. reflexivity.
Qed.






(** ** The environment config file after a failed run *)

Section EnvConfigKept.

Variables (env : Env) (p content : string).

Let K : State -> Prop := env_config_kept p content.

Lemma env_config_kept_stable : stable K.
Proof.
  intros st st' Hfs Hrm Hfl (H1 & H2 & H3). unfold K, env_config_kept.
  rewrite Hfs, Hrm, Hfl. auto.
Qed.

Lemma kept_fs (st : State) (files : FS) :
  K st ->
  files (nf p ".fx/configs/config.local.json")
  = fs st (nf p ".fx/configs/config.local.json") ->
  K (set_fs files st).
Proof.
  intros (H1 & H2 & H3) Hsame. unfold K, env_config_kept.
  cbn [fs fileList removeMap set_fs]. rewrite Hsame. auto.
Qed.

Lemma kept_push (rel : string) :
  rel = ".fx/configs/env.local.json"
  \/ rel = "templates/appPackage/template.manifest.json" ->
  preserves K (push (nf p rel)).
Proof.
  intros Hrel. apply preserves_modify. intros st (H1 & H2 & H3).
  unfold K, env_config_kept. cbn [fs fileList removeMap set_fileList].
  repeat split; auto.
  intros item Hin. apply in_app_or in Hin as [Hin | [<- | []]]; [auto |].
  destruct Hrel as [-> | ->]; auto.
Qed.

Lemma kept_moveToBackup (f : legacy_file) (name : string) :
  preserves K
    (moveToBackup env f (nf p (original_rel f)) (nf p (backup_rel f)) name).
Proof.
  unfold moveToBackup.
  apply preserves_bind.
  { apply preserves_fs_op. intros st files HK Heff.
    destruct (pathExists (fs st) (nf p (original_rel f))); [| discriminate].
    injection Heff as <-. apply kept_fs; [exact HK |].
    rewrite fs_copy_nf. destruct f; reflexivity. }
  intros _. apply preserves_bind.
  { apply preserves_fs_op. intros st files HK [= <-].
    apply kept_fs; [exact HK |].
    rewrite fs_remove_nf. destruct f; reflexivity. }
  intros _. apply preserves_bind;
    [apply stable_set_moveFiles, env_config_kept_stable | intros _].
  apply preserves_modify. intros st (H1 & H2 & H3).
  unfold K, env_config_kept. cbn [fs fileList removeMap set_removeMap].
  repeat split; auto.
  intros b o Hin. apply map_set_In in Hin as [[= -> ->] | Hin]; eauto.
Qed.

Lemma kept_guarded_move (f : legacy_file) (name : string) :
  preserves K
    (bind (read (fun st => pathExists (fs st) (nf p (original_rel f))))
       (fun found =>
          when found
            (moveToBackup env f (nf p (original_rel f))
               (nf p (backup_rel f)) name))).
Proof.
  apply preserves_bind; [apply preserves_read | intros found].
  apply preserves_when, kept_moveToBackup.
Qed.

Lemma kept_addConsolidateManifest (settings : ProjectSettings) :
  preserves K (addConsolidateManifest env p settings).
Proof.
  unfold addConsolidateManifest.
  apply preserves_bind; [apply preserves_read | intros found].
  apply preserves_bind;
    [| intros _; rewrite recorded_manifest_nf; apply kept_push; auto].
  apply preserves_when.
  destruct (isSPFxProject settings).
  - apply preserves_bind;
      [apply stable_sendTelemetryEvent, env_config_kept_stable | intros _].
    apply preserves_bind; [apply readFile_preserves | intros text].
    apply preserves_bind.
    { destruct (JSON_parse_manifest env text);
        [apply preserves_ret | apply preserves_raise]. }
    intros manifest.
    apply preserves_bind;
      [| intros _; apply stable_sendTelemetryEvent, env_config_kept_stable].
    apply preserves_fs_op. intros st files HK [= <-].
    apply kept_fs; [exact HK |].
    rewrite getManifestTemplatePath_nf, fs_set_nf. reflexivity.
  - apply preserves_bind;
      [apply stable_sendTelemetryEvent, env_config_kept_stable | intros _].
    apply preserves_bind;
      [| intros _; apply stable_sendTelemetryEvent, env_config_kept_stable].
    apply preserves_fs_op. intros st files HK Heff.
    destruct (fs st (remoteManifestFile p)) as [[c |] |]; try discriminate.
    injection Heff as <-. apply kept_fs; [exact HK |].
    rewrite getManifestTemplatePath_nf, fs_set_nf. reflexivity.
Qed.

(** The steps of the [try] block that follow the writing of the
    environment config file. *)
Lemma kept_after_addLocalEnvironment (inputs : Inputs)
    (settings : ProjectSettings) :
  preserves K
    (addConsolidateManifest env p settings ;;
     backupLocalSettings env p ;;
     compareManifests env p ;;
     backupLocalManifest env p ;;
     backupRemoteManifest env p ;;
     sendTelemetryEvent ProjectConsolidateBackupConfig None ;;
     sendTelemetryEvent ProjectConsolidateUpgrade None ;;
     moved <- read moveFiles ;;
     detached (postConsolidate env p inputs (Some backupFolder) moved)).
Proof.
  apply preserves_bind; [apply kept_addConsolidateManifest | intros _].
  apply preserves_bind.
  { unfold backupLocalSettings.
    apply preserves_bind;
      [apply stable_sendTelemetryEvent, env_config_kept_stable | intros _].
    apply preserves_bind.
    { apply preserves_modify. intros st HK. revert HK.
      now apply env_config_kept_stable. }
    intros _. rewrite localSettingsFile_nf, backupLocalSettings_nf.
    apply kept_guarded_move. }
  intros _.
  apply preserves_bind;
    [apply stable_compareManifests, env_config_kept_stable | intros _].
  apply preserves_bind.
  { unfold backupLocalManifest.
    rewrite localManifestFile_nf, backupLocalManifest_nf.
    apply kept_guarded_move. }
  intros _.
  apply preserves_bind.
  { unfold backupRemoteManifest.
    rewrite remoteManifestFile_nf, backupRemoteManifest_nf.
    apply kept_guarded_move. }
  intros _.
  apply preserves_bind;
    [apply stable_sendTelemetryEvent, env_config_kept_stable | intros _].
  apply preserves_bind;
    [apply stable_sendTelemetryEvent, env_config_kept_stable | intros _].
  apply preserves_bind; [apply preserves_read | intros moved].
  apply stable_postConsolidate, env_config_kept_stable.
Qed.

Lemma kept_restore (f : legacy_file) :
  preserves K
    (copy env (AtRestore (nf p (backup_rel f))) (nf p (backup_rel f))
       (nf p (original_rel f))).
Proof.
  apply preserves_fs_op. intros st files HK Heff.
  destruct (pathExists (fs st) (nf p (backup_rel f))); [| discriminate].
  injection Heff as <-. apply kept_fs; [exact HK |].
  rewrite fs_copy_nf. destruct f; reflexivity.
Qed.

Lemma kept_remove_recorded (rel : string) :
  rel = ".fx/configs/env.local.json"
  \/ rel = "templates/appPackage/template.manifest.json" ->
  preserves K (remove env (AtRollbackRemove (nf p rel)) (nf p rel)).
Proof.
  intros Hrel. apply preserves_fs_op. intros st files HK [= <-].
  apply kept_fs; [exact HK |].
  rewrite fs_remove_nf. destruct Hrel as [-> | ->]; reflexivity.
Qed.

(** The [catch] block deletes the paths of [fileList], not the environment
    config file. *)
Lemma kept_rollback (e : exn) : preserves K (rollback env p e).
Proof.
  unfold rollback.
  apply preserves_bind_read. intros restores (st0 & (_ & _ & Hshape) & ->).
  apply preserves_bind.
  { apply preserves_forM. intros [b o] Hin.
    destruct (Hshape b o Hin) as (f & -> & ->). apply kept_restore. }
  intros _.
  apply preserves_bind_read. intros created (st1 & (_ & Hlist & _) & ->).
  apply preserves_bind.
  { apply preserves_forM. intros item Hin.
    destruct (Hlist item Hin) as [-> | ->]; apply kept_remove_recorded; auto. }
  intros _.
  apply preserves_bind; [| intros _; apply preserves_raise].
  apply preserves_fs_op. intros st files HK [= <-].
  apply kept_fs; [exact HK |].
  rewrite backupPath_nf, fs_remove_nf. reflexivity.
Qed.

(** The [try] block, once the environment config file can be written. *)
Lemma kept_transform (inputs : Inputs) (settings : ProjectSettings) :
  faults env AtWriteEnvConfig = false ->
  content = newEnvConfigData env (getLocalAppName env (appName settings)) ->
  hoare (fun st => fileList st = [] /\ removeMap st = [])
    (transform env p inputs settings) (fun _ => K) K.
Proof.
  intros Hwrite Hcontent. unfold transform.
  apply hoare_bind with (Q := fun _ => K).
  - intros st [Hfl Hrm].
    unfold addLocalEnvironment, sendTelemetryEvent, push, writeEnvConfig,
      bind, modify.
    rewrite Hwrite.
    cbn [fs fileList removeMap add_event set_fileList set_fs fst snd].
    unfold K, env_config_kept.
    cbn [fs fileList removeMap add_event set_fileList set_fs].
    rewrite Hfl, Hrm, envConfig_nf, recorded_envConfig_nf, <- Hcontent.
    unfold fs_set. rewrite String.eqb_refl.
    repeat split; auto.
    + intros item [<- | []]. auto.
    + intros ? ? [].
  - intros _. apply (kept_after_addLocalEnvironment inputs settings).
Qed.

(** The [try] block with its [catch] block: if an error comes out, the
    file is there. *)
Lemma kept_try (inputs : Inputs) (settings : ProjectSettings) :
  faults env AtWriteEnvConfig = false ->
  content = newEnvConfigData env (getLocalAppName env (appName settings)) ->
  hoare (fun st => fileList st = [] /\ removeMap st = [])
    (tryCatch (transform env p inputs settings) (rollback env p))
    (fun _ _ => True) K.
Proof.
  intros Hwrite Hcontent.
  apply hoare_tryCatch with (E' := K).
  - eapply hoare_weaken; [now apply (kept_transform inputs settings) | | |];
      auto.
  - intros e. eapply hoare_weaken; [apply (kept_rollback e) | | |]; auto.
Qed.

End EnvConfigKept.

(** What [consolidateLocalRemote] ends in when it throws is what its [try]
    block with its [catch] block ends in. *)
Lemma consolidateLocalRemote_outcome (env : Env) (ctx : CoreHookContext)
    (st : State) (a : Arg) (p : string) (settings : ProjectSettings)
    (E : State -> Prop) :
  lookupInputs ctx = Some a ->
  projectPath (asInputs a) = Some p ->
  loadProjectSettings env (fs st) (asInputs a) = inr settings ->
  hoare (fun s => fs s = fs st /\ fileList s = [] /\ removeMap s = [])
    (tryCatch (transform env p (asInputs a) settings) (rollback env p))
    (fun _ _ => True) E ->
  hoare (fun s => s = st) (consolidateLocalRemote env ctx) (fun _ _ => True) E.
Proof.
  intros Ha Hp Hload Htry.
  unfold consolidateLocalRemote. rewrite Ha.
  apply hoare_bind with (Q := fun _ s => fs s = fs st).
  { intros s ->. reflexivity. }
  intros _.
  apply hoare_bind with (Q := fun _ s => fs s = fs st /\ fileList s = []).
  { intros s Hs. cbn. auto. }
  intros _.
  apply hoare_bind
    with (Q := fun _ s => fs s = fs st /\ fileList s = [] /\ removeMap s = []).
  { intros s [Hs Hf]. cbn. auto. }
  intros _.
  apply hoare_bind
    with (Q := fun x s => x = fs st
                          /\ (fs s = fs st /\ fileList s = []
                              /\ removeMap s = [])).
  { intros s (Hs & Hf & Hr). cbn. auto. }
  intros files. apply hoare_assume. intros ->.
  cbv zeta. rewrite Hload, Hp.
  apply hoare_bind with (Q := fun _ _ => True); [exact Htry |].
  intros _ s _. unfold bind. rewrite detached_last_await. reflexivity.
Qed.

Lemma consolidateLocalRemote_throws_kept (env : Env) (ctx : CoreHookContext)
    (st : State) (a : Arg) (p : string) (settings : ProjectSettings) :
  lookupInputs ctx = Some a ->
  projectPath (asInputs a) = Some p ->
  loadProjectSettings env (fs st) (asInputs a) = inr settings ->
  faults env AtWriteEnvConfig = false ->
  hoare (fun s => s = st) (consolidateLocalRemote env ctx) (fun _ _ => True)
    (env_config_kept p
       (newEnvConfigData env (getLocalAppName env (appName settings)))).
Proof.
  intros Ha Hp Hload Hwrite.
  apply (consolidateLocalRemote_outcome env ctx st a p settings); auto.
  eapply hoare_weaken; [now apply kept_try | | |]; cbn; intuition.
Qed.

(** C1, where the code departs from it. Whenever [consolidateLocalRemote]
    throws after it has written the environment config file, the file is
    still on disk when the error reaches the caller: the [catch] block
    deletes the paths of [fileList], where the run recorded
    [.fx/configs/env.local.json], and the file was written at
    [.fx/configs/config.local.json]. *)
Theorem failed_run_leaves_env_config :
  forall (env : Env) (ctx : CoreHookContext) (st : State) (a : Arg)
         (p : string) (settings : ProjectSettings) (e : exn),
    lookupInputs ctx = Some a ->
    projectPath (asInputs a) = Some p ->
    loadProjectSettings env (fs st) (asInputs a) = inr settings ->
    faults env AtWriteEnvConfig = false ->
    snd (consolidateLocalRemote env ctx st) = inl e ->
    fs (fst (consolidateLocalRemote env ctx st))
      (path_join [p; ".fx"; "configs"; "config.local.json"])
    = Some (File (newEnvConfigData env
                    (getLocalAppName env (appName settings))))
    /\ path_join [p; ".fx"; "configs"; "config.local.json"]
       <> path_join [p; ".fx"; "configs"; "env.local.json"]
    /\ (forall item,
          In item (fileList (fst (consolidateLocalRemote env ctx st))) ->
          item <> path_join [p; ".fx"; "configs"; "config.local.json"]).
Proof.
  intros env ctx st a p settings e Ha Hp Hload Hwrite Hthrows.
  pose proof (consolidateLocalRemote_throws_kept env ctx st a p settings
                Ha Hp Hload Hwrite st eq_refl) as HK.
  destruct (consolidateLocalRemote env ctx st) as [st' [e' | r]];
    cbn [fst snd] in *; [| discriminate].
  destruct HK as (Hfile & Hlist & _).
  assert (Hne : path_join [p; ".fx"; "configs"; "config.local.json"]
                <> path_join [p; ".fx"; "configs"; "env.local.json"]).
  { rewrite envConfig_nf, recorded_envConfig_nf. intros H.
    apply nf_inj in H. discriminate. }
  rewrite envConfig_nf. split; [exact Hfile |]. split.
  - now rewrite <- envConfig_nf.
  - intros item Hin Heq. subst item.
    destruct (Hlist _ Hin) as [H | H]; apply nf_inj in H; discriminate.
Qed.

(** The run of C1 on the sample project: the copy of the local manifest
    into the backup folder is rejected, after the local settings were moved.
    The error is rethrown, the local settings are back and the backup folder
    is gone; the environment config file and the unified manifest stay. *)
Lemma failed_run_leaves_env_config_witness :
  let env := sample_env local_manifest_copy_rejected false None in
  let st := initial_state sample_project in
  let r := consolidateLocalRemote env sample_ctx st in
  (lookupInputs sample_ctx = Some (ArgInputs sample_inputs)
   /\ faults env AtWriteEnvConfig = false
   /\ snd r = inl (IOFailure (AtBackupCopy LocalManifest)))
  /\ (fs (fst r) "/proj/.fx/configs/localSettings.json"
      = Some (File "local settings")
      /\ fs (fst r) "/proj/.backup/.fx/configs/localSettings.json" = None
      /\ fileList (fst r)
         = ["/proj/.fx/configs/env.local.json";
            "/proj/templates/appPackage/template.manifest.json"]
      /\ fs st "/proj/.fx/configs/config.local.json" = None
      /\ fs (fst r) "/proj/templates/appPackage/manifest.template.json"
         = Some (File "remote manifest"))
  /\ fs (fst r) "/proj/.fx/configs/config.local.json"
     = Some (File "env config of myapp-local-debug").
Proof.
  cbv zeta.
  assert (Hthrows : snd (consolidateLocalRemote
                           (sample_env local_manifest_copy_rejected false None)
                           sample_ctx (initial_state sample_project))
                    = inl (IOFailure (AtBackupCopy LocalManifest)))
    by (vm_compute; reflexivity).
  split; [repeat split; exact Hthrows |].
  split; [repeat split; vm_compute; reflexivity |].
  exact (proj1 (failed_run_leaves_env_config
                  (sample_env local_manifest_copy_rejected false None)
                  sample_ctx (initial_state sample_project)
                  (ArgInputs sample_inputs) "/proj" (mkSettings "myapp" false)
                  (IOFailure (AtBackupCopy LocalManifest))
                  eq_refl eq_refl eq_refl eq_refl Hthrows)).
Defined.

(** ** The legacy files after a failed run *)

Lemma hoare_conj {A : Type} (P1 P2 : State -> Prop) (c : M A)
    (Q1 Q2 : A -> State -> Prop) (E1 E2 : State -> Prop) :
  hoare P1 c Q1 E1 -> hoare P2 c Q2 E2 ->
  hoare (fun st => P1 st /\ P2 st) c (fun x st => Q1 x st /\ Q2 x st)
    (fun st => E1 st /\ E2 st).
Proof.
  intros H1 H2 st [HP1 HP2]. specialize (H1 st HP1). specialize (H2 st HP2).
  destruct (c st) as [st' [e | x]]; auto.
Qed.

Lemma hoare_bind_read {A B : Type} (P : State -> Prop) (f : State -> A)
    (k : A -> M B) (Q : B -> State -> Prop) (E : State -> Prop) :
  (forall x, (exists st, P st /\ x = f st) ->
             hoare (fun st => P st /\ x = f st) (k x) Q E) ->
  hoare P (bind (read f) k) Q E.
Proof.
  intros H st HP. unfold bind, read. apply (H (f st)); eauto.
Qed.

Section Restore.

Variables (env : Env) (p content : string) (files0 : FS).

Hypothesis restore_accepted : forall backup, faults env (AtRestore backup) = false.

Lemma copy_back_own (f : legacy_file) (F : FS) :
  F (nf p (backup_rel f)) <> None ->
  fs_copy (nf p (backup_rel f)) (nf p (original_rel f)) F
    (nf p (original_rel f)) = F (nf p (backup_rel f)).
Proof.
  intros H. unfold fs_copy, relocate. rewrite String.eqb_refl.
  destruct (F (nf p (backup_rel f))); congruence.
Qed.

Lemma copy_back_other (f f' : legacy_file) (F : FS) :
  f <> f' ->
  fs_copy (nf p (backup_rel f)) (nf p (original_rel f)) F
    (nf p (original_rel f')) = F (nf p (original_rel f')).
Proof.
  intros H. rewrite fs_copy_nf.
  destruct f, f'; try congruence; reflexivity.
Qed.

Lemma copy_back_backup (f f' : legacy_file) (F : FS) :
  fs_copy (nf p (backup_rel f)) (nf p (original_rel f)) F
    (nf p (backup_rel f')) = F (nf p (backup_rel f')).
Proof. rewrite fs_copy_nf. destruct f, f'; reflexivity. Qed.

(** Copying one recorded backup to its original path. *)
Lemma restore_entry (f : legacy_file) (done : list (string * string)) :
  hoare
    (fun st =>
       restorable p files0 st
       /\ In (nf p (backup_rel f), nf p (original_rel f)) (removeMap st)
       /\ (forall b o, In (b, o) done -> In (b, o) (removeMap st))
       /\ restored_of files0 done st)
    (copy env (AtRestore (nf p (backup_rel f))) (nf p (backup_rel f))
       (nf p (original_rel f)))
    (fun _ st =>
       restorable p files0 st
       /\ restored_of files0
            (done ++ [(nf p (backup_rel f), nf p (original_rel f))]) st)
    (fun _ => False).
Proof.
  intros st ((H1 & H2) & Hin & Hsub & Hdone).
  destruct (H1 _ _ Hin) as (f0 & Eb & Eo & Hb & Hsome).
  apply nf_inj in Eo.
  assert (f0 = f) by (destruct f, f0; try discriminate Eo; reflexivity).
  subst f0. clear Eb Eo.
  assert (Hex : fs st (nf p (backup_rel f)) <> None) by congruence.
  unfold copy, fs_op. rewrite restore_accepted.
  unfold pathExists. destruct (fs st (nf p (backup_rel f))) as [n |] eqn:Hn;
    [| congruence].
  assert (Hown : fs_copy (nf p (backup_rel f)) (nf p (original_rel f)) (fs st)
                   (nf p (original_rel f))
                 = files0 (nf p (original_rel f))).
  { rewrite copy_back_own by congruence. congruence. }
  split; [split |].
  - intros b o Hbo. cbn [removeMap fs set_fs] in *.
    destruct (H1 b o Hbo) as (f' & -> & -> & Hc & Hs).
    exists f'. repeat split; auto. now rewrite copy_back_backup.
  - intros f'. cbn [removeMap fs set_fs].
    destruct (legacy_file_eq_dec f f') as [<- | Hne].
    + left. exact Hown.
    + rewrite copy_back_other by assumption. apply H2.
  - intros b o Hbo. cbn [fs set_fs].
    apply in_app_or in Hbo as [Hbo | [[= <- <-] | []]]; [| exact Hown].
    destruct (H1 b o (Hsub b o Hbo)) as (f' & -> & -> & _ & _).
    destruct (legacy_file_eq_dec f f') as [<- | Hne]; [exact Hown |].
    rewrite copy_back_other by assumption. exact (Hdone _ _ Hbo).
Qed.

(** The first loop of the [catch] block. *)
Lemma restore_all (l : list (string * string)) :
  forall (recorded done : list (string * string)),
    (forall b o, In (b, o) l -> In (b, o) recorded) ->
    (forall b o, In (b, o) done -> In (b, o) recorded) ->
    hoare
      (fun st => restorable p files0 st /\ removeMap st = recorded
                 /\ restored_of files0 done st)
      (forM l
         (fun item => copy env (AtRestore (fst item)) (fst item) (snd item)))
      (fun _ st => restorable p files0 st /\ removeMap st = recorded
                   /\ restored_of files0 (done ++ l) st)
      (fun _ => False).
Proof.
  induction l as [| [b o] l IH]; intros recorded done Hl Hdone.
  - cbn [forM]. apply hoare_ret. intros st (HR & Hrm & Hd).
    now rewrite app_nil_r.
  - cbn [forM fst snd].
    apply hoare_bind
      with (Q := fun _ st => restorable p files0 st /\ removeMap st = recorded
                             /\ restored_of files0 (done ++ [(b, o)]) st).
    + intros st (HR & Hrm & Hd).
      assert (Hin : In (b, o) (removeMap st))
        by (rewrite Hrm; apply Hl; now left).
      destruct (proj1 HR b o Hin) as (f & -> & -> & _ & _).
      pose proof (restore_entry f done st) as Hentry.
      assert (Hpre : restorable p files0 st
                     /\ In (nf p (backup_rel f), nf p (original_rel f))
                          (removeMap st)
                     /\ (forall b o, In (b, o) done -> In (b, o) (removeMap st))
                     /\ restored_of files0 done st).
      { repeat split; try apply HR; auto. rewrite Hrm. exact Hdone. }
      specialize (Hentry Hpre).
      unfold copy, fs_op in *.
      destruct (faults env (AtRestore (nf p (backup_rel f)))); [exact Hentry |].
      destruct (pathExists (fs st) (nf p (backup_rel f)));
        [| exact Hentry].
      cbn [removeMap set_fs] in *. tauto.
    + intros _.
      eapply hoare_weaken;
        [apply (IH recorded (done ++ [(b, o)])) | | |]; auto.
      * intros b' o' Hin. apply Hl. now right.
      * intros b' o' Hin. apply in_app_or in Hin as [Hin | [[= <- <-] | []]];
          [now apply Hdone | apply Hl; now left].
      * intros _ st (HR & Hrm & Hd). repeat split; try apply HR; auto.
        now rewrite <- app_assoc in Hd.
Qed.

Let J : State -> Prop :=
  fun st => env_config_kept p content st /\ legacy_files_restored p files0 st.

Lemma restored_fs (st : State) (files : FS) :
  legacy_files_restored p files0 st ->
  (forall f, files (nf p (original_rel f)) = fs st (nf p (original_rel f))) ->
  legacy_files_restored p files0 (set_fs files st).
Proof.
  intros H Hsame f. cbn [fs set_fs]. rewrite Hsame. apply H.
Qed.

Lemma preserves_conj {A : Type} (I1 I2 : State -> Prop) (c : M A) :
  preserves I1 c -> preserves I2 c ->
  preserves (fun st => I1 st /\ I2 st) c.
Proof. intros H1 H2. exact (hoare_conj I1 I2 c _ _ I1 I2 H1 H2). Qed.

(** The rest of the [catch] block leaves the legacy files alone. *)
Lemma restored_cleanup (e : exn) :
  preserves J
    (created <- read fileList ;;
     forM created (fun item => remove env (AtRollbackRemove item) item) ;;
     remove env AtRollbackRemoveBackup (path_join [p; backupFolder]) ;;
     @raise unit e).
Proof.
  apply preserves_bind_read.
  intros created (st1 & ((_ & Hlist & _) & _) & ->).
  apply preserves_bind.
  { apply preserves_forM. intros item Hin. apply preserves_conj.
    - destruct (Hlist item Hin) as [-> | ->];
        apply kept_remove_recorded; auto.
    - apply preserves_fs_op. intros st files HR [= <-].
      apply restored_fs; [exact HR |]. intros f.
      destruct (Hlist item Hin) as [-> | ->]; rewrite fs_remove_nf;
        destruct f; reflexivity. }
  intros _.
  apply preserves_bind; [| intros _; apply preserves_raise].
  apply preserves_conj.
  - apply preserves_fs_op. intros st files HK [= <-].
    apply kept_fs; [exact HK |].
    rewrite backupPath_nf, fs_remove_nf. reflexivity.
  - apply preserves_fs_op. intros st files HR [= <-].
    apply restored_fs; [exact HR |]. intros f.
    rewrite backupPath_nf, fs_remove_nf. destruct f; reflexivity.
Qed.

(** The [catch] block from a state of the [try] block. *)
Lemma restored_rollback (e : exn) :
  hoare
    (fun st => env_config_kept p content st /\ restorable p files0 st)
    (rollback env p e) (fun _ _ => True) (legacy_files_restored p files0).
Proof.
  unfold rollback. apply hoare_bind_read.
  intros recorded (st0 & ((_ & _ & Hshape) & _) & ->).
  apply hoare_bind with (Q := fun _ => J).
  - eapply hoare_weaken.
    + apply hoare_conj.
      * apply (restore_all (removeMap st0) (removeMap st0) []); auto.
        intros ? ? [].
      * apply (preserves_forM (env_config_kept p content)).
        intros [b o] Hin. destruct (Hshape b o Hin) as (f & -> & ->).
        apply kept_restore.
    + cbn beta. intros st ((HK & HR) & E).
      split; [| exact HK]. split; [exact HR |]. split; [now symmetry |].
      intros ? ? [].
    + cbn beta. intros _ st ((HR & Hrm & Hdone) & HK). split; [exact HK |].
      intros f. destruct (proj2 HR f) as [H | [_ Hin]]; [exact H |].
      rewrite Hrm in Hin. exact (Hdone _ _ Hin).
    + cbn beta. intros st [[] _].
  - intros _. eapply hoare_weaken; [apply (restored_cleanup e) | | |]; auto.
    intros st [_ H]. exact H.
Qed.

(** A run whose environment config file is rejected has recorded nothing
    when its [catch] block starts. *)
Lemma transform_write_rejected (inputs : Inputs) (settings : ProjectSettings) :
  faults env AtWriteEnvConfig = true ->
  hoare
    (fun st => fs st = files0 /\ fileList st = [] /\ removeMap st = [])
    (transform env p inputs settings) (fun _ _ => False)
    (fun st => fs st = files0 /\ fileList st = [] /\ removeMap st = []).
Proof.
  intros Hwrite st H.
  unfold transform, addLocalEnvironment, sendTelemetryEvent, writeEnvConfig,
    bind, modify, raise.
  cbn. rewrite Hwrite. cbn. exact H.
Qed.

Lemma rollback_nothing_recorded (e : exn) :
  hoare
    (fun st => fs st = files0 /\ fileList st = [] /\ removeMap st = [])
    (rollback env p e) (fun _ _ => True) (legacy_files_restored p files0).
Proof.
  intros st (Hfs & Hfl & Hrm).
  unfold rollback, bind, read. rewrite Hrm. cbn [forM]. unfold ret.
  rewrite Hfl. cbn [forM]. unfold remove, fs_op, raise.
  destruct (faults env AtRollbackRemoveBackup).
  - intros f. now rewrite Hfs.
  - intros f. cbn [fs set_fs]. rewrite backupPath_nf, fs_remove_nf, Hfs.
    destruct f; reflexivity.
Qed.

(** The [try] block with its [catch] block. *)
Lemma restored_try (inputs : Inputs) (settings : ProjectSettings) :
  content = newEnvConfigData env (getLocalAppName env (appName settings)) ->
  hoare
    (fun st => fs st = files0 /\ fileList st = [] /\ removeMap st = [])
    (tryCatch (transform env p inputs settings) (rollback env p))
    (fun _ _ => True) (legacy_files_restored p files0).
Proof.
  intros Hcontent.
  destruct (faults env AtWriteEnvConfig) eqn:Hwrite.
  - apply hoare_tryCatch
      with (E' := fun st => fs st = files0 /\ fileList st = []
                            /\ removeMap st = []).
    + eapply hoare_weaken;
        [apply (transform_write_rejected inputs settings Hwrite) | | |];
        cbn beta; auto.
    + apply rollback_nothing_recorded.
  - apply hoare_tryCatch
      with (E' := fun st => env_config_kept p content st
                            /\ restorable p files0 st).
    + eapply hoare_weaken.
      * apply hoare_conj;
          [apply (kept_transform env p content inputs settings Hwrite Hcontent)
          | apply (transform_restorable p files0 env inputs settings)].
      * cbn beta. intros st (Hfs & Hfl & Hrm).
        split; [auto | now apply restorable_start].
      * auto.
      * cbn beta. auto.
    + apply restored_rollback.
Qed.

End Restore.

(** X1. The rollback restores the legacy files. Whenever
    [consolidateLocalRemote]
    throws and no copy of a backup to its original path was rejected, the
    legacy local settings, local manifest and remote manifest hold at their
    original paths what they held when the run started, whichever operation
    of the [try] block failed. *)
Theorem failed_run_restores_legacy_files :
  forall (env : Env) (ctx : CoreHookContext) (st : State) (a : Arg)
         (p : string) (settings : ProjectSettings) (e : exn),
    lookupInputs ctx = Some a ->
    projectPath (asInputs a) = Some p ->
    loadProjectSettings env (fs st) (asInputs a) = inr settings ->
    (forall backup, faults env (AtRestore backup) = false) ->
    snd (consolidateLocalRemote env ctx st) = inl e ->
    legacy_files_restored p (fs st) (fst (consolidateLocalRemote env ctx st)).
Proof.
  intros env ctx st a p settings e Ha Hp Hload Hrestore Hthrows.
  pose proof (consolidateLocalRemote_outcome env ctx st a p settings
                (legacy_files_restored p (fs st)) Ha Hp Hload
                (restored_try env p _ (fs st) Hrestore (asInputs a) settings
                   eq_refl)
                st eq_refl) as H.
  destruct (consolidateLocalRemote env ctx st) as [st' [e' | r]];
    cbn [fst snd] in *; [exact H | discriminate].
Qed.

(** On the sample project, with the copy of the local manifest into the
    backup folder rejected: the three legacy files are where they were. *)
Lemma failed_run_restores_legacy_files_witness :
  let env := sample_env local_manifest_copy_rejected false None in
  let st := initial_state sample_project in
  let r := consolidateLocalRemote env sample_ctx st in
  (lookupInputs sample_ctx = Some (ArgInputs sample_inputs)
   /\ snd r = inl (IOFailure (AtBackupCopy LocalManifest)))
  /\ legacy_files_restored "/proj" (fs st) (fst r).
Proof.
  cbv zeta.
  assert (Hthrows : snd (consolidateLocalRemote
                           (sample_env local_manifest_copy_rejected false None)
                           sample_ctx (initial_state sample_project))
                    = inl (IOFailure (AtBackupCopy LocalManifest)))
    by (vm_compute; reflexivity).
  split; [split; [reflexivity | exact Hthrows] |].
  exact (failed_run_restores_legacy_files
           (sample_env local_manifest_copy_rejected false None)
           sample_ctx (initial_state sample_project)
           (ArgInputs sample_inputs) "/proj" (mkSettings "myapp" false)
           (IOFailure (AtBackupCopy LocalManifest))
           eq_refl eq_refl eq_refl (fun _ => eq_refl) Hthrows).
Defined.

(** ** The latch over a sequence of intercepted calls *)

Lemma method_listed_truthy (m : option string) :
  method_listed m = true -> truthy m = true.
Proof.
  destruct m as [s |]; [| discriminate]. cbn.
  destruct (String.eqb_spec s ""); [subst; discriminate | reflexivity].
Qed.

(** One call: it is refused exactly when it is allow-listed and the latch
    is set, and it leaves the latch at whether it is allow-listed. *)
Lemma checkMethod_step (ctx : CoreHookContext) (st : State) :
  exists st',
    checkMethod ctx st
    = (st', inr (negb (method_listed (method ctx) && userCancelFlag st)))
    /\ userCancelFlag st' = method_listed (method ctx)
    /\ fs st' = fs st /\ events st' = events st /\ result st' = result st.
Proof.
  unfold checkMethod.
  destruct (method_listed (method ctx)) eqn:Hl.
  - rewrite (method_listed_truthy _ Hl). cbn.
    destruct (userCancelFlag st) eqn:Hf; cbn; eexists; repeat split; auto.
  - rewrite andb_false_r. cbn. eexists; repeat split; auto.
Qed.

(** X2. In any sequence of intercepted calls, [checkMethod] never throws,
    the first call is refused exactly when it is allow-listed and the latch
    was set, and every later call exactly when both it and the call just
    before it are allow-listed: a call outside the allow-list releases the
    latch. Nothing but the latch is changed. *)
Theorem checkMethod_sequence :
  forall (ctxs : list CoreHookContext) (st : State),
    exists st' answers,
      mapM checkMethod ctxs st = (st', inr answers)
      /\ length answers = length ctxs
      /\ (forall c,
            nth_error ctxs 0 = Some c ->
            nth_error answers 0
            = Some (negb (method_listed (method c) && userCancelFlag st)))
      /\ (forall i c1 c2,
            nth_error ctxs i = Some c1 ->
            nth_error ctxs (S i) = Some c2 ->
            nth_error answers (S i)
            = Some (negb (method_listed (method c1)
                          && method_listed (method c2))))
      /\ fs st' = fs st /\ events st' = events st /\ result st' = result st.
Proof.
  induction ctxs as [| c ctxs IH]; intros st.
  - exists st, []. cbn. repeat split; auto.
    + intros c H. discriminate.
    + intros i c1 c2 H. destruct i; discriminate.
  - destruct (checkMethod_step c st) as (st1 & Hc & Hflag & Hfs & Hev & Hres).
    destruct (IH st1) as (st' & answers & Hrun & Hlen & Hfirst & Hnext & Hfs'
                          & Hev' & Hres').
    exists st', (negb (method_listed (method c) && userCancelFlag st) :: answers).
    split.
    { cbn [mapM]. unfold bind at 1. rewrite Hc. unfold bind at 1.
      rewrite Hrun. reflexivity. }
    split; [cbn; congruence |].
    split; [intros c0 [= <-]; reflexivity |].
    split; [| repeat split; congruence].
    intros i c1 c2 H1 H2. destruct i as [| i].
    + cbn in H1. injection H1 as <-.
      change (nth_error answers 0
              = Some (negb (method_listed (method c)
                            && method_listed (method c2)))).
      change (nth_error ctxs 0 = Some c2) in H2.
      rewrite (Hfirst c2 H2), Hflag, andb_comm. reflexivity.
    + exact (Hnext i c1 c2 H1 H2).
Qed.

(** ** The diff of a tree with itself *)

Lemma has_In (l : list string) (k : string) : has l k = true <-> In k l.
Proof.
  unfold has. rewrite existsb_exists. split.
  - intros (x & Hin & Heq). apply String.eqb_eq in Heq. now subst.
  - intros Hin. exists k. split; [exact Hin | apply String.eqb_refl].
Qed.

Lemma assoc_distinct (fields : list (string * json)) (key : string)
    (v : json) :
  distinct (map fst fields) = true -> In (key, v) fields ->
  assoc key fields = Some v.
Proof.
  induction fields as [| [k w] fields IH]; intros Hd Hin; [destruct Hin |].
  cbn in Hd. apply andb_true_iff in Hd as [Hk Hd]. cbn [assoc].
  destruct Hin as [[= -> ->] | Hin].
  - now rewrite String.eqb_refl.
  - destruct (String.eqb_spec k key) as [-> | Hne]; [| now apply IH].
    apply negb_true_iff in Hk.
    assert (Hhas : has (map fst fields) key = true)
      by (apply has_In, in_map_iff; exists (key, v); auto).
    congruence.
Qed.

Lemma get_sequence_index (l : list json) (i : nat) (v : json) :
  nth_error l i = Some v ->
  match key_index (index_key i) with
  | Some i0 =>
      match nth_error l i0 with
      | Some v0 => Some v0
      | None => if String.eqb (index_key i) "__proto__" then Some (JObj []) else None
      end
  | None =>
      if String.eqb (index_key i) "length"
      then Some (JNum (float_of_nat (length l)))
      else if String.eqb (index_key i) "__proto__" then Some (JObj []) else None
  end = Some v.
Proof. intros H. now rewrite key_index_index_key, H. Qed.

(** Reading back a property that [Object.entries] lists. *)
Lemma get_own (a : json) (ea : list (string * json)) (key : string)
    (v : json) :
  well_formed a = true -> entries a = Some ea -> In (key, v) ea ->
  get a key = Some v.
Proof.
  intros Hwf He Hin. destruct a; cbn in He; try discriminate;
    injection He as <-; try (now destruct Hin).
  - apply In_indexed in Hin as (i & -> & Hnth). cbn [get Nat.add].
    now apply get_sequence_index.
  - apply In_indexed in Hin as (i & -> & Hnth). cbn [get Nat.add].
    now apply get_sequence_index.
  - cbn in Hwf. apply andb_true_iff in Hwf as [Hd _]. cbn [get].
    now rewrite (assoc_distinct _ _ _ Hd Hin).
Qed.

Lemma strict_eq_refl (v : json) :
  well_formed v = true -> isObject (Some v) = false ->
  strict_eq (Some v) (Some v) = true.
Proof.
  destruct v; cbn; intros Hwf Hobj; try reflexivity; try discriminate.
  - now destruct b.
  - exact Hwf.
  - apply String.eqb_refl.
Qed.

Lemma well_formed_entries (a : json) (ea : list (string * json))
    (key : string) (v : json) :
  well_formed a = true -> entries a = Some ea -> In (key, v) ea ->
  well_formed v = true.
Proof.
  intros Hwf He Hin. destruct a; cbn in He; try discriminate;
    injection He as <-; try (now destruct Hin).
  - apply In_indexed in Hin as (i & _ & Hnth). apply nth_error_In in Hnth.
    clear -Hnth. induction s as [| c s IH]; [destruct Hnth |].
    destruct Hnth as [<- | H]; [reflexivity | now apply IH].
  - apply In_indexed in Hin as (i & _ & Hnth). apply nth_error_In in Hnth.
    cbn in Hwf. rewrite forallb_forall in Hwf. now apply Hwf.
  - cbn in Hwf. apply andb_true_iff in Hwf as [_ Hall].
    rewrite forallb_forall in Hall. exact (Hall (key, v) Hin).
Qed.

Lemma Equivalent_refl (a : json) :
  well_formed a = true -> a <> JNull -> Equivalent a a.
Proof.
  induction a as [| b | x | s | elems IH | fields IH] using json_nested_ind;
    intros Hwf Hnull; [congruence | | | | |].
  - apply Equivalent_intro with (ea := []) (bKeys := []); auto.
    intros ? ? [].
  - apply Equivalent_intro with (ea := []) (bKeys := []); auto.
    intros ? ? [].
  - apply Equivalent_intro with (ea := indexed 0 (chars s))
                                (bKeys := map fst (indexed 0 (chars s)));
      auto; [now rewrite length_map |].
    intros key v Hin _. right.
    assert (Hs : isObject (Some v) = false).
    { apply In_indexed in Hin as (i & _ & Hnth).
      apply nth_error_In in Hnth. now apply chars_scalar in Hnth. }
    rewrite Hs. split; [reflexivity |].
    rewrite (get_own (JStr s) _ key v Hwf eq_refl Hin).
    apply strict_eq_refl; [| exact Hs].
    exact (well_formed_entries (JStr s) _ key v Hwf eq_refl Hin).
  - apply Equivalent_intro with (ea := indexed 0 elems)
                                (bKeys := map fst (indexed 0 elems));
      auto; [now rewrite length_map |].
    intros key v Hin _.
    pose proof (get_own (JArr elems) _ key v Hwf eq_refl Hin) as Hget.
    pose proof (well_formed_entries (JArr elems) _ key v Hwf eq_refl Hin)
      as Hwfv.
    destruct (isObject (Some v)) eqn:Hobj.
    + left. split; [reflexivity |]. exists v. repeat split; auto.
      apply In_indexed in Hin as (i & _ & Hnth). apply nth_error_In in Hnth.
      rewrite List.Forall_forall in IH. apply (IH v Hnth Hwfv).
      intros ->. discriminate.
    + right. split; [reflexivity |]. rewrite Hget.
      now apply strict_eq_refl.
  - apply Equivalent_intro with (ea := fields) (bKeys := map fst fields);
      auto; [now rewrite length_map |].
    intros key v Hin _.
    pose proof (get_own (JObj fields) _ key v Hwf eq_refl Hin) as Hget.
    pose proof (well_formed_entries (JObj fields) _ key v Hwf eq_refl Hin)
      as Hwfv.
    destruct (isObject (Some v)) eqn:Hobj.
    + left. split; [reflexivity |]. exists v. repeat split; auto.
      rewrite List.Forall_forall in IH. specialize (IH (key, v) Hin).
      cbn [snd] in IH. apply (IH Hwfv). intros ->. discriminate.
    + right. split; [reflexivity |]. rewrite Hget.
      now apply strict_eq_refl.
Qed.

(** X3. The diff is reflexive on what [JSON.parse] returns: for every tree
    other than [null] in which no number is [NaN] and no object has a
    property name twice, [diff(x, x)] is [true]. *)
Theorem diff_reflexive :
  forall x : json,
    well_formed x = true -> x <> JNull -> diff x x = Some true.
Proof.
  intros x Hwf Hnull. apply diff_true_iff. now apply Equivalent_refl.
Qed.

(** A manifest-like tree, with nested objects, an array, a number and a
    [null]. *)
Lemma diff_reflexive_witness :
  well_formed
    (JObj [("id", JStr "1"); ("version", JNum 2%float);
           ("staticTabs",
            JArr [JObj [("entityId", JStr "tab"); ("scopes", JNull)]])])
  = true
  /\ diff
       (JObj [("id", JStr "1"); ("version", JNum 2%float);
              ("staticTabs",
               JArr [JObj [("entityId", JStr "tab"); ("scopes", JNull)]])])
       (JObj [("id", JStr "1"); ("version", JNum 2%float);
              ("staticTabs",
               JArr [JObj [("entityId", JStr "tab"); ("scopes", JNull)]])])
     = Some true.
Proof.
  split; [vm_compute; reflexivity |].
  apply (diff_reflexive
           (JObj [("id", JStr "1"); ("version", JNum 2%float);
                  ("staticTabs",
                   JArr [JObj [("entityId", JStr "tab"); ("scopes", JNull)]])])).
  - vm_compute; reflexivity.
  - discriminate.
Defined.

(** ** What the component-identifier pattern extracts *)

Lemma strip_prefix_Some (pre s t : string) :
  strip_prefix pre s = Some t <-> s = pre +:+ t.
Proof.
  revert s. induction pre as [| a pre IH]; intros s.
  - change ("" +:+ t) with t. simpl. split; congruence.
  - change (String a pre +:+ t) with (String a (pre +:+ t)). simpl.
    destruct s as [| b s]; [split; discriminate |].
    destruct (Ascii.eqb_spec a b) as [-> | Hne].
    + rewrite IH. split; congruence.
    + split; [discriminate | congruence].
Qed.

Lemma starts_with_true (pre s : string) :
  starts_with pre s = true <-> exists t, s = pre +:+ t.
Proof.
  unfold starts_with. destruct (strip_prefix pre s) as [t |] eqn:H.
  - apply strip_prefix_Some in H. split; eauto.
  - split; [discriminate |]. intros [t Ht].
    apply strip_prefix_Some in Ht. congruence.
Qed.

Lemma string_drop_append (pre t : string) :
  string_drop (String.length pre) (pre +:+ t) = t.
Proof. induction pre as [| a pre IH]; [now destruct t | exact IH]. Qed.

Lemma span_id_spec (s run rest : string) :
  span_id s = (run, rest) ->
  s = run +:+ rest /\ id_string run = true.
Proof.
  revert run rest. induction s as [| c s IH]; intros run rest; simpl.
  - intros [= <- <-]. auto.
  - destruct (is_id_char c) eqn:Hc.
    + destruct (span_id s) as [run0 rest0]. intros [= <- <-].
      destruct (IH run0 rest0 eq_refl) as [-> Hid]. simpl.
      rewrite Hc. auto.
    + intros [= <- <-]. auto.
Qed.

(** The pattern tried right after the label: it matches exactly a string of
    class characters followed by [%26]. *)
Lemma match_after_label_Some (s m : string) :
  match_after_label s = Some m <->
  id_string m = true /\ exists post, s = m +:+ "%26" +:+ post.
Proof.
  unfold match_after_label. split.
  - destruct (span_id s) as [run rest] eqn:Hspan.
    apply span_id_spec in Hspan as [-> Hid].
    destruct (starts_with "%26" rest) eqn:Hs; [| discriminate].
    intros [= <-]. apply starts_with_true in Hs as [post ->]. eauto.
  - intros [Hid [post ->]]. rewrite (span_id_run m post Hid).
    now rewrite starts_with_append.
Qed.

Lemma occurs_at_head (content id post : string) :
  occurs_at content "" id post <->
  starts_with "componentId=" content = true
  /\ match_after_label (string_drop 12 content) = Some id
  /\ string_drop 12 content = id +:+ "%26" +:+ post.
Proof.
  unfold occurs_at. split.
  - intros [Hid ->]. split; [apply (starts_with_append "componentId=") |].
    change 12 with (String.length "componentId=").
    change ("" +:+ "componentId=" +:+ id +:+ "%26" +:+ post)
      with ("componentId=" +:+ (id +:+ "%26" +:+ post)).
    rewrite string_drop_append. split; [| reflexivity].
    apply match_after_label_Some. eauto.
  - intros (Hs & Hm & Hd). apply starts_with_true in Hs as [t ->].
    change 12 with (String.length "componentId=") in Hd.
    rewrite string_drop_append in Hd. subst t.
    apply match_after_label_Some in Hm as [Hid _]. split; auto.
Qed.

(** [componentIdRegex.exec]: the leftmost place of the content where the
    label is followed by class characters and [%26]. *)
Lemma componentIdRegex_exec_spec (content : string) :
  match componentIdRegex_exec content with
  | Some id =>
      exists pre post,
        occurs_at content pre id post
        /\ forall pre2 id2 post2,
             occurs_at content pre2 id2 post2 ->
             String.length pre <= String.length pre2
  | None => forall pre2 id2 post2, ~ occurs_at content pre2 id2 post2
  end.
Proof.
  induction content as [| c content IH].
  - cbn. intros pre2 id2 post2 [_ H]. destruct pre2; discriminate.
  - cbn [componentIdRegex_exec].
    assert (Htail :
      (forall id post, ~ occurs_at (String c content) "" id post) ->
      match componentIdRegex_exec content with
      | Some id =>
          exists pre post,
            occurs_at (String c content) pre id post
            /\ forall pre2 id2 post2,
                 occurs_at (String c content) pre2 id2 post2 ->
                 String.length pre <= String.length pre2
      | None =>
          forall pre2 id2 post2, ~ occurs_at (String c content) pre2 id2 post2
      end).
    { intros Hhead.
      destruct (componentIdRegex_exec content) as [id |].
      - destruct IH as (pre & post & [Hid ->] & Hmin).
        exists (String c pre), post. split; [split; auto |].
        intros pre2 id2 post2 Hocc. destruct pre2 as [| c2 pre2].
        + now apply Hhead in Hocc.
        + destruct Hocc as [Hid2 [= <- Heq]]. cbn.
          apply le_n_S, (Hmin pre2 id2 post2). split; auto.
      - intros pre2 id2 post2 Hocc. destruct pre2 as [| c2 pre2].
        + now apply Hhead in Hocc.
        + destruct Hocc as [Hid2 [= <- Heq]].
          apply (IH pre2 id2 post2). split; auto. }
    destruct (starts_with "componentId=" (String c content)) eqn:Hs.
    + destruct (match_after_label (string_drop 12 (String c content)))
        as [m |] eqn:Hm.
      * pose proof Hm as Hm'.
        apply match_after_label_Some in Hm' as [Hid [post Hpost]].
        exists "", post. split; [| intros; cbn; lia].
        apply occurs_at_head. auto.
      * apply Htail. intros id post Hocc.
        apply occurs_at_head in Hocc as (_ & Hm2 & _). congruence.
    + apply Htail. intros id post Hocc.
      apply occurs_at_head in Hocc as (Hs2 & _). congruence.
Qed.

(** X5. [replaceSPFxComponentId] returns only lowercase letters, digits and
    hyphens. What it returns is what stands between [componentId=] and
    [%26] at the leftmost place of the content where the label is followed
    by such characters and [%26]; it is the empty string when there is no
    such place. *)
Theorem replaceSPFxComponentId_leftmost :
  forall content : string,
    let id := replaceSPFxComponentId content in
    id_string id = true
    /\ ((exists pre post,
           content = pre +:+ "componentId=" +:+ id +:+ "%26" +:+ post
           /\ forall pre2 id2 post2,
                id_string id2 = true ->
                content = pre2 +:+ "componentId=" +:+ id2 +:+ "%26" +:+ post2 ->
                String.length pre <= String.length pre2)
        \/ (id = ""
            /\ forall pre2 id2 post2,
                 id_string id2 = true ->
                 content <> pre2 +:+ "componentId=" +:+ id2 +:+ "%26" +:+ post2)).
Proof.
  intros content id. subst id. unfold replaceSPFxComponentId.
  pose proof (componentIdRegex_exec_spec content) as H.
  destruct (componentIdRegex_exec content) as [id |].
  - destruct H as (pre & post & [Hid Heq] & Hmin).
    split; [exact Hid |]. left. exists pre, post. split; [exact Heq |].
    intros pre2 id2 post2 Hid2 Heq2. apply (Hmin pre2 id2 post2).
    split; auto.
  - split; [reflexivity |]. right. split; [reflexivity |].
    intros pre2 id2 post2 Hid2 Heq2. apply (H pre2 id2 post2). split; auto.
Qed.

(** ** What the rewriting of an SPFx manifest keeps *)

Lemma forEach_static (U : string) (c : option string) (tabs : list StaticTab) :
  let tabs' :=
    snd (forEach (fun _ item => rewriteStaticTab U item) c tabs) in
  map entityId tabs' = map entityId tabs
  /\ map staticTabRest tabs' = map staticTabRest tabs
  /\ forall t, In t tabs' ->
       exists id, contentUrl t = Some (util_format U [id; id]).
Proof.
  revert c. induction tabs as [| t tabs IH]; intros c; cbn [forEach].
  - cbn. repeat split; auto. intros t [].
  - cbn beta. destruct (rewriteStaticTab U t) as [c1 t1] eqn:Ht.
    unfold rewriteStaticTab in Ht. injection Ht as Hc1 <-.
    specialize (IH c1). cbv zeta in IH.
    destruct (forEach _ c1 tabs) as [c2 tabs'] eqn:Hrest.
    cbn [snd map entityId staticTabRest] in *.
    destruct IH as (H1 & H2 & H3). repeat split; try congruence.
    intros t' [<- | Hin]; [| now apply H3].
    cbn. eauto.
Qed.

Lemma forEach_configurable (U : string) (c : option string)
    (tabs : list ConfigurableTab) :
  let tabs' := snd (forEach (rewriteConfigurableTab U) c tabs) in
  map configurableTabRest tabs' = map configurableTabRest tabs
  /\ forall t, In t tabs' ->
       exists id, configurationUrl t = Some (util_format U [id; id]).
Proof.
  revert c. induction tabs as [| t tabs IH]; intros c; cbn [forEach].
  - cbn. split; auto. intros t [].
  - destruct (rewriteConfigurableTab U c t) as [c1 t1] eqn:Ht.
    unfold rewriteConfigurableTab in Ht. injection Ht as Hc1 <-.
    specialize (IH c1). cbv zeta in IH.
    destruct (forEach _ c1 tabs) as [c2 tabs'] eqn:Hrest.
    cbn [snd map configurableTabRest] in *.
    destruct IH as (H1 & H2). split; try congruence.
    intros t' [<- | Hin]; [| now apply H2].
    cbn. eauto.
Qed.

(** X6. The rewriting of the manifest of an SPFx project touches nothing
    but the URLs: the tabs keep their number, their order, their [entityId]
    and their other members, the rest of the manifest is carried along, and
    a manifest without tabs is left as it is. Every tab that is there ends
    with its URL equal to the template formatted with one identifier
    twice. *)
Theorem rewriteSPFxManifest_keeps :
  forall (contentTemplate configurationTemplate : string)
         (manifest : TeamsAppManifest),
    let manifest' :=
      rewriteSPFxManifest contentTemplate configurationTemplate manifest in
    manifestRest manifest' = manifestRest manifest
    /\ option_map (map entityId) (staticTabs manifest')
       = option_map (map entityId) (staticTabs manifest)
    /\ option_map (map staticTabRest) (staticTabs manifest')
       = option_map (map staticTabRest) (staticTabs manifest)
    /\ option_map (map configurableTabRest) (configurableTabs manifest')
       = option_map (map configurableTabRest) (configurableTabs manifest)
    /\ (forall tabs t,
          staticTabs manifest' = Some tabs -> In t tabs ->
          exists id, contentUrl t = Some (util_format contentTemplate [id; id]))
    /\ (forall tabs t,
          configurableTabs manifest' = Some tabs -> In t tabs ->
          exists id,
            configurationUrl t
            = Some (util_format configurationTemplate [id; id]))
    /\ (staticTabs manifest = None -> staticTabs manifest' = None)
    /\ (configurableTabs manifest = None -> configurableTabs manifest' = None).
Proof.
  intros U1 U2 [st ct rest]. cbv zeta. unfold rewriteSPFxManifest.
  cbn [staticTabs configurableTabs manifestRest].
  destruct st as [[| t tabs] |]; destruct ct as [[| u utabs] |];
    repeat match goal with
    | |- context [forEach (fun _ item => rewriteStaticTab U1 item) ?c ?l] =>
        let H := fresh "Hs" in
        pose proof (forEach_static U1 c l) as H; cbv zeta in H;
        destruct (forEach (fun _ item => rewriteStaticTab U1 item) c l)
          as [? ?]; cbn [snd] in H
    | |- context [forEach (rewriteConfigurableTab U2) ?c ?l] =>
        let H := fresh "Hc" in
        pose proof (forEach_configurable U2 c l) as H; cbv zeta in H;
        destruct (forEach (rewriteConfigurableTab U2) c l) as [? ?];
        cbn [snd] in H
    end;
    cbn [staticTabs configurableTabs manifestRest option_map snd];
    repeat match goal with H : _ /\ _ |- _ => destruct H end;
    repeat split; try congruence; try discriminate;
    try (intros tabs0 t0 [= <-] Hin; auto; now destruct Hin).
Qed.

(** ** What [consolidateLocalRemote] ends in *)

(** The run from the initialisation of its locals to its end: [Q] where it
    returns [true], the file system as it was where it returns [false],
    which it does when the settings do not load, [E] where it throws. *)
Lemma consolidateLocalRemote_triple (env : Env) (ctx : CoreHookContext)
    (st : State) (a : Arg) (p : string) (Q0 Q E : State -> Prop) :
  lookupInputs ctx = Some a ->
  projectPath (asInputs a) = Some p ->
  (forall settings,
     loadProjectSettings env (fs st) (asInputs a) = inr settings ->
     hoare (fun s => fs s = fs st /\ fileList s = [] /\ removeMap s = [])
       (tryCatch (transform env p (asInputs a) settings) (rollback env p))
       (fun _ => Q0) E) ->
  hoare Q0
    (detached (generateUpgradeReport env (path_join [p; backupFolder]), ret tt))
    (fun _ => Q) E ->
  hoare (fun s => s = st) (consolidateLocalRemote env ctx)
    (fun b s =>
       if b then Q s
       else fs s = fs st
            /\ exists error,
                 loadProjectSettings env (fs st) (asInputs a) = inl error)
    E.
Proof.
  intros Ha Hp Htry Hreport.
  unfold consolidateLocalRemote. rewrite Ha.
  apply hoare_bind with (Q := fun _ s => fs s = fs st).
  { intros s ->. reflexivity. }
  intros _.
  apply hoare_bind with (Q := fun _ s => fs s = fs st /\ fileList s = []).
  { intros s Hs. cbn. auto. }
  intros _.
  apply hoare_bind
    with (Q := fun _ s => fs s = fs st /\ fileList s = [] /\ removeMap s = []).
  { intros s [Hs Hf]. cbn. auto. }
  intros _.
  apply hoare_bind
    with (Q := fun x s => x = fs st
                          /\ (fs s = fs st /\ fileList s = []
                              /\ removeMap s = [])).
  { intros s (Hs & Hf & Hr). cbn. auto. }
  intros files. apply hoare_assume. intros ->.
  cbv zeta.
  destruct (loadProjectSettings env (fs st) (asInputs a))
    as [error | settings] eqn:Hload.
  - intros s (Hs & _). cbn. eauto.
  - rewrite Hp.
    apply hoare_bind with (Q := fun _ => Q0); [now apply Htry |].
    intros _. apply hoare_bind with (Q := fun _ => Q); [exact Hreport |].
    intros _. apply hoare_ret. auto.
Qed.

Lemma report_nf (p : string) :
  path_join [path_join [p; backupFolder]; upgradeReportName]
  = nf p ".backup/unify-config-change-logs.md".
Proof.
  rewrite backupPath_nf.
  transitivity (nf p ".backup" +:+ "/unify-config-change-logs.md").
  - assert (N : nonempty (nf p ".backup") = true) by (destruct p; reflexivity).
    destruct (nf p ".backup"); [discriminate | reflexivity].
  - now rewrite nf_append.
Qed.

(** A computation that ends in a [throw] does not return. *)
Lemma bind_throws {A B : Type} (c : M A) (k : A -> M B) :
  (forall x s, exists s' e, k x s = (s', inl e)) ->
  forall s, exists s' e, bind c k s = (s', inl e).
Proof.
  intros H s. unfold bind. destruct (c s) as [s1 [e | x]]; eauto.
Qed.

Lemma rollback_throws (env : Env) (p : string) (e : exn) (st : State) :
  exists st' e', rollback env p e st = (st', inl e').
Proof.
  unfold rollback. revert st.
  repeat (apply bind_throws; intros ? ?). unfold raise. eauto.
Qed.

Lemma hoare_throws {A : Type} (P : State -> Prop) (c : M A)
    (Q Q' : A -> State -> Prop) (E : State -> Prop) :
  hoare P c Q E -> (forall s, exists s' e, c s = (s', inl e)) ->
  hoare P c Q' E.
Proof.
  intros H Ht st HP. specialize (H st HP).
  destruct (Ht st) as (s' & e & Heq). rewrite Heq in *. exact H.
Qed.

(** The report is written beside the backups, over none of them. *)
Lemma generateUpgradeReport_fs (env : Env) (p : string) (I : State -> Prop) :
  (forall st c,
     I st ->
     I (set_fs (fs_set (nf p ".backup/unify-config-change-logs.md") (File c)
                  (fs st)) st)) ->
  preserves I
    (detached (generateUpgradeReport env (path_join [p; backupFolder]), ret tt)).
Proof.
  intros Hset. apply preserves_detached. unfold generateUpgradeReport.
  apply preserves_tryCatch; [| intros _; apply preserves_ret].
  apply preserves_fs_op. intros st files HI Heff.
  destruct (fs st _) as [[c |] |]; try discriminate.
  injection Heff as <-. rewrite report_nf. now apply Hset.
Qed.

Section Kept.

Variables (env : Env) (p : string) (files0 : FS).

Lemma restorable_content_kept (st : State) :
  restorable p files0 st -> legacy_content_kept p files0 st.
Proof.
  intros [H1 H2] f. destruct (H2 f) as [H | [_ Hin]]; [now left | right].
  destruct (H1 _ _ Hin) as (f0 & Eb & Eo & Hb & _).
  rewrite Hb. reflexivity.
Qed.

Lemma restored_content_kept (st : State) :
  legacy_files_restored p files0 st -> legacy_content_kept p files0 st.
Proof. intros H f. left. apply H. Qed.

(** Copying one recorded backup to its original path, rejected or not. *)
Lemma restore_entry_any (f : legacy_file) (done : list (string * string)) :
  hoare
    (fun st =>
       restorable p files0 st
       /\ In (nf p (backup_rel f), nf p (original_rel f)) (removeMap st)
       /\ (forall b o, In (b, o) done -> In (b, o) (removeMap st))
       /\ restored_of files0 done st)
    (copy env (AtRestore (nf p (backup_rel f))) (nf p (backup_rel f))
       (nf p (original_rel f)))
    (fun _ st =>
       restorable p files0 st
       /\ restored_of files0
            (done ++ [(nf p (backup_rel f), nf p (original_rel f))]) st)
    (restorable p files0).
Proof.
  intros st (HR & Hin & Hsub & Hdone).
  pose proof HR as [H1 H2].
  destruct (H1 _ _ Hin) as (f0 & Eb & Eo & Hb & Hsome).
  apply nf_inj in Eo.
  assert (f0 = f) by (destruct f, f0; try discriminate Eo; reflexivity).
  subst f0. clear Eb Eo.
  unfold copy, fs_op.
  destruct (faults env (AtRestore (nf p (backup_rel f)))); [exact HR |].
  unfold pathExists. destruct (fs st (nf p (backup_rel f))) as [n |] eqn:Hn;
    [| exact HR].
  assert (Hown : fs_copy (nf p (backup_rel f)) (nf p (original_rel f)) (fs st)
                   (nf p (original_rel f))
                 = files0 (nf p (original_rel f))).
  { rewrite copy_back_own by congruence. congruence. }
  split; [split |].
  - intros b o Hbo. cbn [removeMap fs set_fs] in *.
    destruct (H1 b o Hbo) as (f' & -> & -> & Hc & Hs).
    exists f'. repeat split; auto. now rewrite copy_back_backup.
  - intros f'. cbn [removeMap fs set_fs].
    destruct (legacy_file_eq_dec f f') as [<- | Hne].
    + left. exact Hown.
    + rewrite copy_back_other by assumption. apply H2.
  - intros b o Hbo. cbn [fs set_fs].
    apply in_app_or in Hbo as [Hbo | [[= <- <-] | []]]; [| exact Hown].
    destruct (H1 b o (Hsub b o Hbo)) as (f' & -> & -> & _ & _).
    destruct (legacy_file_eq_dec f f') as [<- | Hne]; [exact Hown |].
    rewrite copy_back_other by assumption. exact (Hdone _ _ Hbo).
Qed.

(** The first loop of the [catch] block, with any of its copies
    rejected. *)
Lemma restore_all_any (l : list (string * string)) :
  forall (recorded done : list (string * string)),
    (forall b o, In (b, o) l -> In (b, o) recorded) ->
    (forall b o, In (b, o) done -> In (b, o) recorded) ->
    hoare
      (fun st => restorable p files0 st /\ removeMap st = recorded
                 /\ restored_of files0 done st)
      (forM l
         (fun item => copy env (AtRestore (fst item)) (fst item) (snd item)))
      (fun _ st => restorable p files0 st /\ removeMap st = recorded
                   /\ restored_of files0 (done ++ l) st)
      (restorable p files0).
Proof.
  induction l as [| [b o] l IH]; intros recorded done Hl Hdone.
  - cbn [forM]. apply hoare_ret. intros st (HR & Hrm & Hd).
    now rewrite app_nil_r.
  - cbn [forM fst snd].
    apply hoare_bind
      with (Q := fun _ st => restorable p files0 st /\ removeMap st = recorded
                             /\ restored_of files0 (done ++ [(b, o)]) st).
    + intros st (HR & Hrm & Hd).
      assert (Hin : In (b, o) (removeMap st))
        by (rewrite Hrm; apply Hl; now left).
      destruct (proj1 HR b o Hin) as (f & -> & -> & _ & _).
      pose proof (restore_entry_any f done st) as Hentry.
      assert (Hpre : restorable p files0 st
                     /\ In (nf p (backup_rel f), nf p (original_rel f))
                          (removeMap st)
                     /\ (forall b o, In (b, o) done -> In (b, o) (removeMap st))
                     /\ restored_of files0 done st).
      { repeat split; try apply HR; auto. rewrite Hrm. exact Hdone. }
      specialize (Hentry Hpre).
      unfold copy, fs_op in *.
      destruct (faults env (AtRestore (nf p (backup_rel f)))); [exact Hentry |].
      destruct (pathExists (fs st) (nf p (backup_rel f)));
        [| exact Hentry].
      cbn [removeMap set_fs] in *. tauto.
    + intros _.
      eapply hoare_weaken;
        [apply (IH recorded (done ++ [(b, o)])) | | |]; auto.
      * intros b' o' Hin. apply Hl. now right.
      * intros b' o' Hin. apply in_app_or in Hin as [Hin | [[= <- <-] | []]];
          [now apply Hdone | apply Hl; now left].
      * intros _ st (HR & Hrm & Hd). repeat split; try apply HR; auto.
        now rewrite <- app_assoc in Hd.
Qed.

(** The [catch] block from a state of the [try] block, with any of its
    operations rejected. *)
Lemma rollback_content_kept (content : string) (e : exn) :
  hoare
    (fun st => env_config_kept p content st /\ restorable p files0 st)
    (rollback env p e) (fun _ _ => True) (legacy_content_kept p files0).
Proof.
  unfold rollback. apply hoare_bind_read.
  intros recorded (st0 & ((_ & _ & Hshape) & _) & ->).
  apply hoare_bind
    with (Q := fun _ st => env_config_kept p content st
                           /\ legacy_files_restored p files0 st).
  - eapply hoare_weaken.
    + apply hoare_conj.
      * apply (restore_all_any (removeMap st0) (removeMap st0) []); auto.
        intros ? ? [].
      * apply (preserves_forM (env_config_kept p content)).
        intros [b o] Hin. destruct (Hshape b o Hin) as (f & -> & ->).
        apply kept_restore.
    + cbn beta. intros st ((HK & HR) & E).
      split; [| exact HK]. split; [exact HR |]. split; [now symmetry |].
      intros ? ? [].
    + cbn beta. intros _ st ((HR & Hrm & Hdone) & HK). split; [exact HK |].
      intros f. destruct (proj2 HR f) as [H | [_ Hin]]; [exact H |].
      rewrite Hrm in Hin. exact (Hdone _ _ Hin).
    + cbn beta. intros st [HR _]. now apply restorable_content_kept.
  - intros _.
    eapply hoare_weaken; [apply (restored_cleanup env p content files0 e) | | |];
      auto.
    intros st [_ H]. now apply restored_content_kept.
Qed.

(** The [try] block with its [catch] block, with any operation rejected. *)
Lemma try_content_kept (inputs : Inputs) (settings : ProjectSettings) :
  hoare
    (fun st => fs st = files0 /\ fileList st = [] /\ removeMap st = [])
    (tryCatch (transform env p inputs settings) (rollback env p))
    (fun _ => restorable p files0) (legacy_content_kept p files0).
Proof.
  destruct (faults env AtWriteEnvConfig) eqn:Hwrite.
  - apply hoare_tryCatch
      with (E' := fun st => fs st = files0 /\ fileList st = []
                            /\ removeMap st = []).
    + eapply hoare_weaken;
        [apply (transform_write_rejected env p files0 inputs settings Hwrite)
        | | |]; cbn beta; auto. intros _ st [].
    + intros e. apply hoare_throws with (Q := fun _ _ => True);
        [| apply rollback_throws].
      eapply hoare_weaken;
        [apply (rollback_nothing_recorded env p files0 e) | | |];
        cbn beta; auto.
      intros st H. now apply restored_content_kept.
  - apply hoare_tryCatch
      with (E' := fun st =>
                    env_config_kept p
                      (newEnvConfigData env
                         (getLocalAppName env (appName settings))) st
                    /\ restorable p files0 st).
    + eapply hoare_weaken.
      * apply hoare_conj;
          [apply (kept_transform env p _ inputs settings Hwrite eq_refl)
          | apply (transform_restorable p files0 env inputs settings)].
      * cbn beta. intros st (Hfs & Hfl & Hrm).
        split; [auto | now apply restorable_start].
      * cbn beta. intros _ st [_ H]. exact H.
      * cbn beta. auto.
    + intros e. apply hoare_throws with (Q := fun _ _ => True);
        [| apply rollback_throws].
      apply (rollback_content_kept _ e).
Qed.

Lemma content_kept_report (st : State) (c : string) :
  legacy_content_kept p files0 st ->
  legacy_content_kept p files0
    (set_fs (fs_set (nf p ".backup/unify-config-change-logs.md") (File c)
               (fs st)) st).
Proof.
  intros H f. cbn [fs set_fs]. rewrite !fs_set_nf.
  destruct (H f) as [Ho | Hb]; [left | right];
    destruct f; cbn; assumption.
Qed.

End Kept.

(** X7. No legacy file is lost, whatever fails: when [consolidateLocalRemote]
    ends, by returning or by throwing, with any of its file operations
    rejected, in the [try] block or in the [catch] block, each of the three
    legacy files still holds what it held at the start, at its original
    path or at its path in the backup folder. *)
Theorem legacy_content_never_lost :
  forall (env : Env) (ctx : CoreHookContext) (st : State) (a : Arg)
         (p : string),
    lookupInputs ctx = Some a ->
    projectPath (asInputs a) = Some p ->
    legacy_content_kept p (fs st) (fst (consolidateLocalRemote env ctx st)).
Proof.
  intros env ctx st a p Ha Hp.
  pose proof (consolidateLocalRemote_triple env ctx st a p
                (legacy_content_kept p (fs st))
                (legacy_content_kept p (fs st))
                (legacy_content_kept p (fs st)) Ha Hp) as H.
  assert (Hrun : hoare (fun s => s = st) (consolidateLocalRemote env ctx)
                   (fun b s =>
                      if b then legacy_content_kept p (fs st) s
                      else fs s = fs st
                           /\ exists error,
                                loadProjectSettings env (fs st) (asInputs a)
                                = inl error)
                   (legacy_content_kept p (fs st))).
  { apply H.
    - intros settings _. eapply hoare_weaken;
        [apply (try_content_kept env p (fs st) (asInputs a) settings) | | |];
        cbn beta; auto.
      intros _ s HR. now apply restorable_content_kept.
    - apply generateUpgradeReport_fs. intros s c.
      apply content_kept_report. }
  specialize (Hrun st eq_refl).
  destruct (consolidateLocalRemote env ctx st) as [st' [e | [|]]];
    cbn [fst]; auto.
  intros f. left. destruct Hrun as [Hrun _]. now rewrite Hrun.
Qed.

(** On the sample project with every copy of a backup to its original path
    rejected, after the copy of the local manifest into the backup folder
    was: the local settings are left in the backup folder only. *)
Lemma legacy_content_never_lost_witness :
  let env :=
    sample_env
      (fun site =>
         match site with
         | AtBackupCopy LocalManifest | AtRestore _ => true
         | _ => false
         end) false None in
  let st := initial_state sample_project in
  let r := consolidateLocalRemote env sample_ctx st in
  (snd r
   = inl (IOFailure (AtRestore "/proj/.backup/.fx/configs/localSettings.json"))
   /\ fs (fst r) "/proj/.fx/configs/localSettings.json" = None)
  /\ legacy_content_kept "/proj" (fs st) (fst r).
Proof.
  cbv zeta. split; [split; vm_compute; reflexivity |].
  exact (legacy_content_never_lost
           (sample_env
              (fun site =>
                 match site with
                 | AtBackupCopy LocalManifest | AtRestore _ => true
                 | _ => false
                 end) false None)
           sample_ctx (initial_state sample_project)
           (ArgInputs sample_inputs) "/proj" eq_refl eq_refl).
Defined.

(** ** A run that returns *)

Lemma hoare_any {A : Type} (P : State -> Prop) (c : M A) :
  hoare P c (fun _ _ => True) (fun _ => True).
Proof. intros st _. now destruct (c st) as [st' [e | x]]. Qed.

Lemma hoare_bind_any {A B : Type} (P : State -> Prop) (c : M A)
    (k : A -> M B) (R : B -> State -> Prop) :
  (forall x, hoare (fun _ => True) (k x) R (fun _ => True)) ->
  hoare P (bind c k) R (fun _ => True).
Proof.
  intros H. apply hoare_bind with (Q := fun _ _ => True);
    [apply hoare_any | exact H].
Qed.

Section Moved.

Variables (env : Env) (p : string).

Lemma moved_away_stable (f : legacy_file) : stable (moved_away p f).
Proof. intros st st' Hfs _ _ H. unfold moved_away. now rewrite Hfs. Qed.

Lemma moved_away_fs_set (f : legacy_file) (rel : string) (n : node)
    (st : State) :
  (forall f', rel <> original_rel f') ->
  moved_away p f st ->
  moved_away p f (set_fs (fs_set (nf p rel) n (fs st)) st).
Proof.
  intros Hrel H. unfold moved_away. cbn [fs set_fs]. rewrite fs_set_nf.
  unfold fs_set. destruct (String.eqb_spec (original_rel f) rel) as [E | _].
  - now destruct (Hrel f).
  - exact H.
Qed.

(** A legacy file that is gone from its original path stays away while the
    legacy files are moved. *)
Lemma moveToBackup_keeps_moved (f f' : legacy_file) (name : string) :
  preserves (moved_away p f)
    (moveToBackup env f' (nf p (original_rel f')) (nf p (backup_rel f')) name).
Proof.
  unfold moveToBackup.
  apply preserves_bind.
  { apply preserves_fs_op. intros st files H Heff.
    destruct (pathExists (fs st) (nf p (original_rel f'))); [| discriminate].
    injection Heff as <-. unfold moved_away. cbn [fs set_fs].
    now rewrite copy_original. }
  intros _. apply preserves_bind.
  { apply preserves_fs_op. intros st files H [= <-].
    unfold moved_away. cbn [fs set_fs].
    destruct (legacy_file_eq_dec f' f) as [<- | Hne].
    - apply remove_own.
    - now rewrite remove_other. }
  intros _. apply preserves_bind; [| intros _];
    apply preserves_modify; intros st H; exact H.
Qed.

Lemma guarded_move_keeps_moved (f f' : legacy_file) (name : string) :
  preserves (moved_away p f)
    (bind (read (fun st => pathExists (fs st) (nf p (original_rel f'))))
       (fun found =>
          when found
            (moveToBackup env f' (nf p (original_rel f'))
               (nf p (backup_rel f')) name))).
Proof.
  apply preserves_bind; [apply preserves_read | intros found].
  apply preserves_when, moveToBackup_keeps_moved.
Qed.

(** Once the guarded move of a legacy file is over, the file is not at its
    original path. *)
Lemma guarded_move_moves (f : legacy_file) (name : string)
    (P : State -> Prop) :
  hoare P
    (bind (read (fun st => pathExists (fs st) (nf p (original_rel f))))
       (fun found =>
          when found
            (moveToBackup env f (nf p (original_rel f))
               (nf p (backup_rel f)) name)))
    (fun _ => moved_away p f) (fun _ => True).
Proof.
  eapply hoare_bind; [apply hoare_read |].
  intros found. apply hoare_when.
  - intros _. unfold moveToBackup.
    apply hoare_bind_any. intros _.
    apply hoare_bind with (Q := fun _ => moved_away p f).
    { apply hoare_fs_op; [| auto]. intros st files _ [= <-].
      apply remove_own. }
    intros _.
    eapply hoare_weaken with (P' := moved_away p f);
      [apply preserves_bind; [| intros _];
       apply preserves_modify; intros st H; exact H | | |];
      cbn beta; auto.
  - intros -> st [_ Hfound]. unfold moved_away, pathExists in *.
    now destruct (fs st (nf p (original_rel f))).
Qed.

Lemma hoare_conj_keep {A : Type} (P I : State -> Prop) (c : M A)
    (Q : A -> State -> Prop) :
  hoare P c Q (fun _ => True) -> preserves I c ->
  hoare (fun st => P st /\ I st) c (fun x st => Q x st /\ I st)
    (fun _ => True).
Proof.
  intros H1 H2.
  eapply hoare_weaken; [apply (hoare_conj P I c Q _ _ I H1 H2) | | |];
    cbn beta; auto.
Qed.

(** When the [try] block is over, none of the legacy files is at its
    original path. *)
Lemma transform_moves (inputs : Inputs) (settings : ProjectSettings) :
  hoare (fun _ => True) (transform env p inputs settings)
    (fun _ st => forall f, moved_away p f st) (fun _ => True).
Proof.
  unfold transform.
  apply hoare_bind_any; intros _.
  apply hoare_bind_any; intros _.
  apply hoare_bind with (Q := fun _ => moved_away p LocalSettings).
  { unfold backupLocalSettings.
    apply hoare_bind_any; intros _.
    apply hoare_bind_any; intros _.
    rewrite localSettingsFile_nf, backupLocalSettings_nf.
    apply guarded_move_moves. }
  intros _.
  apply hoare_bind with (Q := fun _ => moved_away p LocalSettings).
  { eapply hoare_weaken;
      [apply (stable_compareManifests (moved_away p LocalSettings)),
         moved_away_stable | | |]; cbn beta; auto. }
  intros _.
  apply hoare_bind
    with (Q := fun _ st => moved_away p LocalManifest st
                           /\ moved_away p LocalSettings st).
  { unfold backupLocalManifest.
    rewrite localManifestFile_nf, backupLocalManifest_nf.
    eapply hoare_weaken;
      [apply (hoare_conj_keep (fun _ => True) (moved_away p LocalSettings));
       [apply guarded_move_moves | apply guarded_move_keeps_moved] | | |];
      cbn beta; auto. }
  intros _.
  apply hoare_bind
    with (Q := fun _ st => forall f, moved_away p f st).
  { unfold backupRemoteManifest.
    rewrite remoteManifestFile_nf, backupRemoteManifest_nf.
    eapply hoare_weaken;
      [apply (hoare_conj_keep (fun _ => True)
                (fun st => moved_away p LocalManifest st
                           /\ moved_away p LocalSettings st));
       [apply guarded_move_moves
       | apply preserves_conj; apply guarded_move_keeps_moved] | | |];
      cbn beta; auto.
    intros _ st (H3 & H2 & H1) []; assumption. }
  intros _.
  assert (Hst : stable (fun st => forall f, moved_away p f st)).
  { intros st st' Hfs Hrm Hfl H f.
    exact (moved_away_stable f st st' Hfs Hrm Hfl (H f)). }
  apply hoare_weaken
    with (P' := fun st => forall f, moved_away p f st)
         (Q' := fun _ st => forall f, moved_away p f st)
         (E' := fun st => forall f, moved_away p f st); [| auto | auto | auto].
  apply preserves_bind; [now apply stable_sendTelemetryEvent | intros _].
  apply preserves_bind; [now apply stable_sendTelemetryEvent | intros _].
  apply preserves_bind; [apply preserves_read | intros moved].
  now apply stable_postConsolidate.
Qed.

End Moved.

(** X8. A run that returns [true] has moved every legacy file: none of the
    three is at its original path any more, and each one that was there
    when the run started is in the backup folder, holding what it held. *)
Theorem successful_run_moves_legacy_files :
  forall (env : Env) (ctx : CoreHookContext) (st : State) (a : Arg)
         (p : string),
    lookupInputs ctx = Some a ->
    projectPath (asInputs a) = Some p ->
    snd (consolidateLocalRemote env ctx st) = inr true ->
    forall f,
      fs (fst (consolidateLocalRemote env ctx st)) (nf p (original_rel f))
      = None
      /\ (fs st (nf p (original_rel f)) <> None ->
          fs (fst (consolidateLocalRemote env ctx st)) (nf p (backup_rel f))
          = fs st (nf p (original_rel f))).
Proof.
  intros env ctx st a p Ha Hp Hret.
  set (Q := fun s => restorable p (fs st) s /\ forall f, moved_away p f s).
  assert (Hrun : hoare (fun s => s = st) (consolidateLocalRemote env ctx)
                   (fun b s =>
                      if b then Q s
                      else fs s = fs st
                           /\ exists error,
                                loadProjectSettings env (fs st) (asInputs a)
                                = inl error)
                   (fun _ => True)).
  { apply (consolidateLocalRemote_triple env ctx st a p Q Q (fun _ => True)
             Ha Hp).
    - intros settings _.
      apply hoare_tryCatch with (E' := fun _ => True).
      + eapply hoare_weaken.
        * apply (hoare_conj_keep (fun _ => True) (restorable p (fs st))).
          -- apply transform_moves.
          -- apply transform_restorable.
        * cbn beta. intros s (Hfs & _ & Hrm).
          split; [exact I | now apply restorable_start].
        * cbn beta. intros _ s [Hm HR]. split; assumption.
        * auto.
      + intros e. apply hoare_throws with (Q := fun _ _ => True);
          [apply hoare_any | apply rollback_throws].
    - apply hoare_weaken with (P' := Q) (Q' := fun _ => Q) (E' := Q);
        [| auto | auto | auto].
      apply generateUpgradeReport_fs. intros s c [HR Hm]. split.
      + apply restorable_fs_set; [| | exact HR]; intros []; discriminate.
      + intros f. apply moved_away_fs_set; [| apply Hm].
        intros []; discriminate. }
  specialize (Hrun st eq_refl).
  destruct (consolidateLocalRemote env ctx st) as [st' [e | b]];
    cbn [fst snd] in *; [discriminate |].
  injection Hret as ->. destruct Hrun as [[H1 H2] Hm].
  intros f. split; [apply Hm |]. intros Hthere.
  destruct (H2 f) as [Hsame | [_ Hin]].
  - rewrite (Hm f) in Hsame. congruence.
  - destruct (H1 _ _ Hin) as (f0 & Eb & _ & Hb & _). exact Hb.
Qed.

(** The sample project, with no file operation rejected. *)
Lemma successful_run_moves_legacy_files_witness :
  let env := sample_env no_fault false None in
  let st := initial_state sample_project in
  let r := consolidateLocalRemote env sample_ctx st in
  snd r = inr true
  /\ forall f,
       fs (fst r) (nf "/proj" (original_rel f)) = None
       /\ (fs st (nf "/proj" (original_rel f)) <> None ->
           fs (fst r) (nf "/proj" (backup_rel f))
           = fs st (nf "/proj" (original_rel f))).
Proof.
  cbv zeta.
  assert (Hret : snd (consolidateLocalRemote (sample_env no_fault false None)
                        sample_ctx (initial_state sample_project))
                 = inr true) by (vm_compute; reflexivity).
  split; [exact Hret |].
  exact (successful_run_moves_legacy_files
           (sample_env no_fault false None) sample_ctx
           (initial_state sample_project) (ArgInputs sample_inputs) "/proj"
           eq_refl eq_refl Hret).
Defined.

(** ** The error that leaves the [catch] block *)

Lemma throws_bind {A B : Type} (P : State -> Prop) (c : M A) (k : A -> M B)
    (Q : A -> State -> Prop) (X : exn -> State -> Prop) :
  hoare P c Q (fun _ => True) -> throws P c X ->
  (forall x, throws (Q x) (k x) X) ->
  throws P (bind c k) X.
Proof.
  intros Hc Hx Hk st HP. unfold bind.
  specialize (Hc st HP). specialize (Hx st HP).
  destruct (c st) as [st1 [e | x]]; [exact Hx |].
  now apply Hk.
Qed.

Lemma throws_weaken {A : Type} (P P' : State -> Prop) (c : M A)
    (X X' : exn -> State -> Prop) :
  throws P' c X' -> (forall st, P st -> P' st) ->
  (forall e st, X' e st -> X e st) -> throws P c X.
Proof.
  intros H HP HX st Hst. specialize (H st (HP st Hst)).
  destruct (c st) as [st1 [e | x]]; auto.
Qed.

Lemma throws_forM {A : Type} (Inv : State -> Prop) (l : list A)
    (body : A -> M unit) (X : exn -> State -> Prop) :
  (forall x, In x l -> hoare Inv (body x) (fun _ => Inv) (fun _ => True)) ->
  (forall x, In x l -> throws Inv (body x) X) ->
  throws Inv (forM l body) X.
Proof.
  induction l as [| x l IH]; intros Hh Ht; cbn [forM].
  - intros st _. exact I.
  - apply throws_bind with (Q := fun _ => Inv).
    + apply Hh. now left.
    + apply Ht. now left.
    + intros _. apply IH; intros y Hy; [apply Hh | apply Ht]; now right.
Qed.

Lemma hoare_forM_keep {A : Type} (Inv : State -> Prop) (l : list A)
    (body : A -> M unit) :
  (forall x, In x l -> hoare Inv (body x) (fun _ => Inv) (fun _ => True)) ->
  hoare Inv (forM l body) (fun _ => Inv) (fun _ => True).
Proof.
  induction l as [| x l IH]; intros Hh; cbn [forM].
  - now apply hoare_ret.
  - apply hoare_bind with (Q := fun _ => Inv); [apply Hh; now left |].
    intros _. apply IH. intros y Hy. apply Hh. now right.
Qed.

(** A file operation throws when it is rejected, or when it cannot be done
    on the file system as it is. *)
Lemma throws_fs_op (env : Env) (site : io_site) (effect : FS -> option FS)
    (P : State -> Prop) :
  throws P (fs_op env site effect)
    (fun e st =>
       P st /\ e = IOFailure site
       /\ (faults env site = true \/ effect (fs st) = None)).
Proof.
  intros st HP. unfold fs_op.
  destruct (faults env site) eqn:F; [auto |].
  destruct (effect (fs st)) eqn:Heff; auto.
Qed.

Lemma throws_bind_read {A B : Type} (P : State -> Prop) (f : State -> A)
    (k : A -> M B) (X : exn -> State -> Prop) :
  (forall x, throws (fun st => P st /\ x = f st) (k x) X) ->
  throws P (bind (read f) k) X.
Proof.
  intros H st HP. unfold bind, read. apply (H (f st)). auto.
Qed.

Section RollbackError.

Variables (env : Env) (p : string) (files0 : FS) (e : exn).

(** What leaves the [catch] block: the error it was entered with, once the
    backup folder is removed, or the error of one of its own file
    operations that was rejected. *)
Let leaves (e' : exn) (st : State) : Prop :=
  (e' = e /\ backup_folder_gone p st)
  \/ exists site,
       rollback_site site = true /\ faults env site = true
       /\ e' = IOFailure site.

Lemma rollback_leaves :
  throws (restorable p files0) (rollback env p e) leaves.
Proof.
  assert (Hremove : forall (site : io_site) (q : string) (P : State -> Prop),
            rollback_site site = true ->
            throws P (remove env site q) leaves).
  { intros site q P Hsite. eapply throws_weaken; [apply throws_fs_op | intros ? H; exact H |].
    cbn beta. intros e' st (_ & -> & [F | Hnone]); [| discriminate].
    right. exists site. auto. }
  unfold rollback. apply throws_bind_read. intros recorded.
  set (Inv := fun st => restorable p files0 st /\ recorded = removeMap st).
  assert (Hstep : forall item,
            In item recorded ->
            hoare Inv (copy env (AtRestore (fst item)) (fst item) (snd item))
              (fun _ => Inv) (fun _ => True)
            /\ throws Inv
                 (copy env (AtRestore (fst item)) (fst item) (snd item))
                 leaves).
  { intros [b o] Hin. cbn [fst snd]. split.
    - intros st [HR Hrm].
      assert (Hin' : In (b, o) (removeMap st)) by now rewrite <- Hrm.
      destruct (proj1 HR b o Hin') as (f & -> & -> & _ & _).
      pose proof (restore_entry_any env p files0 f [] st) as Hentry.
      assert (Hpre : restorable p files0 st
                     /\ In (nf p (backup_rel f), nf p (original_rel f))
                          (removeMap st)
                     /\ (forall b o, In (b, o) [] -> In (b, o) (removeMap st))
                     /\ restored_of files0 [] st).
      { repeat split; try apply HR; auto; intros ? ? []. }
      specialize (Hentry Hpre). unfold copy, fs_op in *.
      destruct (faults env (AtRestore (nf p (backup_rel f)))); [exact I |].
      destruct (pathExists (fs st) (nf p (backup_rel f))); [| exact I].
      cbn [removeMap set_fs] in *. split; [apply Hentry | exact Hrm].
    - eapply throws_weaken; [apply throws_fs_op | intros ? H; exact H |].
      cbn beta. intros e' st ([HR Hrm] & -> & [F | Hmissing]).
      + right. exists (AtRestore b). auto.
      + assert (Hin' : In (b, o) (removeMap st)) by now rewrite <- Hrm.
        destruct (proj1 HR b o Hin') as (f & -> & -> & Hb & Hsome).
        unfold pathExists in Hmissing.
        destruct (fs st (nf p (backup_rel f))); [discriminate | congruence]. }
  apply throws_bind with (Q := fun _ _ => True).
  { apply hoare_weaken
      with (P' := Inv) (Q' := fun _ => Inv) (E' := fun _ => True); auto.
    apply hoare_forM_keep. intros item Hin. now apply Hstep. }
  { apply throws_forM; intros item Hin; now apply Hstep. }
  intros _. apply throws_bind_read. intros created.
  apply throws_bind with (Q := fun _ _ => True); [apply hoare_any | |].
  { apply throws_weaken
      with (P' := fun _ => True) (X' := leaves); auto.
    apply throws_forM.
    - intros item _. apply hoare_any.
    - intros item _. now apply Hremove. }
  intros _.
  apply throws_bind with (Q := fun _ => backup_folder_gone p).
  - apply hoare_fs_op; [| auto]. intros st files _ [= <-] q Hq.
    cbn [fs set_fs]. unfold fs_remove. now rewrite Hq.
  - now apply Hremove.
  - intros _ st Hgone. left. auto.
Qed.

End RollbackError.

(** X9. The error that leaves the [try] block with its [catch] block is the
    error thrown in the [try] block, and then nothing is left of the backup
    folder, unless a file operation of the [catch] block is rejected: then
    it is the I/O error of that operation that reaches the caller, in place
    of the original error. The block returns only when the [try] block
    did. *)
Theorem rollback_error :
  forall (env : Env) (p : string) (inputs : Inputs)
         (settings : ProjectSettings) (st : State),
    removeMap st = [] ->
    match tryCatch (transform env p inputs settings) (rollback env p) st with
    | (st', inl e') =>
        (snd (transform env p inputs settings st) = inl e'
         /\ backup_folder_gone p st')
        \/ exists site,
             rollback_site site = true /\ faults env site = true
             /\ e' = IOFailure site
    | (_, inr _) => snd (transform env p inputs settings st) = inr tt
    end.
Proof.
  intros env p inputs settings st Hrm. unfold tryCatch.
  pose proof (transform_restorable p (fs st) env inputs settings st
                (restorable_start p (fs st) st Hrm eq_refl)) as HR.
  destruct (transform env p inputs settings st) as [st1 [e | []]];
    [| reflexivity].
  pose proof (rollback_leaves env p (fs st) e st1 HR) as Hleaves.
  destruct (rollback_throws env p e st1) as (st' & e' & Heq).
  rewrite Heq in *. cbn [snd].
  destruct Hleaves as [[-> Hgone] | Hsite]; [left | right]; auto.
Qed.

(** On the sample project: with the copy of the local manifest into the
    backup folder rejected, that error reaches the caller; with the removal
    of the backup folder rejected as well, the error of the removal does. *)
Lemma rollback_error_witness :
  let st := initial_state sample_project in
  removeMap st = []
  /\ snd (tryCatch
            (transform (sample_env local_manifest_copy_rejected false None)
               "/proj" sample_inputs (mkSettings "myapp" false))
            (rollback (sample_env local_manifest_copy_rejected false None)
               "/proj") st)
     = inl (IOFailure (AtBackupCopy LocalManifest))
  /\ match
       tryCatch
         (transform (sample_env local_manifest_copy_rejected false None)
            "/proj" sample_inputs (mkSettings "myapp" false))
         (rollback (sample_env local_manifest_copy_rejected false None)
            "/proj") st
     with
     | (st', inl e') =>
         (snd (transform (sample_env local_manifest_copy_rejected false None)
                 "/proj" sample_inputs (mkSettings "myapp" false) st)
          = inl e'
          /\ backup_folder_gone "/proj" st')
         \/ exists site,
              rollback_site site = true
              /\ faults (sample_env local_manifest_copy_rejected false None)
                   site = true
              /\ e' = IOFailure site
     | (_, inr _) =>
         snd (transform (sample_env local_manifest_copy_rejected false None)
                "/proj" sample_inputs (mkSettings "myapp" false) st)
         = inr tt
     end.
Proof.
  cbv zeta. split; [reflexivity |]. split; [vm_compute; reflexivity |].
  exact (rollback_error (sample_env local_manifest_copy_rejected false None)
           "/proj" sample_inputs (mkSettings "myapp" false)
           (initial_state sample_project) eq_refl).
Defined.

(** ** A context without inputs *)

Lemma arg_from_end_last (m : option string) (front : list Arg) (last : Arg) :
  arg_from_end (mkCtx m (front ++ [last])) 1 = Some last.
Proof.
  unfold arg_from_end. cbn [arguments]. rewrite length_app. cbn [length].
  replace (Nat.ltb (length front + 1) 1) with false
    by (symmetry; apply Nat.ltb_ge; lia).
  rewrite nth_error_app2 by lia.
  replace (length front + 1 - 1 - length front) with 0 by lia. reflexivity.
Qed.

Lemma arg_from_end_before_last (m : option string) (front : list Arg)
    (prev last : Arg) :
  arg_from_end (mkCtx m ((front ++ [prev]) ++ [last])) 2 = Some prev.
Proof.
  unfold arg_from_end. cbn [arguments]. rewrite !length_app. cbn [length].
  replace (Nat.ltb (length front + 1 + 1) 2) with false
    by (symmetry; apply Nat.ltb_ge; lia).
  rewrite nth_error_app1 by (rewrite length_app; cbn; lia).
  rewrite nth_error_app2 by lia.
  replace (length front + 1 + 1 - 2 - length front) with 0 by lia.
  reflexivity.
Qed.

Lemma lookupInputs_None (ctx : CoreHookContext) :
  lookupInputs ctx = None <->
  arguments ctx = [] \/ arguments ctx = [ArgCtx].
Proof.
  destruct ctx as [m args]. cbn [arguments]. unfold lookupInputs.
  destruct args as [| last front _] using rev_ind; [cbn; tauto |].
  rewrite arg_from_end_last.
  assert (Hne : front ++ [last] <> []) by now destruct front.
  destruct last;
    try (split; [discriminate | intros [H | H]; [contradiction |];
         apply (f_equal (@rev Arg)) in H; rewrite rev_app_distr in H;
         cbn in H; congruence]).
  destruct front as [| prev front _] using rev_ind; [cbn; tauto |].
  rewrite arg_from_end_before_last. split; [discriminate |].
  intros [H | H]; [contradiction |].
  apply (f_equal (@length Arg)) in H. rewrite !length_app in H.
  cbn in H. lia.
Qed.

(** X11. A context whose arguments hold no inputs, because they are empty
    or hold nothing but the context itself, makes the detector throw a
    [TypeError] when unified configuration is enabled, and the detector
    throws in no other case; when unified configuration is disabled the
    detector returns [false] without looking at the arguments. *)
Theorem context_without_inputs :
  forall (env : Env) (ctx : CoreHookContext) (st : State),
    (forall e,
       snd (needConsolidateLocalRemote env ctx st) = inl e <->
       isConfigUnifyEnabled env = true /\ e = TypeError
       /\ (arguments ctx = [] \/ arguments ctx = [ArgCtx]))
    /\ (isConfigUnifyEnabled env = false ->
        needConsolidateLocalRemote env ctx st = (st, inr false)).
Proof.
  intros env ctx st. split.
  - intros e. rewrite <- lookupInputs_None.
    destruct (lookupInputs ctx) as [a |] eqn:Ha.
    + rewrite (needConsolidateLocalRemote_eval env ctx st a Ha). cbn [snd].
      split; [discriminate | intros (_ & _ & H); discriminate].
    + unfold needConsolidateLocalRemote. rewrite Ha.
      destruct (isConfigUnifyEnabled env); cbn.
      * split; [intros [= <-]; auto | intros (_ & -> & _); reflexivity].
      * split; [discriminate | intros (H & _); discriminate].
  - intros Hflag. unfold needConsolidateLocalRemote. now rewrite Hflag.
Qed.

(** ** The middleware *)

(** [upgrade] is its first call of [showMessage] followed by what is left
    of it. *)
Lemma upgrade_resumed (env : Env) (ctx : CoreHookContext) (showModal : bool)
    (answers : list (option string)) (st : State) :
  upgrade env ctx showModal answers st
  = upgradeResumed env ctx showModal answers
      (add_event (consentPrompt showModal) st).
Proof.
  destruct answers as [| answer answers]; [reflexivity |].
  unfold upgrade, upgradeResumed. cbn [consent].
  destruct (is_some_string LearnMore answer); reflexivity.
Qed.

(** X12. The middleware passes the call on untouched, with one call of
    [next] and no prompt, in three cases: when the project first needs the
    migration to ARM and multiple environments, whatever the detector would
    say; when the detector answers [false]; and when the detector answers
    [true] for an allow-listed method while the latch is set. In the first
    case [next] is not awaited and the middleware returns whatever becomes
    of the call; in the two others the middleware ends as the call of
    [next] does, and throws what that call is rejected with. *)
Theorem ProjectConsolidateMW_passes_on :
  forall (env : Env) (needMigrate : bool) (ctx : CoreHookContext)
         (answers : list (option string)) (st : State),
    needMigrate = true
    \/ needConsolidateLocalRemote env ctx st = (st, inr false)
    \/ (needConsolidateLocalRemote env ctx st = (st, inr true)
        /\ method_listed (method ctx) = true /\ userCancelFlag st = true) ->
    ProjectConsolidateMW env needMigrate ctx answers st
    = Some (add_event Next st,
            if needMigrate then inr tt
            else match nextRejects env (next_calls (events st)) with
                 | Some e => inl e
                 | None => inr tt
                 end).
Proof.
  intros env needMigrate ctx answers st [-> | H]; [reflexivity |].
  unfold ProjectConsolidateMW. destruct needMigrate; [reflexivity |].
  destruct H as [-> | (-> & Hl & Hf)]; [reflexivity |].
  unfold checkMethod. rewrite (method_listed_truthy _ Hl), Hl, Hf.
  reflexivity.
Qed.

(** The sample project for an allow-listed method, with the latch set. *)
Lemma ProjectConsolidateMW_passes_on_witness :
  let ctx := mkCtx (Some "getProjectConfig") [ArgInputs sample_inputs; ArgCtx] in
  let st := set_userCancelFlag true (initial_state sample_project) in
  needConsolidateLocalRemote (sample_env no_fault false None) ctx st
  = (st, inr true)
  /\ ProjectConsolidateMW (sample_env no_fault false None) false ctx
       [Some upgradeButton] st
     = Some (add_event Next st, inr tt).
Proof.
  cbv zeta. split; [vm_compute; reflexivity |].
  apply (ProjectConsolidateMW_passes_on (sample_env no_fault false None) false
           (mkCtx (Some "getProjectConfig") [ArgInputs sample_inputs; ArgCtx])
           [Some upgradeButton]
           (set_userCancelFlag true (initial_state sample_project))).
  right. right. split; [vm_compute; reflexivity | split; reflexivity].
Defined.

Lemma ProjectConsolidateMW_modal (env : Env) (ctx : CoreHookContext)
    (answers : list (option string)) (st : State) :
  needConsolidateLocalRemote env ctx st = (st, inr true) ->
  method_listed (method ctx) = false ->
  ProjectConsolidateMW env false ctx answers st
  = upgrade env ctx true answers
      (add_event
         (SendTelemetryEvent ProjectConsolidateNotificationStart None)
         (set_userCancelFlag false st)).
Proof.
  intros Hneed Hl.
  unfold ProjectConsolidateMW. rewrite Hneed.
  unfold checkMethod. rewrite Hl, andb_false_r. cbn. reflexivity.
Qed.

Lemma next_calls_add_event (e : event) (st : State) :
  e <> Next ->
  next_calls (events (add_event e st)) = next_calls (events st).
Proof.
  intros He. unfold next_calls. cbn [events add_event].
  rewrite List.filter_app, length_app. cbn [List.filter].
  destruct e; try contradiction; cbn; lia.
Qed.

Lemma next_calls_rounds (showModal : bool) (n : nat) (st : State) :
  next_calls (events (Nat.iter n (learnMoreRound showModal) st))
  = next_calls (events st)
  /\ fs (Nat.iter n (learnMoreRound showModal) st) = fs st
  /\ userCancelFlag (Nat.iter n (learnMoreRound showModal) st)
     = userCancelFlag st.
Proof.
  induction n as [| n IH]; [auto |].
  rewrite Nat.iter_succ.
  set (s := Nat.iter n (learnMoreRound showModal) st) in *.
  unfold learnMoreRound. cbn [fs userCancelFlag add_event].
  rewrite !next_calls_add_event by discriminate. exact IH.
Qed.

(** X13. For a method outside the allow-list and a project that the
    detector accepts, the middleware shows the modal prompt; when the user
    ends it by anything but "Upgrade", after any number of "Learn More",
    the middleware returns without a single call of [next]: [ctx.result] is
    the cancellation error, no file is touched and the latch is
    released. *)
Theorem ProjectConsolidateMW_cancelled :
  forall (env : Env) (ctx : CoreHookContext) (n : nat)
         (answer : option string) (rest : list (option string)) (st : State)
         (a : Arg),
    needConsolidateLocalRemote env ctx st = (st, inr true) ->
    method_listed (method ctx) = false ->
    lookupInputs ctx = Some a ->
    answer <> Some LearnMore ->
    answer <> Some upgradeButton ->
    exists st',
      ProjectConsolidateMW env false ctx
        (repeat (Some LearnMore) n ++ answer :: rest) st
      = Some (st', inr tt)
      /\ next_calls (events st') = next_calls (events st)
      /\ result st' = Some ConsolidateCanceledError
      /\ fs st' = fs st
      /\ userCancelFlag st' = false.
Proof.
  intros env ctx n answer rest st a Hneed Hl Ha Hlm Hup.
  rewrite (ProjectConsolidateMW_modal env ctx _ st Hneed Hl).
  unfold upgrade.
  assert (Hnot : is_some_string LearnMore answer = false).
  { destruct answer as [s |]; [| reflexivity]. cbn.
    destruct (String.eqb_spec s LearnMore); congruence. }
  rewrite (consent_learn_more true n answer rest _ Hnot).
  assert (Hcancel : negb (truthy answer)
                    || negb (is_some_string upgradeButton answer) = true).
  { destruct answer as [s |]; [| reflexivity]. cbn.
    destruct (String.eqb_spec s upgradeButton); [congruence |].
    now rewrite orb_true_r. }
  rewrite Hcancel.
  set (st0 := add_event
                (SendTelemetryEvent ProjectConsolidateNotificationStart None)
                (set_userCancelFlag false st)).
  destruct (next_calls_rounds true n st0) as (Hn & Hfs & Hflag).
  unfold bind, sendTelemetryEvent, modify, outputCancelMessage, warning.
  rewrite Ha. unfold member, ret, bind, modify.
  destruct (platform_is VSCode (platform (asInputs a)));
    eexists; (split; [reflexivity |]);
    cbn [result fs userCancelFlag set_result add_event];
    rewrite Hfs, Hflag;
    (split; [| repeat split; reflexivity]);
    repeat match goal with
    | |- context [events (add_event ?e ?s)] =>
        rewrite (next_calls_add_event e s) by discriminate
    | |- context [events (set_result ?r ?s)] =>
        change (events (set_result r s)) with (events s)
    end;
    rewrite Hn; unfold st0;
    rewrite next_calls_add_event by discriminate; reflexivity.
Qed.

(** The sample project: the user dismisses the prompt. *)
Lemma ProjectConsolidateMW_cancelled_witness :
  let st := initial_state sample_project in
  needConsolidateLocalRemote (sample_env no_fault false None) sample_ctx st
  = (st, inr true)
  /\ exists st',
       ProjectConsolidateMW (sample_env no_fault false None) false sample_ctx
         [Some LearnMore; None] st
       = Some (st', inr tt)
       /\ next_calls (events st') = next_calls (events st)
       /\ result st' = Some ConsolidateCanceledError
       /\ fs st' = fs st
       /\ userCancelFlag st' = false.
Proof.
  cbv zeta. split; [vm_compute; reflexivity |].
  apply (ProjectConsolidateMW_cancelled (sample_env no_fault false None)
           sample_ctx 1 None [] (initial_state sample_project)
           (ArgInputs sample_inputs));
    try (vm_compute; reflexivity); discriminate.
Defined.

(** ** The detector after a run *)

Section AtPath.

Variables (env : Env) (p : string).

Lemma at_path_stable (rel : string) (P : option node -> Prop) :
  stable (at_path p rel P).
Proof. intros st st' Hfs _ _ H. unfold at_path. now rewrite Hfs. Qed.

Lemma at_path_fs_set (rel rel' : string) (P : option node -> Prop)
    (n : node) (st : State) :
  rel <> rel' ->
  at_path p rel P st ->
  at_path p rel P (set_fs (fs_set (nf p rel') n (fs st)) st).
Proof.
  intros Hne H. unfold at_path. cbn [fs set_fs]. rewrite fs_set_nf.
  unfold fs_set. destruct (String.eqb_spec rel rel'); [contradiction | exact H].
Qed.

Lemma addLocalEnvironment_at_path (rel : string) (P : option node -> Prop)
    (settings : ProjectSettings) :
  rel <> ".fx/configs/config.local.json" ->
  preserves (at_path p rel P) (addLocalEnvironment env p settings).
Proof.
  intros Hne. unfold addLocalEnvironment.
  apply preserves_bind;
    [apply stable_sendTelemetryEvent, at_path_stable | intros _].
  apply preserves_bind.
  { intros st H. unfold writeEnvConfig.
    destruct (faults env AtWriteEnvConfig); [exact H |].
    rewrite envConfig_nf. now apply at_path_fs_set. }
  intros [e | w]; [apply preserves_raise |].
  apply preserves_bind.
  { apply preserves_modify. intros st H. exact H. }
  intros _. apply stable_sendTelemetryEvent, at_path_stable.
Qed.

Lemma addConsolidateManifest_at_path (rel : string)
    (P : option node -> Prop) (settings : ProjectSettings) :
  rel <> "templates/appPackage/manifest.template.json" ->
  preserves (at_path p rel P) (addConsolidateManifest env p settings).
Proof.
  intros Hne. unfold addConsolidateManifest.
  apply preserves_bind; [apply preserves_read | intros found].
  apply preserves_bind;
    [| intros _; apply preserves_modify; intros st H; exact H].
  apply preserves_when.
  destruct (isSPFxProject settings).
  - apply preserves_bind;
      [apply stable_sendTelemetryEvent, at_path_stable | intros _].
    apply preserves_bind; [apply readFile_preserves | intros text].
    apply preserves_bind.
    { destruct (JSON_parse_manifest env text);
        [apply preserves_ret | apply preserves_raise]. }
    intros manifest.
    apply preserves_bind;
      [| intros _; apply stable_sendTelemetryEvent, at_path_stable].
    apply preserves_fs_op. intros st files H [= <-].
    rewrite getManifestTemplatePath_nf. now apply at_path_fs_set.
  - apply preserves_bind;
      [apply stable_sendTelemetryEvent, at_path_stable | intros _].
    apply preserves_bind;
      [| intros _; apply stable_sendTelemetryEvent, at_path_stable].
    apply preserves_fs_op. intros st files H Heff.
    destruct (fs st (remoteManifestFile p)) as [[c |] |]; try discriminate.
    injection Heff as <-.
    rewrite getManifestTemplatePath_nf. now apply at_path_fs_set.
Qed.

(** The marker folder and the unified manifest are not in the way of the
    legacy files. *)
Lemma guarded_move_at_path (rel : string) (P : option node -> Prop)
    (f : legacy_file) (name : string) :
  rel = ".fx" \/ rel = "templates/appPackage/manifest.template.json" ->
  preserves (at_path p rel P)
    (bind (read (fun st => pathExists (fs st) (nf p (original_rel f))))
       (fun found =>
          when found
            (moveToBackup env f (nf p (original_rel f))
               (nf p (backup_rel f)) name))).
Proof.
  intros Hrel.
  apply preserves_bind; [apply preserves_read | intros found].
  apply preserves_when. unfold moveToBackup.
  apply preserves_bind.
  { apply preserves_fs_op. intros st files H Heff.
    destruct (pathExists (fs st) (nf p (original_rel f))); [| discriminate].
    injection Heff as <-. unfold at_path in *. cbn [fs set_fs].
    rewrite fs_copy_nf.
    destruct Hrel as [-> | ->]; destruct f; exact H. }
  intros _. apply preserves_bind.
  { apply preserves_fs_op. intros st files H [= <-].
    unfold at_path in *. cbn [fs set_fs]. rewrite fs_remove_nf.
    destruct Hrel as [-> | ->]; destruct f; exact H. }
  intros _. apply preserves_bind; [| intros _];
    apply preserves_modify; intros st H; exact H.
Qed.

(** What is left of the [try] block after the unified manifest is
    added. *)
Lemma after_manifest_at_path (rel : string) (P : option node -> Prop)
    (inputs : Inputs) :
  rel = ".fx" \/ rel = "templates/appPackage/manifest.template.json" ->
  preserves (at_path p rel P)
    (backupLocalSettings env p ;;
     compareManifests env p ;;
     backupLocalManifest env p ;;
     backupRemoteManifest env p ;;
     sendTelemetryEvent ProjectConsolidateBackupConfig None ;;
     sendTelemetryEvent ProjectConsolidateUpgrade None ;;
     moved <- read moveFiles ;;
     detached (postConsolidate env p inputs (Some backupFolder) moved)).
Proof.
  intros Hrel.
  apply preserves_bind.
  { unfold backupLocalSettings.
    apply preserves_bind;
      [apply stable_sendTelemetryEvent, at_path_stable | intros _].
    apply preserves_bind.
    { apply preserves_modify. intros st H. exact H. }
    intros _. rewrite localSettingsFile_nf, backupLocalSettings_nf.
    now apply guarded_move_at_path. }
  intros _.
  apply preserves_bind;
    [apply stable_compareManifests, at_path_stable | intros _].
  apply preserves_bind.
  { unfold backupLocalManifest.
    rewrite localManifestFile_nf, backupLocalManifest_nf.
    now apply guarded_move_at_path. }
  intros _.
  apply preserves_bind.
  { unfold backupRemoteManifest.
    rewrite remoteManifestFile_nf, backupRemoteManifest_nf.
    now apply guarded_move_at_path. }
  intros _.
  apply preserves_bind;
    [apply stable_sendTelemetryEvent, at_path_stable | intros _].
  apply preserves_bind;
    [apply stable_sendTelemetryEvent, at_path_stable | intros _].
  apply preserves_bind; [apply preserves_read | intros moved].
  apply stable_postConsolidate, at_path_stable.
Qed.

(** When the unified manifest has been added, it is there exactly when
    there was a remote manifest. *)
Lemma addConsolidateManifest_template (settings : ProjectSettings)
    (remote : option node) :
  hoare
    (fun st =>
       at_path p (original_rel RemoteManifest) (eq remote) st
       /\ at_path p "templates/appPackage/manifest.template.json"
            (eq None) st)
    (addConsolidateManifest env p settings)
    (fun _ =>
       at_path p "templates/appPackage/manifest.template.json"
         (fun found => found = None <-> remote = None))
    (fun _ => True).
Proof.
  intros st [Hremote Htemplate]. unfold at_path in *.
  unfold addConsolidateManifest, bind, read, when, push, copyFile, writeFile,
    readFile, fs_op, sendTelemetryEvent, modify, ret, raise.
  rewrite remoteManifestFile_nf, getManifestTemplatePath_nf.
  unfold pathExists. cbn [fs add_event]. rewrite <- Hremote.
  destruct remote as [n |].
  - destruct (isSPFxProject settings); cbn [fs add_event].
    + destruct (faults env AtReadRemoteManifest); [exact I |].
      rewrite <- Hremote. destruct n as [c |]; [| exact I].
      destruct (JSON_parse_manifest env c); [| exact I].
      destruct (faults env AtWriteManifest); [exact I |].
      cbn [fs set_fs set_fileList add_event]. unfold fs_set.
      rewrite String.eqb_refl. split; discriminate.
    + destruct (faults env AtCopyManifest); [exact I |].
      cbn [fs add_event]. rewrite <- Hremote.
      destruct n as [c |]; [| exact I].
      cbn [fs set_fs set_fileList add_event]. unfold fs_set.
      rewrite String.eqb_refl. split; discriminate.
  - cbn [fs set_fileList]. rewrite <- Htemplate. tauto.
Qed.

(** When the [try] block is over, the marker folder is where it was, and
    the unified manifest is there exactly when there was a remote
    manifest. *)
Lemma transform_detector (inputs : Inputs) (settings : ProjectSettings)
    (remote : option node) :
  hoare
    (fun st =>
       at_path p ".fx" (fun found => found <> None) st
       /\ at_path p (original_rel RemoteManifest) (eq remote) st
       /\ at_path p "templates/appPackage/manifest.template.json"
            (eq None) st)
    (transform env p inputs settings)
    (fun _ st =>
       at_path p ".fx" (fun found => found <> None) st
       /\ at_path p "templates/appPackage/manifest.template.json"
            (fun found => found = None <-> remote = None) st)
    (fun _ => True).
Proof.
  unfold transform.
  apply hoare_bind
    with (Q := fun _ st =>
                 at_path p ".fx" (fun found => found <> None) st
                 /\ at_path p (original_rel RemoteManifest) (eq remote) st
                 /\ at_path p "templates/appPackage/manifest.template.json"
                      (eq None) st).
  { apply hoare_weaken
      with (P' := fun st =>
                    at_path p ".fx" (fun found => found <> None) st
                    /\ at_path p (original_rel RemoteManifest) (eq remote) st
                    /\ at_path p "templates/appPackage/manifest.template.json"
                         (eq None) st)
           (Q' := fun _ st =>
                    at_path p ".fx" (fun found => found <> None) st
                    /\ at_path p (original_rel RemoteManifest) (eq remote) st
                    /\ at_path p "templates/appPackage/manifest.template.json"
                         (eq None) st)
           (E' := fun st =>
                    at_path p ".fx" (fun found => found <> None) st
                    /\ at_path p (original_rel RemoteManifest) (eq remote) st
                    /\ at_path p "templates/appPackage/manifest.template.json"
                         (eq None) st); auto.
    repeat apply preserves_conj;
      apply addLocalEnvironment_at_path; discriminate. }
  intros _.
  apply hoare_bind
    with (Q := fun _ st =>
                 at_path p "templates/appPackage/manifest.template.json"
                   (fun found => found = None <-> remote = None) st
                 /\ at_path p ".fx" (fun found => found <> None) st).
  { eapply hoare_weaken;
      [apply (hoare_conj_keep
                (fun st =>
                   at_path p (original_rel RemoteManifest) (eq remote) st
                   /\ at_path p "templates/appPackage/manifest.template.json"
                        (eq None) st)
                (at_path p ".fx" (fun found => found <> None)));
       [apply addConsolidateManifest_template
       | apply addConsolidateManifest_at_path; discriminate] | | |];
      cbn beta; tauto. }
  intros _.
  apply hoare_weaken
    with (P' := fun st =>
                  at_path p "templates/appPackage/manifest.template.json"
                    (fun found => found = None <-> remote = None) st
                  /\ at_path p ".fx" (fun found => found <> None) st)
         (Q' := fun _ st =>
                  at_path p "templates/appPackage/manifest.template.json"
                    (fun found => found = None <-> remote = None) st
                  /\ at_path p ".fx" (fun found => found <> None) st)
         (E' := fun st =>
                  at_path p "templates/appPackage/manifest.template.json"
                    (fun found => found = None <-> remote = None) st
                  /\ at_path p ".fx" (fun found => found <> None) st);
    [| tauto | cbn beta; tauto | auto].
  apply preserves_conj; apply after_manifest_at_path; auto.
Qed.

End AtPath.

Lemma marker_nf (p : string) : path_join [p; ".fx"] = nf p ".fx".
Proof. destruct p; reflexivity. Qed.

Lemma template_nf (p : string) :
  path_join [p; "templates"; "appPackage"; "manifest.template.json"]
  = nf p "templates/appPackage/manifest.template.json".
Proof. destruct p; reflexivity. Qed.

(** X15. After a run that returned [true] on a project that the detector
    accepted, the detector accepts the project again exactly when the
    project had no remote manifest template: the unified manifest is
    written from the remote manifest, and without one the migration is
    offered at every call. *)
Theorem detector_after_success :
  forall (env : Env) (ctx : CoreHookContext) (st : State) (a : Arg)
         (p : string),
    lookupInputs ctx = Some a ->
    projectPath (asInputs a) = Some p ->
    needConsolidateLocalRemote env ctx st = (st, inr true) ->
    snd (consolidateLocalRemote env ctx st) = inr true ->
    needConsolidateLocalRemote env ctx (fst (consolidateLocalRemote env ctx st))
    = (fst (consolidateLocalRemote env ctx st),
       inr (negb (pathExists (fs st) (remoteManifestFile p)))).
Proof.
  intros env ctx st a p Ha Hp Hneed Hret.
  rewrite (needConsolidateLocalRemote_eval env ctx st a Ha) in Hneed.
  rewrite Hp in Hneed. cbn [render] in Hneed.
  rewrite marker_nf, template_nf in Hneed.
  injection Hneed as Hneed.
  apply andb_true_iff in Hneed as [Hneed Htemplate].
  apply andb_true_iff in Hneed as [Hneed Hmarker].
  apply andb_true_iff in Hneed as [Hflag Hpath].
  apply negb_true_iff in Htemplate.
  set (remote := fs st (nf p (original_rel RemoteManifest))).
  set (Q := fun s =>
              at_path p ".fx" (fun found => found <> None) s
              /\ at_path p "templates/appPackage/manifest.template.json"
                   (fun found => found = None <-> remote = None) s).
  assert (Hrun : hoare (fun s => s = st) (consolidateLocalRemote env ctx)
                   (fun b s =>
                      if b then Q s
                      else fs s = fs st
                           /\ exists error,
                                loadProjectSettings env (fs st) (asInputs a)
                                = inl error)
                   (fun _ => True)).
  { apply (consolidateLocalRemote_triple env ctx st a p Q Q (fun _ => True)
             Ha Hp).
    - intros settings _.
      apply hoare_tryCatch with (E' := fun _ => True).
      + eapply hoare_weaken;
          [apply (transform_detector env p (asInputs a) settings remote)
          | | |]; cbn beta; auto.
        intros s (Hfs & _ & _). unfold at_path. rewrite Hfs.
        unfold pathExists in Hmarker, Htemplate.
        repeat split.
        * intros Hnone. rewrite Hnone in Hmarker. discriminate.
        * destruct (fs st (nf p "templates/appPackage/manifest.template.json"));
            [discriminate | reflexivity].
      + intros e. apply hoare_throws with (Q := fun _ _ => True);
          [apply hoare_any | apply rollback_throws].
    - apply hoare_weaken with (P' := Q) (Q' := fun _ => Q) (E' := Q);
        [| auto | auto | auto].
      apply generateUpgradeReport_fs. intros s c [H1 H2].
      split; apply at_path_fs_set; auto; discriminate. }
  specialize (Hrun st eq_refl).
  rewrite (needConsolidateLocalRemote_eval env ctx _ a Ha).
  destruct (consolidateLocalRemote env ctx st) as [st' [e | b]];
    cbn [fst snd] in *; [discriminate |].
  injection Hret as ->. destruct Hrun as [H1 H2]. unfold at_path in *.
  rewrite Hp. cbn [render truthy]. cbn [truthy] in Hpath.
  rewrite marker_nf, template_nf, Hflag, Hpath.
  rewrite remoteManifestFile_nf. unfold pathExists.
  change (fs st (nf p (original_rel RemoteManifest))) with remote.
  destruct (fs st' (nf p ".fx")); [| congruence].
  destruct (fs st' (nf p "templates/appPackage/manifest.template.json"));
    destruct remote; cbn; try reflexivity; exfalso;
    destruct H2 as [Hto Hfrom];
    first [discriminate (Hto eq_refl) | discriminate (Hfrom eq_refl)].
Qed.

(** The sample project, which has a remote manifest: it is not accepted
    again after the run. *)
Lemma detector_after_success_witness :
  let env := sample_env no_fault false None in
  let st := initial_state sample_project in
  (needConsolidateLocalRemote env sample_ctx st = (st, inr true)
   /\ snd (consolidateLocalRemote env sample_ctx st) = inr true)
  /\ needConsolidateLocalRemote env sample_ctx
       (fst (consolidateLocalRemote env sample_ctx st))
     = (fst (consolidateLocalRemote env sample_ctx st),
        inr (negb (pathExists (fs st) (remoteManifestFile "/proj")))).
Proof.
  cbv zeta.
  assert (Hneed : needConsolidateLocalRemote (sample_env no_fault false None)
                    sample_ctx (initial_state sample_project)
                  = (initial_state sample_project, inr true))
    by (vm_compute; reflexivity).
  assert (Hret : snd (consolidateLocalRemote (sample_env no_fault false None)
                        sample_ctx (initial_state sample_project))
                 = inr true) by (vm_compute; reflexivity).
  split; [split; assumption |].
  exact (detector_after_success (sample_env no_fault false None) sample_ctx
           (initial_state sample_project) (ArgInputs sample_inputs) "/proj"
           eq_refl eq_refl Hneed Hret).
Defined.

(** ** A run in which nothing is rejected *)

Lemma hoare_fs_op_accepted (env : Env) (site : io_site)
    (effect : FS -> option FS) (P : State -> Prop)
    (Q : unit -> State -> Prop) (E : State -> Prop) :
  faults env site = false ->
  (forall st, P st ->
     exists files, effect (fs st) = Some files /\ Q tt (set_fs files st)) ->
  hoare P (fs_op env site effect) Q E.
Proof.
  intros Hsite H st HP. unfold fs_op. rewrite Hsite.
  destruct (H st HP) as (files & -> & HQ). exact HQ.
Qed.

Lemma hoare_returns {A : Type} (P : State -> Prop) (c : M A)
    (E : State -> Prop) :
  (forall st, exists st' x, c st = (st', inr x)) ->
  hoare P c (fun _ _ => True) E.
Proof.
  intros H st _. destruct (H st) as (st' & x & ->). exact I.
Qed.

Section Accepted.

Variables (env : Env) (p : string).

Hypothesis accepted : forall site, try_site site = true -> faults env site = false.

Lemma guarded_move_accepted (f : legacy_file) (name : string)
    (P : State -> Prop) :
  hoare P
    (bind (read (fun st => pathExists (fs st) (nf p (original_rel f))))
       (fun found =>
          when found
            (moveToBackup env f (nf p (original_rel f))
               (nf p (backup_rel f)) name)))
    (fun _ _ => True) (fun _ => False).
Proof.
  eapply hoare_bind; [apply hoare_read |].
  intros found. apply hoare_when; [| auto].
  intros ->. unfold moveToBackup.
  apply hoare_bind with (Q := fun _ _ => True).
  { apply hoare_fs_op_accepted; [now apply accepted |].
    intros st [_ Hfound]. rewrite <- Hfound. eauto. }
  intros _. apply hoare_bind with (Q := fun _ _ => True).
  { apply hoare_fs_op_accepted; [now apply accepted | eauto]. }
  intros _. apply hoare_bind with (Q := fun _ _ => True);
    [| intros _]; apply hoare_modify; auto.
Qed.

Lemma addLocalEnvironment_accepted (settings : ProjectSettings)
    (P : option node -> Prop) :
  hoare (at_path p (original_rel RemoteManifest) P)
    (addLocalEnvironment env p settings)
    (fun _ => at_path p (original_rel RemoteManifest) P) (fun _ => False).
Proof.
  intros st H.
  unfold addLocalEnvironment, push, bind, sendTelemetryEvent, modify,
    writeEnvConfig.
  rewrite (accepted AtWriteEnvConfig eq_refl), envConfig_nf.
  unfold at_path in *.
  cbn [fs set_fs set_fileList add_event]. rewrite fs_set_nf.
  exact H.
Qed.

Lemma addConsolidateManifest_accepted (settings : ProjectSettings) :
  hoare
    (at_path p (original_rel RemoteManifest)
       (remote_manifest_usable env settings))
    (addConsolidateManifest env p settings)
    (fun _ _ => True) (fun _ => False).
Proof.
  intros st H. unfold at_path in H.
  unfold addConsolidateManifest, bind, read, when, push, copyFile, writeFile,
    readFile, fs_op, sendTelemetryEvent, modify, ret, raise.
  rewrite remoteManifestFile_nf. unfold pathExists. cbn [fs add_event].
  destruct (fs st (nf p (original_rel RemoteManifest))) as [[text |] |] eqn:Hr;
    cbn in H; [| contradiction | exact I].
  destruct (isSPFxProject settings); cbn [fs add_event].
  - rewrite (accepted AtReadRemoteManifest eq_refl), Hr.
    destruct (JSON_parse_manifest env text); [| now destruct H].
    rewrite (accepted AtWriteManifest eq_refl). exact I.
  - rewrite (accepted AtCopyManifest eq_refl). cbn [fs add_event].
    rewrite Hr. exact I.
Qed.

Lemma compareManifests_returns (st : State) :
  exists st' x, compareManifests env p st = (st', inr x).
Proof.
  unfold compareManifests, bind, read, when.
  destruct (_ && _); [| unfold ret; eauto].
  pose proof (compare_cases env (localManifestFile p) (remoteManifestFile p)
                st) as [Hret _].
  destruct (compareLocalAndRemoteManifest env _ _ st) as [st' [e | []]];
    [discriminate | eauto].
Qed.

(** The [try] block returns. *)
Lemma transform_accepted (inputs : Inputs) (settings : ProjectSettings) :
  hoare
    (at_path p (original_rel RemoteManifest)
       (remote_manifest_usable env settings))
    (transform env p inputs settings) (fun _ _ => True) (fun _ => False).
Proof.
  unfold transform.
  apply hoare_bind
    with (Q := fun _ =>
                 at_path p (original_rel RemoteManifest)
                   (remote_manifest_usable env settings));
    [apply addLocalEnvironment_accepted | intros _].
  apply hoare_bind with (Q := fun _ _ => True);
    [apply addConsolidateManifest_accepted | intros _].
  apply hoare_bind with (Q := fun _ _ => True).
  { unfold backupLocalSettings.
    apply hoare_bind with (Q := fun _ _ => True);
      [apply hoare_modify; auto | intros _].
    apply hoare_bind with (Q := fun _ _ => True);
      [apply hoare_modify; auto | intros _].
    rewrite localSettingsFile_nf, backupLocalSettings_nf.
    apply guarded_move_accepted. }
  intros _.
  apply hoare_bind with (Q := fun _ _ => True);
    [apply hoare_returns, compareManifests_returns | intros _].
  apply hoare_bind with (Q := fun _ _ => True).
  { unfold backupLocalManifest.
    rewrite localManifestFile_nf, backupLocalManifest_nf.
    apply guarded_move_accepted. }
  intros _.
  apply hoare_bind with (Q := fun _ _ => True).
  { unfold backupRemoteManifest.
    rewrite remoteManifestFile_nf, backupRemoteManifest_nf.
    apply guarded_move_accepted. }
  intros _.
  apply hoare_bind with (Q := fun _ _ => True);
    [apply hoare_modify; auto | intros _].
  apply hoare_bind with (Q := fun _ _ => True);
    [apply hoare_modify; auto | intros _].
  eapply hoare_bind; [apply hoare_read | intros moved].
  intros st _.
  pose proof (detached_returns
                (postConsolidate env p inputs (Some backupFolder) moved) st)
    as Hr.
  destruct (detached _ st) as [st' [e | x]]; [discriminate | exact I].
Qed.

End Accepted.

(** X16. A run in which no file operation of the [try] block is rejected
    returns [true], provided that the settings load and that what is at
    the path of the remote manifest, if anything, is a file, which parses
    when the project is an SPFx project. Whether the comparison of the two
    manifests, the update of the ignore file or the copy of the report fail
    makes no difference. *)
Theorem run_completes :
  forall (env : Env) (ctx : CoreHookContext) (st : State) (a : Arg)
         (p : string) (settings : ProjectSettings),
    lookupInputs ctx = Some a ->
    projectPath (asInputs a) = Some p ->
    loadProjectSettings env (fs st) (asInputs a) = inr settings ->
    (forall site, try_site site = true -> faults env site = false) ->
    remote_manifest_usable env settings (fs st (remoteManifestFile p)) ->
    snd (consolidateLocalRemote env ctx st) = inr true.
Proof.
  intros env ctx st a p settings Ha Hp Hload Haccepted Hremote.
  pose proof (consolidateLocalRemote_triple env ctx st a p
                (fun _ => True) (fun _ => True) (fun _ => False) Ha Hp)
    as Hrun.
  assert (H : hoare (fun s => s = st) (consolidateLocalRemote env ctx)
                (fun b s =>
                   if b then True
                   else fs s = fs st
                        /\ exists error,
                             loadProjectSettings env (fs st) (asInputs a)
                             = inl error)
                (fun _ => False)).
  { apply Hrun.
    - intros settings' Hload'.
      assert (settings' = settings) by congruence. subst settings'.
      apply hoare_tryCatch with (E' := fun _ => False); [| intros e s []].
      eapply hoare_weaken;
        [apply (transform_accepted env p Haccepted (asInputs a) settings)
        | | |]; cbn beta; auto.
      intros s (Hfs & _). unfold at_path. rewrite Hfs.
      now rewrite <- remoteManifestFile_nf.
    - intros s _. now rewrite detached_last_await. }
  specialize (H st eq_refl).
  destruct (consolidateLocalRemote env ctx st) as [st' [e | [|]]];
    cbn [snd]; [contradiction | reflexivity |].
  destruct H as (_ & error & Herr). congruence.
Qed.

(** The sample project, with the reads of the comparison, the update of
    the ignore file and the copy of the report rejected. *)
Lemma run_completes_witness :
  let env :=
    sample_env
      (fun site =>
         match site with
         | AtCompareRead _ | AtAddPathToGitignore _ | AtReport => true
         | _ => false
         end) false None in
  snd (consolidateLocalRemote env sample_ctx (initial_state sample_project))
  = inr true.
Proof.
  cbv zeta.
  apply (run_completes
           (sample_env
              (fun site =>
                 match site with
                 | AtCompareRead _ | AtAddPathToGitignore _ | AtReport => true
                 | _ => false
                 end) false None)
           sample_ctx (initial_state sample_project)
           (ArgInputs sample_inputs) "/proj" (mkSettings "myapp" false)
           eq_refl eq_refl eq_refl).
  - intros site Hsite. destruct site; try discriminate Hsite; reflexivity.
  - cbn. discriminate.
Defined.

(** ** The unified manifest after a run *)

Section Unified.

Variables (env : Env) (p : string).

Lemma addConsolidateManifest_unified (settings : ProjectSettings)
    (remote before : option node) :
  hoare
    (fun st =>
       at_path p (original_rel RemoteManifest) (eq remote) st
       /\ at_path p "templates/appPackage/manifest.template.json"
            (eq before) st)
    (addConsolidateManifest env p settings)
    (fun _ =>
       at_path p "templates/appPackage/manifest.template.json"
         (unified_manifest env settings remote before))
    (fun _ => True).
Proof.
  intros st [Hremote Hbefore]. unfold at_path in *.
  unfold addConsolidateManifest, bind, read, when, push, copyFile, writeFile,
    readFile, fs_op, sendTelemetryEvent, modify, ret, raise.
  rewrite remoteManifestFile_nf, getManifestTemplatePath_nf.
  unfold pathExists, unified_manifest. cbn [fs add_event]. rewrite <- Hremote.
  destruct remote as [n |].
  - destruct (isSPFxProject settings); cbn [fs add_event].
    + destruct (faults env AtReadRemoteManifest); [exact I |].
      rewrite <- Hremote. destruct n as [text |]; [| exact I].
      destruct (JSON_parse_manifest env text) as [manifest |] eqn:Hparse;
        [| exact I].
      destruct (faults env AtWriteManifest); [exact I |].
      cbn [fs set_fs set_fileList add_event]. unfold fs_set.
      rewrite String.eqb_refl. eauto.
    + destruct (faults env AtCopyManifest); [exact I |].
      cbn [fs add_event]. rewrite <- Hremote.
      destruct n as [text |]; [| exact I].
      cbn [fs set_fs set_fileList add_event]. unfold fs_set.
      now rewrite String.eqb_refl.
  - cbn [fs set_fileList]. now rewrite <- Hbefore.
Qed.

Lemma transform_unified (inputs : Inputs) (settings : ProjectSettings)
    (remote before : option node) :
  hoare
    (fun st =>
       at_path p (original_rel RemoteManifest) (eq remote) st
       /\ at_path p "templates/appPackage/manifest.template.json"
            (eq before) st)
    (transform env p inputs settings)
    (fun _ =>
       at_path p "templates/appPackage/manifest.template.json"
         (unified_manifest env settings remote before))
    (fun _ => True).
Proof.
  unfold transform.
  apply hoare_bind
    with (Q := fun _ st =>
                 at_path p (original_rel RemoteManifest) (eq remote) st
                 /\ at_path p "templates/appPackage/manifest.template.json"
                      (eq before) st).
  { apply hoare_weaken
      with (P' := fun st =>
                    at_path p (original_rel RemoteManifest) (eq remote) st
                    /\ at_path p "templates/appPackage/manifest.template.json"
                         (eq before) st)
           (Q' := fun _ st =>
                    at_path p (original_rel RemoteManifest) (eq remote) st
                    /\ at_path p "templates/appPackage/manifest.template.json"
                         (eq before) st)
           (E' := fun st =>
                    at_path p (original_rel RemoteManifest) (eq remote) st
                    /\ at_path p "templates/appPackage/manifest.template.json"
                         (eq before) st); auto.
    apply preserves_conj; apply addLocalEnvironment_at_path; discriminate. }
  intros _.
  apply hoare_bind
    with (Q := fun _ =>
                 at_path p "templates/appPackage/manifest.template.json"
                   (unified_manifest env settings remote before));
    [apply addConsolidateManifest_unified | intros _].
  apply hoare_weaken
    with (P' := at_path p "templates/appPackage/manifest.template.json"
                  (unified_manifest env settings remote before))
         (Q' := fun _ =>
                  at_path p "templates/appPackage/manifest.template.json"
                    (unified_manifest env settings remote before))
         (E' := at_path p "templates/appPackage/manifest.template.json"
                  (unified_manifest env settings remote before)); auto.
  apply after_manifest_at_path. auto.
Qed.

End Unified.

(** X17. When a run returns [true], the unified manifest holds the remote
    manifest that the project had: as it was, byte for byte, for a project
    that is not an SPFx project; parsed, with its URLs rewritten, and
    serialised for an SPFx project. It survives the moving of the legacy
    files. Without a remote manifest the path of the unified manifest is
    left as it was, and a run does not return [true] on a folder in place
    of the remote manifest. *)
Theorem unified_manifest_after_success :
  forall (env : Env) (ctx : CoreHookContext) (st : State) (a : Arg)
         (p : string) (settings : ProjectSettings),
    lookupInputs ctx = Some a ->
    projectPath (asInputs a) = Some p ->
    loadProjectSettings env (fs st) (asInputs a) = inr settings ->
    snd (consolidateLocalRemote env ctx st) = inr true ->
    unified_manifest env settings
      (fs st (remoteManifestFile p))
      (fs st (getManifestTemplatePath p))
      (fs (fst (consolidateLocalRemote env ctx st))
         (getManifestTemplatePath p)).
Proof.
  intros env ctx st a p settings Ha Hp Hload Hret.
  rewrite remoteManifestFile_nf, getManifestTemplatePath_nf.
  set (remote := fs st (nf p (original_rel RemoteManifest))).
  set (before := fs st (nf p "templates/appPackage/manifest.template.json")).
  set (Q := at_path p "templates/appPackage/manifest.template.json"
              (unified_manifest env settings remote before)).
  assert (Hrun : hoare (fun s => s = st) (consolidateLocalRemote env ctx)
                   (fun b s =>
                      if b then Q s
                      else fs s = fs st
                           /\ exists error,
                                loadProjectSettings env (fs st) (asInputs a)
                                = inl error)
                   (fun _ => True)).
  { apply (consolidateLocalRemote_triple env ctx st a p Q Q (fun _ => True)
             Ha Hp).
    - intros settings' Hload'.
      assert (settings' = settings) by congruence. subst settings'.
      apply hoare_tryCatch with (E' := fun _ => True).
      + eapply hoare_weaken;
          [apply (transform_unified env p (asInputs a) settings remote before)
          | | |]; cbn beta; auto.
        intros s (Hfs & _ & _). unfold at_path. now rewrite Hfs.
      + intros e. apply hoare_throws with (Q := fun _ _ => True);
          [apply hoare_any | apply rollback_throws].
    - apply hoare_weaken with (P' := Q) (Q' := fun _ => Q) (E' := Q);
        [| auto | auto | auto].
      apply generateUpgradeReport_fs. intros s c H.
      apply at_path_fs_set; [discriminate | exact H]. }
  specialize (Hrun st eq_refl).
  destruct (consolidateLocalRemote env ctx st) as [st' [e | b]];
    cbn [fst snd] in *; [discriminate |].
  injection Hret as ->. exact Hrun.
Qed.

(** The sample project, which is not an SPFx project: its remote manifest
    is the unified manifest. *)
Lemma unified_manifest_after_success_witness :
  let env := sample_env no_fault false None in
  let st := initial_state sample_project in
  snd (consolidateLocalRemote env sample_ctx st) = inr true
  /\ fs (fst (consolidateLocalRemote env sample_ctx st))
       (getManifestTemplatePath "/proj")
     = Some (File "remote manifest").
Proof.
  cbv zeta.
  assert (Hret : snd (consolidateLocalRemote (sample_env no_fault false None)
                        sample_ctx (initial_state sample_project))
                 = inr true) by (vm_compute; reflexivity).
  split; [exact Hret |].
  exact (unified_manifest_after_success (sample_env no_fault false None)
           sample_ctx (initial_state sample_project)
           (ArgInputs sample_inputs) "/proj" (mkSettings "myapp" false)
           eq_refl eq_refl eq_refl Hret).
Defined.

(** ** The calls that end a run *)

Lemma append_empty_r (s : string) : s +:+ "" = s.
Proof.
  induction s as [| c s IH]; [reflexivity |].
  change (String c (s +:+ "") = String c s). now rewrite IH.
Qed.

Lemma skipn_length_app {A : Type} (l l' : list A) :
  skipn (length l) (l ++ l') = l'.
Proof. induction l as [| x l IH]; [reflexivity | exact IH]. Qed.

Section Background.

Variables (env : Env) (p : string).

Lemma quiet_preserves {A : Type} (bg : list (list event)) (c : M A) :
  quiet c -> preserves (fun st => background st = bg) c.
Proof.
  intros H st Hst. specialize (H st).
  destruct (c st) as [st' [e | x]]; cbn [fst] in H; congruence.
Qed.

Lemma quiet_bind {A B : Type} (c : M A) (k : A -> M B) :
  quiet c -> (forall x, quiet (k x)) -> quiet (bind c k).
Proof.
  intros Hc Hk st. unfold bind. specialize (Hc st).
  destruct (c st) as [st1 [e | x]]; cbn [fst] in *; [exact Hc |].
  now rewrite Hk.
Qed.

Lemma quiet_when (b : bool) (c : M unit) : quiet c -> quiet (when b c).
Proof. intros H. destruct b; [exact H | intros st; reflexivity]. Qed.

Lemma quiet_modify (f : State -> State) :
  (forall st, background (f st) = background st) -> quiet (modify f).
Proof. intros H st. apply H. Qed.

Lemma quiet_fs_op (site : io_site) (effect : FS -> option FS) :
  quiet (fs_op env site effect).
Proof.
  intros st. unfold fs_op.
  destruct (faults env site); [reflexivity |].
  destruct (effect (fs st)); reflexivity.
Qed.

Lemma quiet_guarded_move (f : legacy_file) (file backup name : string) :
  quiet
    (bind (read (fun st => pathExists (fs st) file))
       (fun found => when found (moveToBackup env f file backup name))).
Proof.
  apply quiet_bind; [intros st; reflexivity | intros found].
  apply quiet_when. unfold moveToBackup, copy, remove.
  repeat (apply quiet_bind; [| intros ?]);
    first [apply quiet_fs_op | apply quiet_modify; reflexivity].
Qed.

Lemma quiet_compareManifests : quiet (compareManifests env p).
Proof.
  intros st. unfold compareManifests, bind, read, when.
  destruct (_ && _); [| reflexivity].
  pose proof (compare_cases env (localManifestFile p) (remoteManifestFile p)
                st) as [_ Hst].
  destruct (compareLocalAndRemoteManifest env _ _ st) as [st' [e | []]];
    cbn [fst] in *;
    destruct Hst as [-> | [-> | [e' ->]]]; reflexivity.
Qed.

Lemma quiet_addLocalEnvironment (settings : ProjectSettings) :
  quiet (addLocalEnvironment env p settings).
Proof.
  intros st.
  unfold addLocalEnvironment, push, sendTelemetryEvent, writeEnvConfig, bind,
    modify, raise.
  destruct (faults env AtWriteEnvConfig); reflexivity.
Qed.

Lemma quiet_addConsolidateManifest (settings : ProjectSettings) :
  quiet (addConsolidateManifest env p settings).
Proof.
  unfold addConsolidateManifest.
  apply quiet_bind; [intros st; reflexivity | intros found].
  apply quiet_bind; [| intros _; apply quiet_modify; reflexivity].
  apply quiet_when. destruct (isSPFxProject settings).
  - apply quiet_bind; [apply quiet_modify; reflexivity | intros _].
    apply quiet_bind.
    { intros st. unfold readFile.
      destruct (faults env AtReadRemoteManifest); [reflexivity |].
      destruct (fs st _) as [[c |] |]; reflexivity. }
    intros text. apply quiet_bind.
    { destruct (JSON_parse_manifest env text); intros st; reflexivity. }
    intros manifest.
    apply quiet_bind; [apply quiet_fs_op | intros _].
    apply quiet_modify; reflexivity.
  - apply quiet_bind; [apply quiet_modify; reflexivity | intros _].
    apply quiet_bind; [apply quiet_fs_op | intros _].
    apply quiet_modify; reflexivity.
Qed.

End Background.

Section Closing.

Variables (env : Env) (p : string).

Lemma guarded_move_untouched (f f' : legacy_file) (name : string)
    (P : option node -> Prop) :
  f <> f' ->
  preserves (at_path p (original_rel f') P)
    (bind (read (fun st => pathExists (fs st) (nf p (original_rel f))))
       (fun found =>
          when found
            (moveToBackup env f (nf p (original_rel f))
               (nf p (backup_rel f)) name))).
Proof.
  intros Hne.
  apply preserves_bind; [apply preserves_read | intros found].
  apply preserves_when. unfold moveToBackup.
  apply preserves_bind.
  { apply preserves_fs_op. intros st files H Heff.
    destruct (pathExists (fs st) (nf p (original_rel f))); [| discriminate].
    injection Heff as <-. unfold at_path in *. cbn [fs set_fs].
    now rewrite copy_original. }
  intros _. apply preserves_bind.
  { apply preserves_fs_op. intros st files H [= <-].
    unfold at_path in *. cbn [fs set_fs]. now rewrite remove_other. }
  intros _. apply preserves_bind; [| intros _];
    apply preserves_modify; intros st H; exact H.
Qed.

(** What the move of one legacy file adds to [moveFiles]. *)
Lemma guarded_move_names (f : legacy_file) (name names : string)
    (found : option node) :
  hoare
    (fun st => moveFiles st = names
               /\ at_path p (original_rel f) (eq found) st)
    (bind (read (fun st => pathExists (fs st) (nf p (original_rel f))))
       (fun found =>
          when found
            (moveToBackup env f (nf p (original_rel f))
               (nf p (backup_rel f)) name)))
    (fun _ st =>
       moveFiles st
       = names +:+ match found with
                   | Some _ => name +:+ ","
                   | None => ""
                   end)
    (fun _ => True).
Proof.
  intros st [Hnames Hfound]. unfold at_path in Hfound.
  unfold when, moveToBackup, copy, remove, fs_op, bind, read, modify, ret.
  cbn beta. unfold pathExists. rewrite <- Hfound.
  destruct found as [n |].
  - cbn beta iota. rewrite <- Hfound.
    destruct (faults env (AtBackupCopy f)); [exact I |].
    destruct (faults env (AtBackupRemove f)); [exact I |].
    cbn [moveFiles set_fs set_moveFiles set_removeMap]. now rewrite Hnames.
  - cbn beta iota. rewrite Hnames. symmetry. apply append_empty_r.
Qed.

Lemma names_stable (names : string) (c : M unit) :
  (forall st, moveFiles (fst (c st)) = moveFiles st) ->
  preserves (fun st => moveFiles st = names) c.
Proof.
  intros H st Hst. specialize (H st).
  destruct (c st) as [st' [e | x]]; cbn [fst] in H; congruence.
Qed.

Lemma compareManifests_names (st : State) :
  moveFiles (fst (compareManifests env p st)) = moveFiles st.
Proof.
  unfold compareManifests, bind, read, when.
  destruct (_ && _); [| reflexivity].
  pose proof (compare_cases env (localManifestFile p) (remoteManifestFile p)
                st) as [_ Hst].
  destruct (compareLocalAndRemoteManifest env _ _ st) as [st' [e | []]];
    cbn [fst] in *;
    destruct Hst as [-> | [-> | [e' ->]]]; reflexivity.
Qed.

Variables (files0 : FS) (inputs : Inputs) (bg : list (list event)).

Hypothesis ignore_accepted :
  forall path, faults env (AtAddPathToGitignore path) = false.

(** The names that the moves of the three legacy files leave in
    [moveFiles]. *)
Let listed (f : legacy_file) : string :=
  match files0 (nf p (original_rel f)) with
  | Some _ => legacy_name f +:+ ","
  | None => ""
  end.

Let untouched (f : legacy_file) : State -> Prop :=
  at_path p (original_rel f) (eq (files0 (nf p (original_rel f)))).

Let no_log (st : State) : Prop := background st = bg.

Lemma postConsolidate_calls (st : State) :
  let st' :=
    fst (detached
           (postConsolidate env p inputs (Some backupFolder)
              ((("" +:+ listed LocalSettings) +:+ listed LocalManifest)
                 +:+ listed RemoteManifest)) st) in
  events st' = events st ++ first_closing_calls env p
  /\ background st'
     = background st
       ++ [later_closing_calls env p inputs (legacy_found p files0)].
Proof.
  unfold detached, postConsolidate, updateGitIgnore. cbn [fst snd].
  unfold when, warning, addPathToGitignore, sendTelemetryEvent, bind, modify,
    ret.
  cbn [truthy render]. change (negb (String.eqb backupFolder "")) with true.
  cbn beta iota.
  repeat match goal with
  | |- context [faults env (AtAddPathToGitignore ?path)] =>
      rewrite (ignore_accepted path)
  end.
  cbn beta iota.
  set (st1 := add_event _ (add_event _ st)).
  assert (Hst1 : events st1 = events st ++ first_closing_calls env p).
  { unfold st1, first_closing_calls. cbn [events add_event].
    now rewrite <- app_assoc. }
  assert (Hbg : background st1 = background st) by reflexivity.
  unfold later_closing_calls, legacy_found, listed, pathExists.
  cbn [List.filter].
  destruct (files0 (nf p (original_rel LocalSettings)));
    destruct (files0 (nf p (original_rel LocalManifest)));
    destruct (files0 (nf p (original_rel RemoteManifest)));
    destruct (platform_is VSCode (platform inputs));
    repeat match goal with
    | |- context [String.length ?m] =>
        let v := eval vm_compute in (String.length m) in
        progress change (String.length m) with v
    end;
    cbn [Nat.ltb Nat.leb negb events background add_event fst defer];
    rewrite <- Hbg, <- ?app_assoc, skipn_length_app; cbn [app log_of];
    (split; [exact Hst1 | reflexivity]).
Qed.

Lemma transform_closing (settings : ProjectSettings) :
  hoare (fun st => (forall f, untouched f st) /\ no_log st)
    (transform env p inputs settings)
    (fun _ st =>
       (exists earlier, events st = earlier ++ first_closing_calls env p)
       /\ background st
          = bg ++ [later_closing_calls env p inputs (legacy_found p files0)])
    (fun _ => True).
Proof.
  unfold transform.
  assert (Hkeep3 : forall c : M unit,
            (forall f, preserves (untouched f) c) -> quiet c ->
            hoare (fun st => (forall f, untouched f st) /\ no_log st) c
              (fun _ st => (forall f, untouched f st) /\ no_log st)
              (fun _ => True)).
  { intros c Hc Hq st [Hst Hbg].
    pose proof (Hc LocalSettings st (Hst _)) as H1.
    pose proof (Hc LocalManifest st (Hst _)) as H2.
    pose proof (Hc RemoteManifest st (Hst _)) as H3.
    pose proof (quiet_preserves bg c Hq st Hbg) as H4.
    destruct (c st) as [st' [e | x]]; [exact I |].
    split; [intros []; assumption | exact H4]. }
  apply hoare_bind
    with (Q := fun _ st => (forall f, untouched f st) /\ no_log st).
  { apply Hkeep3; [| apply quiet_addLocalEnvironment].
    intros f. apply addLocalEnvironment_at_path. destruct f; discriminate. }
  intros _.
  apply hoare_bind
    with (Q := fun _ st => (forall f, untouched f st) /\ no_log st).
  { apply Hkeep3; [| apply quiet_addConsolidateManifest].
    intros f. apply addConsolidateManifest_at_path.
    destruct f; discriminate. }
  intros _.
  apply hoare_bind
    with (Q := fun _ st =>
                 (moveFiles st = "" +:+ listed LocalSettings
                  /\ (untouched LocalManifest st
                      /\ untouched RemoteManifest st))
                 /\ no_log st).
  { unfold backupLocalSettings.
    apply hoare_bind
      with (Q := fun _ st => (forall f, untouched f st) /\ no_log st).
    { apply Hkeep3; [| apply quiet_modify; reflexivity]. intros f.
      apply stable_sendTelemetryEvent, at_path_stable. }
    intros _.
    apply hoare_bind
      with (Q := fun _ st => ((moveFiles st = "" /\ untouched LocalSettings st)
                              /\ (untouched LocalManifest st
                                  /\ untouched RemoteManifest st))
                             /\ no_log st).
    { apply hoare_modify. intros st [H Hbg].
      repeat split; try apply H. exact Hbg. }
    intros _. rewrite localSettingsFile_nf, backupLocalSettings_nf.
    apply hoare_conj_keep;
      [| apply quiet_preserves, quiet_guarded_move].
    apply hoare_conj_keep.
    - apply guarded_move_names.
    - apply preserves_conj; apply guarded_move_untouched; discriminate. }
  intros _.
  apply hoare_bind
    with (Q := fun _ st =>
                 ((moveFiles st = "" +:+ listed LocalSettings
                   /\ untouched LocalManifest st)
                  /\ untouched RemoteManifest st)
                 /\ no_log st).
  { apply hoare_weaken
      with (P' := fun st =>
                    (moveFiles st = "" +:+ listed LocalSettings
                     /\ (untouched LocalManifest st
                         /\ untouched RemoteManifest st))
                    /\ no_log st)
           (Q' := fun _ st =>
                    (moveFiles st = "" +:+ listed LocalSettings
                     /\ (untouched LocalManifest st
                         /\ untouched RemoteManifest st))
                    /\ no_log st)
           (E' := fun st =>
                    (moveFiles st = "" +:+ listed LocalSettings
                     /\ (untouched LocalManifest st
                         /\ untouched RemoteManifest st))
                    /\ no_log st);
      [| auto | cbn beta; tauto | auto].
    apply preserves_conj;
      [| apply quiet_preserves, quiet_compareManifests].
    apply preserves_conj;
      [apply names_stable, compareManifests_names
      | apply preserves_conj;
        apply stable_compareManifests, at_path_stable]. }
  intros _.
  apply hoare_bind
    with (Q := fun _ st =>
                 (moveFiles st
                  = ("" +:+ listed LocalSettings) +:+ listed LocalManifest
                  /\ untouched RemoteManifest st)
                 /\ no_log st).
  { unfold backupLocalManifest.
    rewrite localManifestFile_nf, backupLocalManifest_nf.
    apply hoare_conj_keep;
      [| apply quiet_preserves, quiet_guarded_move].
    apply hoare_conj_keep.
    - apply guarded_move_names.
    - apply guarded_move_untouched; discriminate. }
  intros _.
  apply hoare_bind
    with (Q := fun _ st =>
                 moveFiles st
                 = (("" +:+ listed LocalSettings) +:+ listed LocalManifest)
                     +:+ listed RemoteManifest
                 /\ no_log st).
  { unfold backupRemoteManifest.
    rewrite remoteManifestFile_nf, backupRemoteManifest_nf.
    apply hoare_conj_keep;
      [apply guarded_move_names
      | apply quiet_preserves, quiet_guarded_move]. }
  intros _.
  apply hoare_bind
    with (Q := fun _ st =>
                 moveFiles st
                 = (("" +:+ listed LocalSettings) +:+ listed LocalManifest)
                     +:+ listed RemoteManifest
                 /\ no_log st).
  { apply hoare_modify. auto. }
  intros _.
  apply hoare_bind
    with (Q := fun _ st =>
                 moveFiles st
                 = (("" +:+ listed LocalSettings) +:+ listed LocalManifest)
                     +:+ listed RemoteManifest
                 /\ no_log st).
  { apply hoare_modify. auto. }
  intros _.
  eapply hoare_bind; [apply hoare_read |].
  intros moved st [[Hnames Hbg] ->]. rewrite Hnames.
  pose proof (postConsolidate_calls st) as H. cbv zeta in H.
  pose proof (detached_returns
                (postConsolidate env p inputs (Some backupFolder)
                   ((("" +:+ listed LocalSettings) +:+ listed LocalManifest)
                      +:+ listed RemoteManifest)) st) as Hr.
  destruct (detached _ st) as [st' [e | x]]; [discriminate |].
  cbn [fst] in H. destruct H as [Hev Hlog].
  split; [eauto |]. rewrite Hlog. now rewrite Hbg.
Qed.

End Closing.

(** What a run that returns [true] has called last, and what is left for
    [postConsolidate] to call. *)
Lemma consolidateLocalRemote_closing (env : Env) (ctx : CoreHookContext)
    (st : State) (a : Arg) (p : string) :
  lookupInputs ctx = Some a ->
  projectPath (asInputs a) = Some p ->
  (forall path, faults env (AtAddPathToGitignore path) = false) ->
  match consolidateLocalRemote env ctx st with
  | (st', inr true) =>
      (exists earlier, events st' = earlier ++ first_closing_calls env p)
      /\ background st'
         = background st
           ++ [later_closing_calls env p (asInputs a)
                 (legacy_found p (fs st))]
  | _ => True
  end.
Proof.
  intros Ha Hp Hignore.
  set (Q := fun s =>
              (exists earlier,
                 events s = earlier ++ first_closing_calls env p)
              /\ background s
                 = background st
                   ++ [later_closing_calls env p (asInputs a)
                         (legacy_found p (fs st))]).
  assert (Hrun : hoare (fun s => s = st) (consolidateLocalRemote env ctx)
                   (fun b s => if b then Q s else True) (fun _ => True)).
  { unfold consolidateLocalRemote. rewrite Ha.
    apply hoare_bind
      with (Q := fun _ s => fs s = fs st /\ background s = background st).
    { intros s ->. cbn. auto. }
    intros _.
    apply hoare_bind
      with (Q := fun _ s => fs s = fs st /\ background s = background st).
    { intros s Hs. cbn. exact Hs. }
    intros _.
    apply hoare_bind
      with (Q := fun _ s => fs s = fs st /\ background s = background st).
    { intros s Hs. cbn. exact Hs. }
    intros _.
    apply hoare_bind
      with (Q := fun x s => x = fs st
                            /\ (fs s = fs st
                                /\ background s = background st)).
    { intros s Hs. cbn. split; [apply Hs | exact Hs]. }
    intros files. apply hoare_assume. intros ->. cbv zeta.
    destruct (loadProjectSettings env (fs st) (asInputs a))
      as [error | settings].
    { intros s _. cbn. exact I. }
    rewrite Hp.
    apply hoare_bind with (Q := fun _ => Q).
    { apply hoare_tryCatch with (E' := fun _ => True).
      - eapply hoare_weaken;
          [apply (transform_closing env p (fs st) (asInputs a)
                    (background st) Hignore settings)
          | | |]; cbn beta; auto.
        intros s (Hfs & Hbg). split; [| exact Hbg].
        intros f. unfold at_path. now rewrite Hfs.
      - intros e. apply hoare_throws with (Q := fun _ _ => True);
          [apply hoare_any | apply rollback_throws]. }
    intros _.
    apply hoare_bind with (Q := fun _ => Q); [| intros _; now apply hoare_ret].
    apply hoare_weaken with (P' := Q) (Q' := fun _ => Q) (E' := Q);
      [| auto | auto | auto].
    apply generateUpgradeReport_fs. intros s c H. exact H. }
  specialize (Hrun st eq_refl).
  destruct (consolidateLocalRemote env ctx st) as [st' [e | [|]]];
    [exact I | exact Hrun | exact I].
Qed.

(** X18. When a run returns [true] and the ignore file took its entries,
    the last calls that the collaborators receive are those of
    [postConsolidate]. The guide event and the first entry of the ignore
    file are the last calls made before the run returns; the others follow
    in a log of their own, the only one that the run adds, since nobody
    waits for [postConsolidate]: the two other entries of the ignore file,
    then, when at least one legacy file was there at the start, the warning
    that lists the legacy files that were there, in the order in which they
    are moved, separated by commas, and last, on a platform other than VS
    Code, the success message. *)
Theorem successful_run_closing_calls :
  forall (env : Env) (ctx : CoreHookContext) (st : State) (a : Arg)
         (p : string),
    lookupInputs ctx = Some a ->
    projectPath (asInputs a) = Some p ->
    (forall path, faults env (AtAddPathToGitignore path) = false) ->
    snd (consolidateLocalRemote env ctx st) = inr true ->
    (exists earlier,
       events (fst (consolidateLocalRemote env ctx st))
       = earlier ++ first_closing_calls env p)
    /\ background (fst (consolidateLocalRemote env ctx st))
       = background st
         ++ [later_closing_calls env p (asInputs a) (legacy_found p (fs st))].
Proof.
  intros env ctx st a p Ha Hp Hignore Hret.
  pose proof (consolidateLocalRemote_closing env ctx st a p Ha Hp Hignore)
    as Hrun.
  destruct (consolidateLocalRemote env ctx st) as [st' [e | b]];
    cbn [fst snd] in *; [discriminate |].
  injection Hret as ->. exact Hrun.
Qed.

(** The sample project, from the command line: its three legacy files are
    listed. *)
Lemma successful_run_closing_calls_witness :
  let env := sample_env no_fault false None in
  let st := initial_state sample_project in
  snd (consolidateLocalRemote env sample_ctx st) = inr true
  /\ (exists earlier,
        events (fst (consolidateLocalRemote env sample_ctx st))
        = earlier
          ++ [SendTelemetryEvent ProjectConsolidateGuideStart None;
              AddPathToGitignore "/proj"
                "/proj/.fx/configs/config.local.json"])
  /\ background (fst (consolidateLocalRemote env sample_ctx st))
     = [[AddPathToGitignore "/proj" "/proj/.fx/states/state.local.json";
         AddPathToGitignore "/proj" "/proj/.backup";
         LogWarning
           "[core] Upgrade success! Old localSettings.json,manifest.local.template.json,manifest.remote.template.json have been backed up to the .backup folder and you can delete it.";
         LogInfo "core.consolidateLocalRemote.SuccessMessage"]].
Proof.
  cbv zeta.
  assert (Hret : snd (consolidateLocalRemote (sample_env no_fault false None)
                        sample_ctx (initial_state sample_project))
                 = inr true) by (vm_compute; reflexivity).
  split; [exact Hret |].
  exact (successful_run_closing_calls (sample_env no_fault false None)
           sample_ctx (initial_state sample_project)
           (ArgInputs sample_inputs) "/proj" eq_refl eq_refl
           (fun _ => eq_refl) Hret).
Defined.

(** ** The order of the properties of an object *)

Lemma assoc_In (fields : list (string * json)) (key : string) (v : json) :
  assoc key fields = Some v -> In (key, v) fields.
Proof.
  induction fields as [| [k w] fields IH]; [discriminate |].
  cbn [assoc]. destruct (String.eqb_spec k key) as [-> | _].
  - intros [= ->]. now left.
  - intros H. right. now apply IH.
Qed.

Lemma assoc_None (fields : list (string * json)) (key : string) :
  assoc key fields = None <-> ~ In key (map fst fields).
Proof.
  induction fields as [| [k w] fields IH]; [cbn; tauto |].
  cbn [assoc map fst In]. destruct (String.eqb_spec k key) as [-> | Hne].
  - split; [discriminate | tauto].
  - rewrite IH. tauto.
Qed.

Lemma distinct_NoDup (l : list string) :
  distinct l = true <-> List.NoDup l.
Proof.
  induction l as [| k l IH]; cbn [distinct].
  - split; [constructor | reflexivity].
  - rewrite andb_true_iff, negb_true_iff, IH. split.
    + intros [Hk Hl]. constructor; [| exact Hl].
      intros Hin. apply has_In in Hin. congruence.
    + intros H. inversion H as [| ? ? Hk Hl]. split; [| exact Hl].
      destruct (has l k) eqn:Hhas; [| reflexivity].
      apply has_In in Hhas. contradiction.
Qed.

(** Reading a property of an object does not depend on the order of its
    properties. *)
Lemma get_permutation (fields fields' : list (string * json))
    (key : string) :
  distinct (map fst fields) = true -> Permutation fields fields' ->
  get (JObj fields) key = get (JObj fields') key.
Proof.
  intros Hd Hperm. cbn [get].
  assert (Hd' : distinct (map fst fields') = true).
  { apply distinct_NoDup. apply distinct_NoDup in Hd.
    eapply Permutation_NoDup; [| exact Hd]. now apply Permutation_map. }
  destruct (assoc key fields) as [v |] eqn:Ha.
  - apply assoc_In in Ha. apply (Permutation_in _ Hperm) in Ha.
    now rewrite (assoc_distinct _ _ _ Hd' Ha).
  - destruct (assoc key fields') as [v' |] eqn:Ha'; [| reflexivity].
    apply assoc_In in Ha'.
    apply (Permutation_in _ (Permutation_sym Hperm)) in Ha'.
    rewrite (assoc_distinct _ _ _ Hd Ha') in Ha. discriminate.
Qed.

Lemma Equivalent_permutation (fa fa' fb fb' : list (string * json)) :
  distinct (map fst fb) = true ->
  Permutation fa fa' -> Permutation fb fb' ->
  Equivalent (JObj fa) (JObj fb) -> Equivalent (JObj fa') (JObj fb').
Proof.
  intros Hd Ha Hb H.
  inversion H as [a b ea bKeys He Hk Hlen Hall]; subst.
  cbn in He, Hk. injection He as <-. injection Hk as <-.
  apply Equivalent_intro with (ea := fa') (bKeys := map fst fb');
    [reflexivity | reflexivity | |].
  - rewrite length_map in *.
    now rewrite <- (Permutation_length Ha), <- (Permutation_length Hb).
  - intros key aValue Hin Hig.
    apply (Permutation_in _ (Permutation_sym Ha)) in Hin.
    rewrite <- (get_permutation fb fb' key Hd Hb).
    now apply Hall.
Qed.

(** X19. The order in which two objects list their properties makes no
    difference to [diff]: reordering the properties of either, none of
    which occurs twice in the second, leaves the answer as it is. *)
Theorem diff_property_order :
  forall fa fa' fb fb' : list (string * json),
    distinct (map fst fb) = true ->
    Permutation fa fa' -> Permutation fb fb' ->
    diff (JObj fa) (JObj fb) = diff (JObj fa') (JObj fb').
Proof.
  intros fa fa' fb fb' Hd Ha Hb.
  assert (Hd' : distinct (map fst fb') = true).
  { apply distinct_NoDup. apply distinct_NoDup in Hd.
    eapply Permutation_NoDup; [| exact Hd]. now apply Permutation_map. }
  pose proof (diff_returns (JObj fa) (JObj fb)) as H1.
  pose proof (diff_returns (JObj fa') (JObj fb')) as H2.
  pose proof (diff_true_iff (JObj fa) (JObj fb)) as E1.
  pose proof (diff_true_iff (JObj fa') (JObj fb')) as E2.
  destruct (diff (JObj fa) (JObj fb)) as [[|] |];
    destruct (diff (JObj fa') (JObj fb')) as [[|] |];
    try reflexivity;
    try (now exfalso; apply H1);
    try (now exfalso; apply H2).
  - assert (H : Some false = Some true); [| discriminate H].
    apply E2. apply (Equivalent_permutation fa fa' fb fb' Hd Ha Hb).
    now apply E1.
  - assert (H : Some false = Some true); [| discriminate H].
    apply E1.
    apply (Equivalent_permutation fa' fa fb' fb Hd'
             (Permutation_sym Ha) (Permutation_sym Hb)).
    now apply E2.
Qed.

(** Two manifests that list [id] and [version] in different orders. *)
Lemma diff_property_order_witness :
  diff (JObj [("id", JStr "1"); ("version", JStr "2")])
       (JObj [("id", JStr "1"); ("version", JStr "2")])
  = diff (JObj [("version", JStr "2"); ("id", JStr "1")])
         (JObj [("version", JStr "2"); ("id", JStr "1")]).
Proof.
  apply (diff_property_order
           [("id", JStr "1"); ("version", JStr "2")]
           [("version", JStr "2"); ("id", JStr "1")]
           [("id", JStr "1"); ("version", JStr "2")]
           [("version", JStr "2"); ("id", JStr "1")]).
  - reflexivity.
  - apply perm_swap.
  - apply perm_swap.
Defined.

(** ** When the two manifests are reported as different *)

Lemma add_event_inj (e e' : event) (st : State) :
  add_event e st = add_event e' st -> e = e'.
Proof.
  intros H. apply (f_equal events) in H. cbn in H.
  apply app_inv_head in H. congruence.
Qed.

Lemma add_event_changes (e : event) (st : State) : st <> add_event e st.
Proof.
  intros H. apply (f_equal (fun s => length (events s))) in H.
  cbn in H. rewrite length_app in H. cbn in H. lia.
Qed.

(** X20. [compareLocalAndRemoteManifest] shows the warning about different
    manifests exactly when both files are read, both parse once the
    placeholders are removed, and [diff] answers [false] for the local
    tree against the remote one. *)
Theorem different_manifest_warning :
  forall (env : Env) (localFile remoteFile : string) (st : State),
    fst (compareLocalAndRemoteManifest env localFile remoteFile st)
    = add_event differentManifestWarning st
    <->
    exists ls rs jl jr,
      faults env (AtCompareRead LocalManifest) = false
      /\ faults env (AtCompareRead RemoteManifest) = false
      /\ fs st localFile = Some (File ls)
      /\ fs st remoteFile = Some (File rs)
      /\ JSON_parse env (replace_manifestRegex env ls) = Some jl
      /\ JSON_parse env (replace_manifestRegex env rs) = Some jr
      /\ diff jl jr = Some false.
Proof.
  intros env localFile remoteFile st.
  unfold compareLocalAndRemoteManifest, tryCatch, bind, readFile,
    sendTelemetryErrorEvent, when, modify, ret, raise.
  assert (Hno : forall e,
            add_event
              (SendTelemetryErrorEvent ProjectConsolidateCheckManifestError e)
              st
            <> add_event differentManifestWarning st).
  { intros e H. apply add_event_inj in H. discriminate. }
  destruct (faults env (AtCompareRead LocalManifest)) eqn:F1.
  { cbn [fst]. split; [intros H; now apply Hno in H |].
    intros (? & ? & ? & ? & H & _). discriminate. }
  destruct (fs st localFile) as [[ls |] |] eqn:Hl;
    try (cbn [fst]; split; [intros H; now apply Hno in H |];
         intros (? & ? & ? & ? & _ & _ & H & _); discriminate).
  destruct (faults env (AtCompareRead RemoteManifest)) eqn:F2.
  { cbn [fst]. split; [intros H; now apply Hno in H |].
    intros (? & ? & ? & ? & _ & H & _). discriminate. }
  destruct (fs st remoteFile) as [[rs |] |] eqn:Hr;
    try (cbn [fst]; split; [intros H; now apply Hno in H |];
         intros (? & ? & ? & ? & _ & _ & _ & H & _); discriminate).
  destruct (JSON_parse env (replace_manifestRegex env ls)) as [jl |] eqn:Pl.
  2: { cbn [fst]. split; [intros H; now apply Hno in H |].
       intros (? & ? & ? & ? & _ & _ & [= <-] & _ & H & _). congruence. }
  destruct (JSON_parse env (replace_manifestRegex env rs)) as [jr |] eqn:Pr.
  2: { cbn [fst]. split; [intros H; now apply Hno in H |].
       intros (? & ? & ? & ? & _ & _ & _ & [= <-] & _ & H & _). congruence. }
  destruct (diff jl jr) as [[|] |] eqn:Hd; cbn [fst negb].
  - split; [intros H; now apply add_event_changes in H |].
    intros (? & ? & ? & ? & _ & _ & [= <-] & [= <-] & H1 & H2 & H3).
    congruence.
  - split; [| reflexivity]. intros _.
    exists ls, rs, jl, jr. auto 10.
  - split; [intros H; now apply Hno in H |].
    intros (? & ? & ? & ? & _ & _ & [= <-] & [= <-] & H1 & H2 & H3).
    congruence.
Qed.

(** ** The values under the ignored keys *)

Lemma assoc_app_other (front back : list (string * json)) (k key : string)
    (v v' : json) :
  key <> k ->
  assoc key (front ++ (k, v) :: back) = assoc key (front ++ (k, v') :: back).
Proof.
  intros Hne. induction front as [| [k0 w] front IH]; cbn [app assoc].
  - destruct (String.eqb_spec k key); [congruence | reflexivity].
  - destruct (String.eqb k0 key); [reflexivity | exact IH].
Qed.

Lemma get_other_value (front back : list (string * json)) (k key : string)
    (v v' : json) :
  key <> k ->
  get (JObj (front ++ (k, v) :: back)) key
  = get (JObj (front ++ (k, v') :: back)) key.
Proof. intros Hne. cbn [get]. now rewrite (assoc_app_other _ _ _ _ v v'). Qed.

Lemma Equivalent_ignored_value (fa1 fa2 fb1 fb2 : list (string * json))
    (ka kb : string) (va va' vb vb' : json) :
  has ignoreKeys ka = true -> has ignoreKeys kb = true ->
  Equivalent (JObj (fa1 ++ (ka, va) :: fa2)) (JObj (fb1 ++ (kb, vb) :: fb2)) ->
  Equivalent (JObj (fa1 ++ (ka, va') :: fa2))
    (JObj (fb1 ++ (kb, vb') :: fb2)).
Proof.
  intros Ha Hb H.
  inversion H as [a b ea bKeys He Hk Hlen Hall]; subst.
  cbn in He, Hk. injection He as <-. injection Hk as <-.
  apply Equivalent_intro
    with (ea := fa1 ++ (ka, va') :: fa2)
         (bKeys := map fst (fb1 ++ (kb, vb') :: fb2));
    [reflexivity | reflexivity | |].
  - rewrite !length_map, !length_app in *. cbn [length] in *. exact Hlen.
  - intros key aValue Hin Hig.
    assert (Hkb : key <> kb) by (intros ->; congruence).
    assert (Hin' : In (key, aValue) (fa1 ++ (ka, va) :: fa2)).
    { apply in_app_or in Hin. apply in_or_app.
      destruct Hin as [Hin | [[= <- <-] | Hin]]; [now left | congruence |].
      right. now right. }
    rewrite <- (get_other_value fb1 fb2 kb key vb vb' Hkb).
    now apply Hall.
Qed.

(** X21. [diff] does not look at the values under the ignored keys:
    changing, in either of two objects, the value of a property whose name
    is in the ignored set leaves the answer as it is. *)
Theorem diff_ignored_value :
  forall (fa1 fa2 fb1 fb2 : list (string * json)) (ka kb : string)
         (va va' vb vb' : json),
    has ignoreKeys ka = true -> has ignoreKeys kb = true ->
    diff (JObj (fa1 ++ (ka, va) :: fa2)) (JObj (fb1 ++ (kb, vb) :: fb2))
    = diff (JObj (fa1 ++ (ka, va') :: fa2))
        (JObj (fb1 ++ (kb, vb') :: fb2)).
Proof.
  intros fa1 fa2 fb1 fb2 ka kb va va' vb vb' Ha Hb.
  set (a := JObj (fa1 ++ (ka, va) :: fa2)).
  set (b := JObj (fb1 ++ (kb, vb) :: fb2)).
  set (a' := JObj (fa1 ++ (ka, va') :: fa2)).
  set (b' := JObj (fb1 ++ (kb, vb') :: fb2)).
  pose proof (diff_returns a b) as H1.
  pose proof (diff_returns a' b') as H2.
  pose proof (diff_true_iff a b) as E1.
  pose proof (diff_true_iff a' b') as E2.
  destruct (diff a b) as [[|] |]; destruct (diff a' b') as [[|] |];
    try reflexivity;
    try (now exfalso; apply H1);
    try (now exfalso; apply H2).
  - assert (H : Some false = Some true); [| discriminate H].
    apply E2.
    apply (Equivalent_ignored_value fa1 fa2 fb1 fb2 ka kb va va' vb vb' Ha Hb).
    now apply E1.
  - assert (H : Some false = Some true); [| discriminate H].
    apply E1.
    apply (Equivalent_ignored_value fa1 fa2 fb1 fb2 ka kb va' va vb' vb Ha Hb).
    now apply E2.
Qed.

(** Two manifests that differ in their [description] and in their
    [name]. *)
Lemma diff_ignored_value_witness :
  diff (JObj [("id", JStr "1"); ("description", JStr "local")])
       (JObj [("name", JStr "app (local)"); ("id", JStr "1")])
  = diff (JObj [("id", JStr "1"); ("description", JStr "remote")])
         (JObj [("name", JStr "app"); ("id", JStr "1")]).
Proof.
  exact (diff_ignored_value [("id", JStr "1")] [] [] [("id", JStr "1")]
           "description" "name" (JStr "local") (JStr "remote")
           (JStr "app (local)") (JStr "app") eq_refl eq_refl).
Defined.

(** ** The detector after a failed run *)

Section TemplateKept.

Variables (env : Env) (p : string).

Hypothesis write_accepted : faults env AtWriteEnvConfig = false.
Hypothesis read_accepted : faults env AtReadRemoteManifest = false.
Hypothesis manifest_accepted : faults env AtWriteManifest = false.
Hypothesis copy_accepted : faults env AtCopyManifest = false.

Let template_there : State -> Prop :=
  at_path p "templates/appPackage/manifest.template.json"
    (fun found => found <> None).

Lemma addLocalEnvironment_written (settings : ProjectSettings)
    (P : option node -> Prop) :
  hoare (at_path p (original_rel RemoteManifest) P)
    (addLocalEnvironment env p settings)
    (fun _ => at_path p (original_rel RemoteManifest) P) (fun _ => False).
Proof.
  intros st H.
  unfold addLocalEnvironment, push, bind, sendTelemetryEvent, modify,
    writeEnvConfig.
  rewrite write_accepted, envConfig_nf.
  unfold at_path in *.
  cbn [fs set_fs set_fileList add_event]. rewrite fs_set_nf.
  exact H.
Qed.

(** The second step of the [try] block writes the unified manifest. *)
Lemma addConsolidateManifest_written (settings : ProjectSettings) :
  hoare
    (at_path p (original_rel RemoteManifest)
       (fun found =>
          found <> None /\ remote_manifest_usable env settings found))
    (addConsolidateManifest env p settings)
    (fun _ => template_there) (fun _ => False).
Proof.
  intros st [Hthere Husable]. unfold template_there, at_path in *.
  unfold addConsolidateManifest, bind, read, when, push, copyFile, writeFile,
    readFile, fs_op, sendTelemetryEvent, modify, ret, raise.
  rewrite remoteManifestFile_nf, getManifestTemplatePath_nf.
  unfold pathExists. cbn [fs add_event].
  destruct (fs st (nf p (original_rel RemoteManifest))) as [[text |] |] eqn:Hr;
    [| contradiction | contradiction].
  cbn in Husable.
  destruct (isSPFxProject settings); cbn [fs add_event].
  - rewrite read_accepted, Hr.
    destruct (JSON_parse_manifest env text); [| now destruct Husable].
    rewrite manifest_accepted.
    cbn [fs set_fs set_fileList add_event]. unfold fs_set.
    rewrite String.eqb_refl. discriminate.
  - rewrite copy_accepted. cbn [fs add_event]. rewrite Hr.
    cbn [fs set_fs set_fileList add_event]. unfold fs_set.
    rewrite String.eqb_refl. discriminate.
Qed.

(** Once written, the unified manifest stays where it is: nothing in the
    [try] block removes it. *)
Lemma transform_template_there (inputs : Inputs) (settings : ProjectSettings) :
  hoare
    (at_path p (original_rel RemoteManifest)
       (fun found =>
          found <> None /\ remote_manifest_usable env settings found))
    (transform env p inputs settings)
    (fun _ => template_there) template_there.
Proof.
  unfold transform.
  apply hoare_bind
    with (Q := fun _ =>
                 at_path p (original_rel RemoteManifest)
                   (fun found =>
                      found <> None
                      /\ remote_manifest_usable env settings found)).
  { eapply hoare_weaken;
      [apply (addLocalEnvironment_written settings
                (fun found =>
                   found <> None
                   /\ remote_manifest_usable env settings found)) | | |];
      cbn beta; auto; try now intros ? []. }
  intros _.
  apply hoare_bind with (Q := fun _ => template_there).
  { eapply hoare_weaken; [apply addConsolidateManifest_written | | |];
      cbn beta; auto; try now intros ? []. }
  intros _. apply after_manifest_at_path. auto.
Qed.

(** The [catch] block does not remove it either: the path it removes is
    another one. *)
Lemma rollback_template_there (content : string) (e : exn) :
  preserves (fun st => env_config_kept p content st /\ template_there st)
    (rollback env p e).
Proof.
  unfold rollback.
  apply preserves_bind_read.
  intros restores (st0 & ((_ & _ & Hshape) & _) & ->).
  apply preserves_bind.
  { apply preserves_forM. intros [b o] Hin.
    destruct (Hshape b o Hin) as (f & -> & ->). cbn [fst snd].
    apply preserves_conj; [apply kept_restore |].
    apply preserves_fs_op. intros st files H Heff.
    destruct (pathExists (fs st) (nf p (backup_rel f))); [| discriminate].
    injection Heff as <-. unfold template_there, at_path in *.
    cbn [fs set_fs]. rewrite fs_copy_nf. destruct f; exact H. }
  intros _.
  apply preserves_bind_read.
  intros created (st1 & ((_ & Hlist & _) & _) & ->).
  apply preserves_bind.
  { apply preserves_forM. intros item Hin. apply preserves_conj.
    - destruct (Hlist item Hin) as [-> | ->];
        apply kept_remove_recorded; auto.
    - apply preserves_fs_op. intros st files H [= <-].
      unfold template_there, at_path in *. cbn [fs set_fs].
      destruct (Hlist item Hin) as [-> | ->]; rewrite fs_remove_nf;
        exact H. }
  intros _.
  apply preserves_bind; [| intros _; apply preserves_raise].
  apply preserves_conj.
  - apply preserves_fs_op. intros st files HK [= <-].
    apply kept_fs; [exact HK |].
    rewrite backupPath_nf, fs_remove_nf. reflexivity.
  - apply preserves_fs_op. intros st files H [= <-].
    unfold template_there, at_path in *. cbn [fs set_fs].
    rewrite backupPath_nf, fs_remove_nf. exact H.
Qed.

(** The [try] block with its [catch] block. *)
Lemma try_template_there (inputs : Inputs) (settings : ProjectSettings) :
  hoare
    (fun st =>
       (fileList st = [] /\ removeMap st = [])
       /\ at_path p (original_rel RemoteManifest)
            (fun found =>
               found <> None /\ remote_manifest_usable env settings found)
            st)
    (tryCatch (transform env p inputs settings) (rollback env p))
    (fun _ => template_there) template_there.
Proof.
  apply hoare_tryCatch
    with (E' := fun st =>
                  env_config_kept p
                    (newEnvConfigData env
                       (getLocalAppName env (appName settings))) st
                  /\ template_there st).
  - eapply hoare_weaken.
    + apply hoare_conj;
        [apply (kept_transform env p _ inputs settings write_accepted eq_refl)
        | apply transform_template_there].
    + cbn beta. auto.
    + cbn beta. intros _ st [_ H]. exact H.
    + cbn beta. auto.
  - intros e.
    eapply hoare_weaken;
      [apply (rollback_template_there
                (newEnvConfigData env (getLocalAppName env (appName settings)))
                e) | | |];
      cbn beta; auto; intros; tauto.
Qed.

End TemplateKept.

(** X22. A run that fails after it has written the unified manifest is not
    offered again: the [catch] block removes the path recorded for the
    unified manifest, which is not the path written, so that the unified
    manifest is still there when the error reaches the caller, and the
    detector answers [false] from then on. *)
Theorem detector_after_failure :
  forall (env : Env) (ctx : CoreHookContext) (st : State) (a : Arg)
         (p : string) (settings : ProjectSettings) (e : exn),
    lookupInputs ctx = Some a ->
    projectPath (asInputs a) = Some p ->
    loadProjectSettings env (fs st) (asInputs a) = inr settings ->
    faults env AtWriteEnvConfig = false ->
    faults env AtReadRemoteManifest = false ->
    faults env AtWriteManifest = false ->
    faults env AtCopyManifest = false ->
    fs st (remoteManifestFile p) <> None ->
    remote_manifest_usable env settings (fs st (remoteManifestFile p)) ->
    snd (consolidateLocalRemote env ctx st) = inl e ->
    fs (fst (consolidateLocalRemote env ctx st)) (getManifestTemplatePath p)
    <> None
    /\ needConsolidateLocalRemote env ctx
         (fst (consolidateLocalRemote env ctx st))
       = (fst (consolidateLocalRemote env ctx st), inr false).
Proof.
  intros env ctx st a p settings e Ha Hp Hload Hw Hr Hm Hc Hthere Husable
    Hthrows.
  set (Q := at_path p "templates/appPackage/manifest.template.json"
              (fun found => found <> None)).
  assert (Hrun : hoare (fun s => s = st) (consolidateLocalRemote env ctx)
                   (fun b s =>
                      if b then Q s
                      else fs s = fs st
                           /\ exists error,
                                loadProjectSettings env (fs st) (asInputs a)
                                = inl error)
                   Q).
  { apply (consolidateLocalRemote_triple env ctx st a p Q Q Q Ha Hp).
    - intros settings' Hload'.
      assert (settings' = settings) by congruence. subst settings'.
      eapply hoare_weaken;
        [apply (try_template_there env p Hw Hr Hm Hc (asInputs a) settings)
        | | |]; cbn beta; auto.
      intros s (Hfs & Hfl & Hrm). split; [auto |].
      unfold at_path. rewrite Hfs, <- remoteManifestFile_nf. auto.
    - apply generateUpgradeReport_fs. intros s c H.
      apply at_path_fs_set; [discriminate | exact H]. }
  specialize (Hrun st eq_refl).
  rewrite (needConsolidateLocalRemote_eval env ctx _ a Ha).
  destruct (consolidateLocalRemote env ctx st) as [st' [e' | b]];
    cbn [fst snd] in *; [| discriminate].
  unfold Q, at_path in Hrun. rewrite getManifestTemplatePath_nf.
  split; [exact Hrun |].
  rewrite Hp. cbn [render]. rewrite template_nf. unfold pathExists at 2.
  destruct (fs st' (nf p "templates/appPackage/manifest.template.json"));
    [| contradiction].
  cbn [negb]. now rewrite andb_false_r.
Qed.

(** The sample project, with the copy of the local manifest into the
    backup folder rejected. *)
Lemma detector_after_failure_witness :
  let env := sample_env local_manifest_copy_rejected false None in
  let st := initial_state sample_project in
  (needConsolidateLocalRemote env sample_ctx st = (st, inr true)
   /\ snd (consolidateLocalRemote env sample_ctx st)
      = inl (IOFailure (AtBackupCopy LocalManifest)))
  /\ fs (fst (consolidateLocalRemote env sample_ctx st))
       (getManifestTemplatePath "/proj") <> None
  /\ needConsolidateLocalRemote env sample_ctx
       (fst (consolidateLocalRemote env sample_ctx st))
     = (fst (consolidateLocalRemote env sample_ctx st), inr false).
Proof.
  cbv zeta.
  assert (Hthrows : snd (consolidateLocalRemote
                           (sample_env local_manifest_copy_rejected false None)
                           sample_ctx (initial_state sample_project))
                    = inl (IOFailure (AtBackupCopy LocalManifest)))
    by (vm_compute; reflexivity).
  split; [split; [vm_compute; reflexivity | exact Hthrows] |].
  apply (detector_after_failure
           (sample_env local_manifest_copy_rejected false None)
           sample_ctx (initial_state sample_project)
           (ArgInputs sample_inputs) "/proj" (mkSettings "myapp" false)
           (IOFailure (AtBackupCopy LocalManifest))
           eq_refl eq_refl eq_refl eq_refl eq_refl eq_refl eq_refl);
    [vm_compute; discriminate | vm_compute; discriminate | exact Hthrows].
Defined.

(** ** The accepted upgrade *)
















Lemma rounds_background (showModal : bool) (n : nat) (st : State) :
  background (Nat.iter n (learnMoreRound showModal) st) = background st.
Proof.
  induction n as [| n IH]; [reflexivity |].
  rewrite Nat.iter_succ. exact IH.
Qed.

(** What is left of [upgrade] once the user has answered "Upgrade". *)
Lemma upgrade_after_consent (env : Env) (ctx : CoreHookContext)
    (started : State) :
  let run := consolidateLocalRemote env ctx started in
  tryCatch (consolidateLocalRemote env ctx ;; next env)
    (fun error =>
       sendTelemetryErrorEvent ProjectConsolidateError error ;; raise error)
    started
  = match snd run with
    | inr _ =>
        match nextRejects env (next_calls (events (fst run))) with
        | None => (add_event Next (fst run), inr tt)
        | Some error =>
            (add_event
               (SendTelemetryErrorEvent ProjectConsolidateError error)
               (add_event Next (fst run)),
             inl error)
        end
    | inl error =>
        (add_event (SendTelemetryErrorEvent ProjectConsolidateError error)
           (fst run),
         inl error)
    end.
Proof.
  cbv zeta. unfold tryCatch, bind at 1, next.
  destruct (consolidateLocalRemote env ctx started) as [st1 [e | b]];
    cbn [fst snd]; [reflexivity |].
  destruct (nextRejects env (next_calls (events st1))); reflexivity.
Qed.

(** X10. Once the user answers "Upgrade", after any number of "Learn More",
    [upgrade] sends the notification event with status [OK] and runs
    [consolidateLocalRemote] once. When that returns, with [true] or with
    [false], [next] is called: [upgrade] returns when the call is
    fulfilled, and when it is rejected the error is sent as a
    [ProjectConsolidateError] telemetry error event and thrown again. When
    [consolidateLocalRemote] throws, its error is sent and thrown again in
    the same way, and [next] is not called. The call of [next] does not
    wait for [postConsolidate]: after a run that returns [true], when the
    ignore file takes its entries, it follows the guide event and the
    first entry of the ignore file, and the other calls of
    [postConsolidate] are made in a log of their own. *)
Theorem upgrade_accepted :
  forall (env : Env) (ctx : CoreHookContext) (showModal : bool) (n : nat)
         (rest : list (option string)) (st : State),
    let started :=
      add_event (SendTelemetryEvent ProjectConsolidateNotification (Some OK))
        (add_event (consentPrompt showModal)
           (Nat.iter n (learnMoreRound showModal) st)) in
    let run := consolidateLocalRemote env ctx started in
    let answers := repeat (Some LearnMore) n ++ Some upgradeButton :: rest in
    let rejected :=
      match nextRejects env (next_calls (events (fst run))) with
      | None => []
      | Some error => [SendTelemetryErrorEvent ProjectConsolidateError error]
      end in
    upgrade env ctx showModal answers st
    = Some
        match snd run with
        | inr _ =>
            match nextRejects env (next_calls (events (fst run))) with
            | None => (add_event Next (fst run), inr tt)
            | Some error =>
                (add_event
                   (SendTelemetryErrorEvent ProjectConsolidateError error)
                   (add_event Next (fst run)),
                 inl error)
            end
        | inl error =>
            (add_event
               (SendTelemetryErrorEvent ProjectConsolidateError error)
               (fst run),
             inl error)
        end
    /\ (forall (a : Arg) (p : string),
          lookupInputs ctx = Some a ->
          projectPath (asInputs a) = Some p ->
          (forall path, faults env (AtAddPathToGitignore path) = false) ->
          snd run = inr true ->
          exists st' r earlier,
            upgrade env ctx showModal answers st = Some (st', r)
            /\ events st'
               = earlier ++ first_closing_calls env p ++ Next :: rejected
            /\ background st'
               = background st
                 ++ [later_closing_calls env p (asInputs a)
                       (legacy_found p (fs st))]).
Proof.
  intros env ctx showModal n rest st started run answers rejected.
  assert (Hup : upgrade env ctx showModal answers st
                = Some
                    match snd run with
                    | inr _ =>
                        match nextRejects env (next_calls (events (fst run)))
                        with
                        | None => (add_event Next (fst run), inr tt)
                        | Some error =>
                            (add_event
                               (SendTelemetryErrorEvent
                                  ProjectConsolidateError error)
                               (add_event Next (fst run)),
                             inl error)
                        end
                    | inl error =>
                        (add_event
                           (SendTelemetryErrorEvent ProjectConsolidateError
                              error)
                           (fst run),
                         inl error)
                    end).
  { subst answers. unfold upgrade.
    rewrite (consent_learn_more showModal n (Some upgradeButton) rest st)
      by reflexivity.
    cbn [truthy is_some_string negb orb].
    change (String.eqb upgradeButton "") with false.
    change (String.eqb upgradeButton upgradeButton) with true.
    cbn [negb orb].
    unfold bind at 1, sendTelemetryEvent at 1, modify at 1.
    fold started. f_equal. apply upgrade_after_consent. }
  split; [exact Hup |].
  intros a p Ha Hp Hignore Hret. rewrite Hup, Hret.
  pose proof (consolidateLocalRemote_closing env ctx started a p Ha Hp
                Hignore) as Hrun.
  fold run in Hrun.
  destruct run as [st1 [e | b]]; cbn [fst snd] in *; [discriminate |].
  injection Hret as ->. destruct Hrun as [[earlier Hev] Hbg].
  assert (Hfs : fs started = fs st).
  { unfold started. cbn [fs add_event].
    apply (next_calls_rounds showModal n st). }
  assert (Hb : background started = background st).
  { unfold started. cbn [background add_event]. apply rounds_background. }
  rewrite Hfs, Hb in Hbg. subst rejected.
  destruct (nextRejects env (next_calls (events st1))) as [error |];
    eexists; eexists; exists earlier; (split; [reflexivity |]);
    cbn [events background add_event]; rewrite Hev, <- ?app_assoc;
    (split; [reflexivity | exact Hbg]).
Qed.

(** The sample project: the user answers "Upgrade" and the call of [next]
    is rejected. *)
Lemma upgrade_accepted_witness :
  let env :=
    with_next (fun _ => Some (ThrownErr (SettingsError "NextFailed")))
      (sample_env no_fault false None) in
  let st := initial_state sample_project in
  exists st' earlier,
    upgrade env sample_ctx true [Some upgradeButton] st
    = Some (st', inl (ThrownErr (SettingsError "NextFailed")))
    /\ events st'
       = earlier
         ++ [SendTelemetryEvent ProjectConsolidateGuideStart None;
             AddPathToGitignore "/proj" "/proj/.fx/configs/config.local.json";
             Next;
             SendTelemetryErrorEvent ProjectConsolidateError
               (ThrownErr (SettingsError "NextFailed"))]
    /\ background st'
       = [[AddPathToGitignore "/proj" "/proj/.fx/states/state.local.json";
           AddPathToGitignore "/proj" "/proj/.backup";
           LogWarning
             "[core] Upgrade success! Old localSettings.json,manifest.local.template.json,manifest.remote.template.json have been backed up to the .backup folder and you can delete it.";
           LogInfo "core.consolidateLocalRemote.SuccessMessage"]].
Proof.
  cbv zeta.
  destruct (proj2 (upgrade_accepted
                     (with_next
                        (fun _ => Some (ThrownErr (SettingsError "NextFailed")))
                        (sample_env no_fault false None))
                     sample_ctx true 0 [] (initial_state sample_project))
              (ArgInputs sample_inputs) "/proj" eq_refl eq_refl
              (fun _ => eq_refl) ltac:(vm_compute; reflexivity))
    as (st' & r & earlier & Hup & Hev & Hbg).
  exists st', earlier.
  split; [| split; [exact Hev | exact Hbg]].
  cbn [repeat app] in Hup. rewrite Hup.
  vm_compute in Hup. injection Hup as _ <-. reflexivity.
Defined.

(** ** The middleware for an allow-listed method *)



(** ** The entries of [removeMap] and their backups *)

(** The [catch] block reads [removeMap] and leaves it as it is. *)
Lemma rollback_removeMap (env : Env) (p : string) (e : exn) (st : State) :
  removeMap (fst (rollback env p e st)) = removeMap st.
Proof.
  apply (preserves_fst (fun s => removeMap s = removeMap st));
    [| reflexivity].
  assert (Hop : forall site effect,
            preserves (fun s => removeMap s = removeMap st)
              (fs_op env site effect)).
  { intros site effect. apply preserves_fs_op.
    intros s files H _. exact H. }
  unfold rollback, copy, remove.
  apply preserves_bind; [apply preserves_read | intros restores].
  apply preserves_bind; [apply preserves_forM; intros; apply Hop | intros _].
  apply preserves_bind; [apply preserves_read | intros created].
  apply preserves_bind; [apply preserves_forM; intros; apply Hop | intros _].
  apply preserves_bind; [apply Hop | intros _; apply preserves_raise].
Qed.

(** C7, as the code has it. Wherever the [try] block of
    [consolidateLocalRemote] stops, by completion or because any of its file
    operations is rejected, every entry of [removeMap] is the backup path
    and the original path of one legacy file, and the backup exists and
    holds what the original held when the run started: an entry is recorded
    only once its copy is made. This holds no longer when the [catch] block
    is over: its last file operation removes the backup folder, so that,
    when none of its file operations is rejected, [removeMap] still holds
    every entry and none of them has a backup. *)
Theorem removeMap_entries_restorable :
  forall (env : Env) (p : string) (inputs : Inputs)
         (settings : ProjectSettings) (st : State),
    removeMap st = [] ->
    let st' := fst (transform env p inputs settings st) in
    let st'' :=
      fst (tryCatch (transform env p inputs settings) (rollback env p) st) in
    (forall backup original,
       In (backup, original) (removeMap st') ->
       exists f n,
         backup = nf p (backup_rel f) /\ original = nf p (original_rel f)
         /\ fs st' backup = Some n /\ fs st original = Some n)
    /\ (forall e,
          snd (transform env p inputs settings st) = inl e ->
          (forall site, rollback_site site = true -> faults env site = false) ->
          removeMap st'' = removeMap st'
          /\ forall backup original,
               In (backup, original) (removeMap st'') ->
               fs st'' backup = None).
Proof.
  intros env p inputs settings st Hrm st' st''.
  assert (HI : restorable p (fs st) st') by
    (apply preserves_fst;
       [apply transform_restorable | now apply restorable_start]).
  split.
  - intros backup original Hin. destruct HI as [H1 _].
    destruct (H1 backup original Hin) as (f & -> & -> & Hc & Hn).
    destruct (fs st (nf p (original_rel f))) as [n |] eqn:E; [| congruence].
    exists f, n. auto.
  - intros e He Haccepted. subst st' st''. unfold tryCatch.
    destruct (transform env p inputs settings st) as [st1 [e1 | []]];
      cbn [fst snd] in *; [| discriminate].
    pose proof (rollback_removeMap env p e1 st1) as Hsame.
    pose proof (rollback_leaves env p (fs st) e1 st1 HI) as Hleaves.
    destruct (rollback_throws env p e1 st1) as (st2 & e2 & Heq).
    rewrite Heq in *. cbn [fst] in *.
    split; [exact Hsame |].
    intros backup original Hin. rewrite Hsame in Hin.
    destruct (proj1 HI backup original Hin) as (f & -> & _).
    destruct Hleaves as [[_ Hgone] | (site & Hsite & Hfault & _)];
      [| rewrite (Haccepted site Hsite) in Hfault; discriminate].
    apply Hgone. rewrite backupPath_nf, under_nf. now destruct f.
Qed.

(** The sample project: the entry of the local settings when the [try]
    block is over, and, with the copy of the local manifest rejected, when
    the [catch] block is over. *)
Lemma removeMap_entries_restorable_witness :
  let env := sample_env no_fault false None in
  let st := initial_state sample_project in
  let st' := fst (transform env "/proj" sample_inputs (mkSettings "myapp" false) st) in
  let failing := sample_env local_manifest_copy_rejected false None in
  let st'' :=
    fst (tryCatch
           (transform failing "/proj" sample_inputs (mkSettings "myapp" false))
           (rollback failing "/proj") st) in
  (removeMap st = []
   /\ In ("/proj/.backup/.fx/configs/localSettings.json",
          "/proj/.fx/configs/localSettings.json") (removeMap st')
   /\ In ("/proj/.backup/.fx/configs/localSettings.json",
          "/proj/.fx/configs/localSettings.json") (removeMap st''))
  /\ (exists f n,
        "/proj/.backup/.fx/configs/localSettings.json"
        = nf "/proj" (backup_rel f)
        /\ "/proj/.fx/configs/localSettings.json" = nf "/proj" (original_rel f)
        /\ fs st' "/proj/.backup/.fx/configs/localSettings.json" = Some n
        /\ fs st "/proj/.fx/configs/localSettings.json" = Some n)
  /\ fs st'' "/proj/.backup/.fx/configs/localSettings.json" = None.
Proof.
  cbv zeta.
  assert (Hin : In ("/proj/.backup/.fx/configs/localSettings.json",
                    "/proj/.fx/configs/localSettings.json")
                  (removeMap
                     (fst (transform (sample_env no_fault false None) "/proj"
                             sample_inputs (mkSettings "myapp" false)
                             (initial_state sample_project)))))
    by (vm_compute; left; reflexivity).
  assert (Hin' : In ("/proj/.backup/.fx/configs/localSettings.json",
                     "/proj/.fx/configs/localSettings.json")
                   (removeMap
                      (fst (tryCatch
                              (transform
                                 (sample_env local_manifest_copy_rejected
                                    false None)
                                 "/proj" sample_inputs
                                 (mkSettings "myapp" false))
                              (rollback
                                 (sample_env local_manifest_copy_rejected
                                    false None) "/proj")
                              (initial_state sample_project)))))
    by (vm_compute; left; reflexivity).
  assert (Haccepted : forall site,
            rollback_site site = true ->
            faults (sample_env local_manifest_copy_rejected false None) site
            = false)
    by (intros site H; destruct site; try discriminate H; reflexivity).
  split; [split; [reflexivity | split; [exact Hin | exact Hin']] |].
  split.
  - exact (proj1 (removeMap_entries_restorable
                    (sample_env no_fault false None) "/proj" sample_inputs
                    (mkSettings "myapp" false) (initial_state sample_project)
                    eq_refl) _ _ Hin).
  - exact (proj2 (proj2 (removeMap_entries_restorable
                           (sample_env local_manifest_copy_rejected false None)
                           "/proj" sample_inputs (mkSettings "myapp" false)
                           (initial_state sample_project) eq_refl)
                    (IOFailure (AtBackupCopy LocalManifest))
                    ltac:(vm_compute; reflexivity) Haccepted) _ _ Hin').
Defined.

(** The claim of C7 fails on the code at the end of the [catch] block: in
    the sample project, with the copy of the local manifest into the backup
    folder rejected, the entry of the local settings is still in
    [removeMap] when the error reaches the caller, and its backup is not on
    disk any more. *)
Lemma removeMap_entry_without_backup_counterexample :
  let env := sample_env local_manifest_copy_rejected false None in
  let st := initial_state sample_project in
  let st' := fst (consolidateLocalRemote env sample_ctx st) in
  snd (consolidateLocalRemote env sample_ctx st)
  = inl (IOFailure (AtBackupCopy LocalManifest))
  /\ In ("/proj/.backup/.fx/configs/localSettings.json",
         "/proj/.fx/configs/localSettings.json") (removeMap st')
  /\ fs st' "/proj/.backup/.fx/configs/localSettings.json" = None
  /\ fs st' "/proj/.fx/configs/localSettings.json"
     = Some (File "local settings").
Proof.
  cbv zeta. split; [vm_compute; reflexivity |].
  split; [vm_compute; left; reflexivity |].
  split; vm_compute; reflexivity.
Qed.

(** ** Two manifests with the same content *)

(** X4. Two manifest files with the same content never produce the
    warning about different manifests, [JSON.parse] returning trees without
    duplicate keys and without [NaN] as it does.
    [compareLocalAndRemoteManifest] changes nothing at all exactly when
    both files are read and the content, its placeholders removed, parses
    to a tree other than [null]; in every other case, a read that is
    rejected, a content that does not parse or that parses to [null], all
    it does is to send one [ProjectConsolidateCheckManifestError] telemetry
    error event. *)
Theorem identical_manifests_no_warning :
  forall (env : Env) (localFile remoteFile text : string) (st : State),
    fs st localFile = Some (File text) ->
    fs st remoteFile = Some (File text) ->
    (forall j,
       JSON_parse env (replace_manifestRegex env text) = Some j ->
       well_formed j = true) ->
    let r := compareLocalAndRemoteManifest env localFile remoteFile st in
    (r = (st, inr tt)
     <-> faults env (AtCompareRead LocalManifest) = false
         /\ faults env (AtCompareRead RemoteManifest) = false
         /\ exists j,
              JSON_parse env (replace_manifestRegex env text) = Some j
              /\ j <> JNull)
    /\ (r = (st, inr tt)
        \/ exists e,
             r = (add_event
                    (SendTelemetryErrorEvent
                       ProjectConsolidateCheckManifestError e) st, inr tt)).
Proof.
  intros env localFile remoteFile text st Hl Hr Hwf r.
  assert (Hevent : forall e,
            (add_event
               (SendTelemetryErrorEvent ProjectConsolidateCheckManifestError e)
               st, @inr exn unit tt) <> (st, inr tt)).
  { intros e H. injection H as H. exact (add_event_changes _ _ (eq_sym H)). }
  subst r.
  unfold compareLocalAndRemoteManifest, tryCatch, bind, readFile,
    sendTelemetryErrorEvent, when, modify, ret, raise.
  destruct (faults env (AtCompareRead LocalManifest)) eqn:F1.
  { split; [split; [intros H; now apply Hevent in H | now intros [? _]]
           | right; eexists; reflexivity]. }
  rewrite Hl.
  destruct (faults env (AtCompareRead RemoteManifest)) eqn:F2.
  { split; [split; [intros H; now apply Hevent in H | now intros (_ & ? & _)]
           | right; eexists; reflexivity]. }
  rewrite Hr.
  destruct (JSON_parse env (replace_manifestRegex env text)) as [j |] eqn:Hparse.
  2:{ split; [split; [intros H; now apply Hevent in H
                     | now intros (_ & _ & j & ? & _)]
             | right; eexists; reflexivity]. }
  specialize (Hwf j eq_refl).
  assert (Hsame : j <> JNull -> diff j j = Some true)
    by (intros Hnull; apply diff_true_iff; now apply Equivalent_refl).
  destruct (diff j j) as [same |] eqn:Hdiff.
  - assert (Hnull : j <> JNull) by (intros ->; discriminate Hdiff).
    assert (same = true) by (specialize (Hsame Hnull); congruence).
    subst same. cbn [negb].
    split; [| left; reflexivity].
    split; [intros _ | reflexivity].
    repeat split. exists j. auto.
  - split; [| right; eexists; reflexivity].
    split; [intros H; now apply Hevent in H |].
    intros (_ & _ & j' & [= <-] & Hnull).
    specialize (Hsame Hnull). discriminate.
Qed.

(** The two manifests of the sample project given the same content. *)
Lemma identical_manifests_no_warning_witness :
  let env :=
    mkEnv true no_fault (fun _ _ => inr (mkSettings "myapp" false))
      (fun _ => inl (SettingsError "NoProjectOpened"))
      (fun name => name) (fun name => name) (fun _ => None) (fun _ => "")
      (fun _ => Some (JObj [("id", JStr "1")])) (fun text => text)
      "" "" "fx" "configs" "states" "/res" (fun _ => None) in
  let st :=
    initial_state
      (fs_of [("/proj/local.json", File "{}"); ("/proj/remote.json", File "{}")]) in
  compareLocalAndRemoteManifest env "/proj/local.json" "/proj/remote.json" st
  = (st, inr tt).
Proof.
  cbv zeta.
  apply (proj1 (identical_manifests_no_warning
                  (mkEnv true no_fault (fun _ _ => inr (mkSettings "myapp" false))
                     (fun _ => inl (SettingsError "NoProjectOpened"))
                     (fun name => name) (fun name => name) (fun _ => None)
                     (fun _ => "")
                     (fun _ => Some (JObj [("id", JStr "1")])) (fun text => text)
                     "" "" "fx" "configs" "states" "/res" (fun _ => None))
                  "/proj/local.json" "/proj/remote.json" "{}"
                  (initial_state
                     (fs_of [("/proj/local.json", File "{}");
                             ("/proj/remote.json", File "{}")]))
                  eq_refl eq_refl
                  ltac:(intros j [= <-]; reflexivity))).
  repeat split. exists (JObj [("id", JStr "1")]). split; [reflexivity |].
  discriminate.
Defined.
